(** * Shield-your-assets maintenance scripts: a shallow embedding

    The repository holds three small Python scripts:
    - [fix_json_imports.py] rewrites [require('...medicaid_rules_2025.json')]
      references in [.js]/[.ts] files to a freshly computed relative path;
    - [print_structure.py] dumps a directory tree up to a depth limit;
    - [generate_structure.py] dumps a whole directory tree.

    Python text is a list of characters ([list ascii], the UTF-8 bytes of
    the text; every character the scripts inspect is ASCII).  The library
    functions the scripts call ([str.replace], [str.split], [posixpath.*],
    [re.finditer], [os.walk]) are embedded after their CPython definitions,
    for a POSIX host.  A file holds its text as it is stored; reading it in
    text mode translates the line endings, and fails when the content does
    not decode in the encoding of the locale, which the store records for
    each file. *)

From Stdlib Require Import Ascii String.
From stdpp Require Import gmap strings list fin_maps.

Open Scope list_scope.

(** ** Text *)

Abbreviation str := (list ascii).

(** String literals are written with the standard notation and read as
    character lists. *)
Definition txt (s : string) : str := list_ascii_of_string s.

Definition sep : ascii := "/"%char.
Definition backslash : ascii := "\"%char.
Definition squote : ascii := "'"%char.
Definition dquote : ascii := ascii_of_nat 34.
Definition newline : ascii := ascii_of_nat 10.
Definition cr : ascii := ascii_of_nat 13.

(** What reading in text mode makes of the line endings (universal
    newlines): a carriage return followed by a line feed, and a carriage
    return alone, each become one line feed. *)
Fixpoint universal_newlines (s : str) : str :=
  match s with
  | [] => []
  | c :: s' =>
      if decide (c = cr) then
        match s' with
        | c' :: s'' =>
            if decide (c' = newline) then newline :: universal_newlines s''
            else newline :: universal_newlines s'
        | [] => [newline]
        end
      else c :: universal_newlines s'
  end.

(** [s.startswith(p)] *)
Fixpoint startswith (p s : str) : bool :=
  match p, s with
  | [], _ => true
  | _ :: _, [] => false
  | a :: p', b :: s' => if decide (a = b) then startswith p' s' else false
  end.

(** [s.endswith(p)] *)
Definition endswith (p s : str) : bool := startswith (rev p) (rev s).

(** [s.count(c)] for a one-character needle. *)
Definition count_char (c : ascii) (s : str) : nat :=
  length (filter (λ x, x = c) s).

(** [s.replace(old, new)]: every leftmost, non-overlapping occurrence of
    [old] is replaced.  [skip] counts the characters of an occurrence that
    was just replaced and that are still to be stepped over.  With an empty
    [old], [new] is inserted before every character and at the end. *)
Fixpoint replace_from (old new : str) (skip : nat) (s : str) : str :=
  match s with
  | [] => []
  | c :: s' =>
      match skip with
      | S k => replace_from old new k s'
      | O =>
          if startswith old s
          then new ++ replace_from old new (length old - 1) s'
          else c :: replace_from old new 0 s'
      end
  end.

Definition str_replace (old new s : str) : str :=
  match old with
  | [] => new ++ concat (map (λ c, c :: new) s)
  | _ :: _ => replace_from old new 0 s
  end.

(** [s.split(sep)] for the one-character separator ['/']: the pieces between
    separators, empty pieces included; always at least one piece. *)
Fixpoint split_sep (s : str) : list str :=
  match s with
  | [] => [[]]
  | c :: s' =>
      if decide (c = sep) then [] :: split_sep s'
      else match split_sep s' with
           | [] => [[c]]
           | p :: ps => (c :: p) :: ps
           end
  end.

(** [sep.join(comps)] *)
Fixpoint join_sep (comps : list str) : str :=
  match comps with
  | [] => []
  | [c] => c
  | c :: cs => c ++ sep :: join_sep cs
  end.

(** ** [posixpath] *)

Module posixpath.

Definition curdir : str := txt ".".
Definition pardir : str := txt "..".

Definition isabs (p : str) : bool := startswith [sep] p.

(** [join(a, b)] *)
Definition join (a b : str) : str :=
  if startswith [sep] b then b
  else if bool_decide (a = []) || endswith [sep] a then a ++ b
  else a ++ sep :: b.

(** [join(a, *p)] *)
Definition join_all (a : str) (p : list str) : str := fold_left join p a.

(** One round of the component loop of [normpath]. *)
Definition norm_step (initial_slashes : nat) (new_comps : list str) (comp : str)
  : list str :=
  if bool_decide (comp = []) || bool_decide (comp = curdir) then new_comps
  else if negb (bool_decide (comp = pardir))
          || (bool_decide (initial_slashes = 0) && bool_decide (new_comps = []))
          || (negb (bool_decide (new_comps = []))
              && bool_decide (last new_comps = Some pardir))
  then new_comps ++ [comp]
  else removelast new_comps.

(** POSIX allows one or two initial slashes, but treats three or more as
    a single slash. *)
Definition initial_slashes (path : str) : nat :=
  if startswith [sep] path then
    if startswith [sep; sep] path && negb (startswith [sep; sep; sep] path)
    then 2 else 1
  else 0.

Definition normpath (path : str) : str :=
  if bool_decide (path = []) then curdir
  else
    let n := initial_slashes path in
    let comps := fold_left (norm_step n) (split_sep path) [] in
    let path' := replicate n sep ++ join_sep comps in
    if bool_decide (path' = []) then curdir else path'.

(** [abspath(path)]; [cwd] is what [os.getcwd()] returns. *)
Definition abspath (cwd path : str) : str :=
  normpath (if isabs path then path else join cwd path).

(** Everything up to and including the last separator. *)
Fixpoint head_of (p : str) : str :=
  match p with
  | [] => []
  | c :: p' =>
      if bool_decide (sep ∈ p) then c :: head_of p' else []
  end.

(** [s.rstrip('/')] *)
Fixpoint rstrip_sep (s : str) : str :=
  match s with
  | [] => []
  | c :: s' =>
      match rstrip_sep s' with
      | [] => if decide (c = sep) then [] else [c]
      | r => c :: r
      end
  end.

Definition dirname (p : str) : str :=
  let head := head_of p in
  if negb (bool_decide (head = []))
     && negb (bool_decide (head = replicate (length head) sep))
  then rstrip_sep head else head.

Definition basename (p : str) : str := drop (length (head_of p)) p.

(** Length of the common prefix of two component lists. *)
Fixpoint commonprefix_len (a b : list str) : nat :=
  match a, b with
  | x :: a', y :: b' => if decide (x = y) then S (commonprefix_len a' b') else 0
  | _, _ => 0
  end.

Definition parts (p : str) : list str :=
  filter (λ x, x ≠ []) (split_sep p).

(** [relpath(path, start)]: [None] stands for the [ValueError] raised on
    an empty [path]. *)
Definition relpath (cwd path start : str) : option str :=
  if bool_decide (path = []) then None
  else
    let start_list := parts (abspath cwd start) in
    let path_list := parts (abspath cwd path) in
    let i := commonprefix_len start_list path_list in
    let rel_list := replicate (length start_list - i) pardir ++ drop i path_list in
    match rel_list with
    | [] => Some curdir
    | a :: p => Some (join_all a p)
    end.

End posixpath.

(** ** [re]: the fragment of the regular-expression syntax the script uses

    A backtracking matcher in the manner of CPython's [sre]: alternatives are
    tried in order and the first success wins, so a lazy star tries the rest
    of the pattern before it consumes another character. *)

Inductive regex : Type :=
  | Eps                                      (* the empty pattern *)
  | Chr (c : ascii)                          (* a literal character *)
  | Cls (negated : bool) (cs : list ascii)   (* [...] and [^...] *)
  | LazyStar (negated : bool) (cs : list ascii) (* [...]*? and [^...]*? *)
  | Grp (r : regex)                          (* ( r ), a capturing group *)
  | Cat (r1 r2 : regex).

(** A literal run of characters. *)
Fixpoint Lit (s : str) : regex :=
  match s with
  | [] => Eps
  | c :: s' => Cat (Chr c) (Lit s')
  end.

Definition in_class (negated : bool) (cs : list ascii) (x : ascii) : bool :=
  xorb negated (bool_decide (x ∈ cs)).

Section backtrack.
Context {R : Type}.

(** [[cs]*?] followed by the continuation [k]. *)
Fixpoint lazy_loop (negated : bool) (cs : list ascii) (k : str → option R)
    (s : str) : option R :=
  match k s with
  | Some r => Some r
  | None =>
      match s with
      | x :: s' => if in_class negated cs x then lazy_loop negated cs k s' else None
      | [] => None
      end
  end.

(** [bt r s g k]: match [r] at the start of [s], then continue with [k] on
    what is left; [g] holds the text of the groups closed so far. *)
Fixpoint bt (r : regex) (s : str) (g : list str)
    (k : str → list str → option R) : option R :=
  match r with
  | Eps => k s g
  | Chr c =>
      match s with
      | x :: s' => if decide (x = c) then k s' g else None
      | [] => None
      end
  | Cls negated cs =>
      match s with
      | x :: s' => if in_class negated cs x then k s' g else None
      | [] => None
      end
  | LazyStar negated cs => lazy_loop negated cs (λ s', k s' g) s
  | Grp r' => bt r' s g (λ s' g', k s' (g' ++ [take (length s - length s') s]))
  | Cat r1 r2 => bt r1 s g (λ s' g', bt r2 s' g' k)
  end.
End backtrack.

(** A match object: where it starts, [group(0)] and the numbered groups. *)
Record Match : Type := mkMatch {
  m_start : nat;
  m_text : str;
  m_groups : list str
}.

Definition group (m : Match) (i : nat) : str :=
  match i with
  | 0 => m_text m
  | S j => default [] (m_groups m !! j)
  end.

(** [pattern.match] at the head of [s]: the matched text and the groups. *)
Definition match_here (r : regex) (s : str) : option (str * list str) :=
  bt r s [] (λ s' g, Some (take (length s - length s') s, g)).

(** [pattern.finditer(s)]: scan left to right; after a match the scan resumes
    at its end.  [skip] counts the characters of the last match still to be
    stepped over; an empty match moves the scan on by one character. *)
Fixpoint finditer_from (r : regex) (pos skip : nat) (s : str) : list Match :=
  match skip with
  | S k =>
      match s with
      | [] => []
      | _ :: s' => finditer_from r (S pos) k s'
      end
  | O =>
      match match_here r s with
      | Some (t, g) =>
          mkMatch pos t g ::
            match s with
            | [] => []
            | _ :: s' => finditer_from r (S pos) (length t - 1) s'
            end
      | None =>
          match s with
          | [] => []
          | _ :: s' => finditer_from r (S pos) 0 s'
          end
      end
  end.

Definition finditer (r : regex) (s : str) : list Match := finditer_from r 0 0 s.

(** ** Effects

    A script runs in a state and either returns or raises; the state reached
    when an exception is raised is kept, as that is what the run leaves
    behind. *)

Inductive exn : Type :=
  | OSError (path : str)             (* the file cannot be opened *)
  | UnicodeDecodeError (path : str)  (* its content does not decode *)
  | ValueError.

Definition M (St A : Type) : Type := St → St * (exn + A).

Global Instance M_ret {St} : MRet (M St) := λ A a st, (st, inr a).
Global Instance M_bind {St} : MBind (M St) := λ A B f m st,
  match m st with
  | (st', inr a) => f a st'
  | (st', inl e) => (st', inl e)
  end.

Definition raise {St A} (e : exn) : M St A := λ st, (st, inl e).
Definition modify {St} (f : St → St) : M St unit := λ st, (f st, inr ()).
Definition get {St} : M St St := λ st, (st, inr st).

(** [for x in xs: body x] *)
Fixpoint for_each {St A} (xs : list A) (body : A → M St unit) : M St unit :=
  match xs with
  | [] => mret ()
  | x :: xs' => body x ≫= λ _, for_each xs' body
  end.

(** A loop that threads a local variable through its rounds. *)
Fixpoint for_fold {St A B} (xs : list A) (body : B → A → M St B) (b : B) : M St B :=
  match xs with
  | [] => mret b
  | x :: xs' => body b x ≫= for_fold xs' body
  end.

(** ** Files and the console

    The store maps a path, as the script spells it, to a file.  A file
    holds its text as stored, what reading it comes to, and whether it can
    be opened for writing.  [open(path, 'r')] raises an [OSError] for a path
    that is absent or a file that may not be read; the read raises a
    [UnicodeDecodeError] for content that does not decode; otherwise it
    gives the text with its line endings translated.  [open(path, 'w')]
    raises an [OSError] for a file that may not be written; the text is
    written as it is, a line feed being the line ending of the host. *)

Inductive read_outcome : Type :=
  | ReadOk             (* the file opens and its content decodes *)
  | ReadDenied         (* the file cannot be opened for reading *)
  | ReadUndecodable.   (* the file opens, its content does not decode *)

Record file : Type := mkFile {
  f_content : str;
  f_read : read_outcome;
  f_writable : bool
}.

(** Opening and reading the file succeed. *)
Definition f_readable (f : file) : bool :=
  match f_read f with
  | ReadOk => true
  | _ => false
  end.

(** Content that was written decodes. *)
Definition after_write (r : read_outcome) : read_outcome :=
  match r with
  | ReadDenied => ReadDenied
  | _ => ReadOk
  end.

Inductive event : Type :=
  | EvRead (path : str)
  | EvWrite (path : str) (content : str)
  | EvPrint (text : str).

Record world : Type := mkWorld {
  w_files : gmap str file;
  w_trace : list event
}.

Definition log (e : event) : M world unit :=
  modify (λ w, mkWorld (w_files w) (w_trace w ++ [e])).

Definition print (text : str) : M world unit := log (EvPrint text).

(** [with open(path, 'r') as f: f.read()] *)
Definition read_file (path : str) : M world str :=
  w ← get;
  match w_files w !! path with
  | Some f =>
      match f_read f with
      | ReadOk =>
          log (EvRead path) ≫= λ _, mret (universal_newlines (f_content f))
      | ReadDenied => raise (OSError path)
      | ReadUndecodable => raise (UnicodeDecodeError path)
      end
  | None => raise (OSError path)
  end.

(** [with open(path, 'w') as f: f.write(content)] *)
Definition write_file (path content : str) : M world unit :=
  w ← get;
  match w_files w !! path with
  | Some f =>
      if f_writable f then
        modify (λ w, mkWorld (<[path := mkFile content (after_write (f_read f)) true]>
                                (w_files w))
                             (w_trace w)) ≫= λ _,
        log (EvWrite path content)
      else raise (OSError path)
  | None =>
      modify (λ w, mkWorld (<[path := mkFile content ReadOk true]> (w_files w))
                           (w_trace w)) ≫= λ _,
      log (EvWrite path content)
  end.

(** ** [os.walk]

    A directory holds the names of its files and its subdirectories.  Top
    down, [os.walk] yields [(root, dirs, files)] for a directory, lets the
    loop body run, and then descends into the names left in [dirs], which the
    body may have changed in place; a name that is no subdirectory is passed
    over.  The body is given as a function that returns [dirs] as it leaves
    it.  The scripts create and delete no file while they walk, so the
    directories are those found at the start.  Listing the empty path fails,
    and [os.walk] then yields nothing. *)

Local Unset Elimination Schemes.
Inductive tree : Type :=
  | Dir (files : list str) (subdirs : list (str * tree)).
Local Set Elimination Schemes.

Fixpoint assoc {A} (name : str) (l : list (str * A)) : option A :=
  match l with
  | [] => None
  | (n, a) :: l' => if decide (n = name) then Some a else assoc name l'
  end.

Section walk.
Context {St : Type}.
Variable body : str → list str → list str → M St (list str).

Fixpoint walk_dir (t : tree) (top : str) : M St unit :=
  match t with
  | Dir files subdirs =>
      let below := map (λ d, (fst d, walk_dir (snd d))) subdirs in
      dirs ← body top (map fst subdirs) files;
      for_each dirs (λ dirname,
        match assoc dirname below with
        | Some descend => descend (posixpath.join top dirname)
        | None => mret ()
        end)
  end.

Definition os_walk (t : tree) (top : str) : M St unit :=
  if bool_decide (top = []) then mret () else walk_dir t top.
End walk.

(** ** fix_json_imports.py *)

Definition target_filename : str := txt "medicaid_rules_2025.json".
Definition correct_path : str := txt "src/data/medicaid_rules_2025.json".
Definition project_root : str := txt ".".

(** [re.escape]: the characters of the target name that are special in a
    pattern are escaped, which makes each of them a literal. *)
Definition re_escape (s : str) : regex := Lit s.

Definition quotes : list ascii := [squote; dquote].

(** The compiled pattern: the literal [require(], a quote character (group
    1), a lazy run of non-quote characters (group 2), the escaped target
    name, a quote character (group 3) and a closing parenthesis.  The two
    quote groups are independent character classes over the single and the
    double quote. *)
Definition pattern : regex :=
  Cat (Lit (txt "require("))
 (Cat (Grp (Cls false quotes))
 (Cat (Grp (LazyStar true quotes))
 (Cat (re_escape target_filename)
 (Cat (Grp (Cls false quotes))
      (Chr ")"%char))))).

Section fix_json_imports.
(** The working directory of the process. *)
Variable cwd : str.

Definition calculate_relative_path (from_file to_file : str) : option str :=
  let from_dir := posixpath.dirname (posixpath.abspath cwd from_file) in
  let to_abs := posixpath.abspath cwd to_file in
  relative_path ← posixpath.relpath cwd to_abs from_dir;
  Some (str_replace [backslash] [sep] relative_path).

Definition report_updated (file_path full_match replacement : str) : str :=
  txt "✔ Updated in: " ++ file_path ++ newline :: txt "    ↪ " ++ full_match
    ++ txt " → " ++ replacement.

Definition report_no_match (file_path : str) : str :=
  txt "— No match in: " ++ file_path.

(** One round of [for match in matches]. *)
Definition update_round (file_path correct_json_path : str)
    (new_content : str) (m : Match) : M world str :=
  let old_path := group m 2 in
  match calculate_relative_path file_path correct_json_path with
  | None => raise ValueError
  | Some new_rel_path =>
      let full_match := group m 0 in
      let replacement := txt "require('" ++ new_rel_path ++ txt "')" in
      let new_content := str_replace full_match replacement new_content in
      print (report_updated file_path full_match replacement) ≫= λ _,
      mret new_content
  end.

Definition update_file (file_path correct_json_path : str) : M world unit :=
  content ← read_file file_path;
  let matches := finditer pattern content in
  if bool_decide (matches ≠ []) then
    new_content ← for_fold matches (update_round file_path correct_json_path) content;
    write_file file_path new_content
  else
    print (report_no_match file_path).

Definition scan_body (correct_json_path : str) (root : str)
    (dirs files : list str) : M world (list str) :=
  for_each files (λ file,
    if endswith (txt ".js") file || endswith (txt ".ts") file then
      let full_path := posixpath.join root file in
      update_file full_path correct_json_path
    else mret ()) ≫= λ _,
  mret dirs.

Definition scan_header (base_dir : str) : str :=
  newline :: txt "📁 Scanning directory: " ++ posixpath.abspath cwd base_dir
    ++ [newline].

Definition scan_and_update_files (t : tree) (base_dir correct_json_path : str)
  : M world unit :=
  print (scan_header base_dir) ≫= λ _,
  os_walk (scan_body correct_json_path) t base_dir.

Definition completion_message : str :=
  newline :: txt "✅ JSON import path check complete.".

(** The script's [__main__] block; [t] is the directory tree at
    [project_root]. *)
Definition main (t : tree) : M world unit :=
  let full_json_path :=
    posixpath.abspath cwd (posixpath.join project_root correct_path) in
  scan_and_update_files t project_root full_json_path ≫= λ _,
  print completion_message.

End fix_json_imports.

(** ** print_structure.py

    The state of the walk is the text written to the output file so far. *)

Fixpoint repeat_str (s : str) (n : nat) : str :=
  match n with
  | O => []
  | S n' => s ++ repeat_str s n'
  end.

Definition fwrite (text : str) : M str unit := modify (λ out, out ++ text).

Definition tree_depth (startpath root : str) : nat :=
  count_char sep (drop (length startpath) root).

Definition print_tree_body (startpath : str) (max_depth : nat) (root : str)
    (dirs files : list str) : M str (list str) :=
  let depth := tree_depth startpath root in
  if bool_decide (depth < max_depth) then
    let indent := repeat_str (txt "│   ") depth ++ txt "├── " in
    fwrite (indent ++ posixpath.basename root ++ [sep; newline]) ≫= λ _,
    let subindent := repeat_str (txt "│   ") (depth + 1) in
    for_each files (λ file, fwrite (subindent ++ file ++ [newline])) ≫= λ _,
    mret dirs
  else
    mret [].

(** [print_tree(startpath, max_depth)]: the text of the output file. *)
Definition print_tree (t : tree) (startpath : str) (max_depth : nat) : str :=
  fst (os_walk (print_tree_body startpath max_depth) t startpath []).

Definition default_max_depth : nat := 6.

(** The script's [__main__] block: [print_tree(base_path)] with
    [base_path = "."] and the default [max_depth]. *)
Definition print_structure_main (t : tree) : str :=
  print_tree t (txt ".") default_max_depth.

(** ** generate_structure.py

    As for [print_tree], the state of the walk is the text written to the
    output file so far. *)

(** [root.replace(startpath, '').count(os.sep)] *)
Definition save_level (startpath root : str) : nat :=
  count_char sep (str_replace startpath [] root).

Definition save_structure_body (startpath : str) (root : str)
    (dirs files : list str) : M str (list str) :=
  let level := save_level startpath root in
  let indent := repeat_str (repeat_str (txt " ") 4) level in
  fwrite (indent ++ posixpath.basename root ++ [sep; newline]) ≫= λ _,
  let subindent := repeat_str (repeat_str (txt " ") 4) (level + 1) in
  for_each files (λ file, fwrite (subindent ++ file ++ [newline])) ≫= λ _,
  mret dirs.

(** [save_structure(startpath, output_file)]: the text of the output file. *)
Definition save_structure (t : tree) (startpath : str) : str :=
  fst (os_walk (save_structure_body startpath) t startpath []).

(** The call at the end of the script: [save_structure(".", ...)]. *)
Definition generate_structure_main (t : tree) : str :=
  save_structure t (txt ".").

(** ** Notions used in the statements *)

(** A component of a normalised path: not empty, not [.] or [..], and free
    of separators. *)
Definition clean_comp (c : str) : Prop :=
  c ≠ [] ∧ c ≠ posixpath.curdir ∧ c ≠ posixpath.pardir ∧ sep ∉ c.

Definition clean (comps : list str) : Prop := Forall clean_comp comps.

(** The shape of an absolute, normalised path: [n] slashes, then the
    components joined by the separator. *)
Definition shaped (n : nat) (comps : list str) : str :=
  replicate n sep ++ join_sep comps.

(** Resolving a relative path against the directory that holds [from_file]. *)
Definition resolve (cwd from_file rel : str) : str :=
  posixpath.join (posixpath.dirname (posixpath.abspath cwd from_file)) rel.

(** The components [relpath] computes for a target with components [target]
    seen from a directory with components [start]. *)
Definition rel_list (start target : list str) : list str :=
  let i := posixpath.commonprefix_len start target in
  replicate (length start - i) posixpath.pardir ++ drop i target.

Definition rel_text (start target : list str) : str :=
  match rel_list start target with
  | [] => posixpath.curdir
  | comps => join_sep comps
  end.

(** Two paths are lexically equivalent when their absolute forms have the
    same components. *)
Definition lex_equiv (cwd p q : str) : Prop :=
  posixpath.parts (posixpath.abspath cwd p) = posixpath.parts (posixpath.abspath cwd q).

(** The texts the pattern matches: [require(], a quote, a run [old_path]
    without quotes, the target name, a quote, [)]; with the three groups. *)
Definition quote_free (s : str) : Prop := Forall (λ c, c ∉ quotes) s.

Definition match_text (q1 : ascii) (old_path : str) (q2 : ascii) : str :=
  txt "require(" ++ q1 :: old_path ++ target_filename ++ [q2; ")"%char].

Inductive is_match : str → list str → Prop :=
  | IsMatch q1 old_path q2 :
      q1 ∈ quotes → q2 ∈ quotes → quote_free old_path →
      is_match (match_text q1 old_path q2) [[q1]; old_path; [q2]].

(** What follows group 2 in the pattern. *)
Definition pattern_tail : regex :=
  Cat (re_escape target_filename) (Cat (Grp (Cls false quotes)) (Chr ")"%char)).

(** A text cut at its matches: the characters outside any match, one by
    one, and the matches with their groups. *)
Inductive token : Type :=
  | Gap (c : ascii)
  | Hit (t : str) (g : list str).

Definition token_text (k : token) : str :=
  match k with
  | Gap c => [c]
  | Hit t _ => t
  end.

Definition flatten (ks : list token) : str := concat (map token_text ks).

(** [ks] is the cut [finditer] makes: no match starts at a gap character. *)
Inductive tokenized : list token → Prop :=
  | tokenized_nil : tokenized []
  | tokenized_gap c ks :
      tokenized ks → match_here pattern (c :: flatten ks) = None →
      tokenized (Gap c :: ks)
  | tokenized_hit t g ks :
      tokenized ks → is_match t g → tokenized (Hit t g :: ks).

Fixpoint matches_of (pos : nat) (ks : list token) : list Match :=
  match ks with
  | [] => []
  | Gap _ :: ks' => matches_of (S pos) ks'
  | Hit t g :: ks' => mkMatch pos t g :: matches_of (pos + length t) ks'
  end.

(** Replace the matches with text [old] by the tokens [new]. *)
Definition subst_hit (old : str) (new : list token) (k : token) : list token :=
  match k with
  | Gap c => [Gap c]
  | Hit t g => if decide (t = old) then new else [Hit t g]
  end.

(** Replace every match by the tokens [new]. *)
Definition all_hits (new : list token) (k : token) : list token :=
  match k with
  | Gap c => [Gap c]
  | Hit _ _ => new
  end.

(** The text transformation of [update_file]: for each match, in order,
    replace its text by [replacement] throughout the text so far. *)
Definition rewrite_text (replacement content : str) : str :=
  fold_left (λ new_content m, str_replace (group m 0) replacement new_content)
    (finditer pattern content) content.

(** The replacement text for a relative path. *)
Definition require_call (rel : str) : str := txt "require('" ++ rel ++ txt "')".

(** The text of a token once [old] is replaced by [new]. *)
Definition subst_text (old new : str) (k : token) : str :=
  match k with
  | Gap c => [c]
  | Hit t _ => if decide (t = old) then new else t
  end.

(** A call: [require(], a quote, a body, a quote, [)]. *)
Definition call_text (q1 : ascii) (body : str) (q2 : ascii) : str :=
  txt "require(" ++ q1 :: body ++ [q2; ")"%char].

(** A text that begins like a call. *)
Definition call_start (s : str) : Prop :=
  ∃ q rest, q ∈ quotes ∧ s = txt "require(" ++ q :: rest.

(** A map on tokens that keeps the gaps and sends a match to tokens that
    begin like a call and may stand before any cut. *)
Definition hit_map (f : token → list token) : Prop :=
  (∀ c, f (Gap c) = [Gap c]) ∧
  (∀ t g, is_match t g →
     call_start (flatten (f (Hit t g))) ∧
     ∀ ks, tokenized ks → tokenized (f (Hit t g) ++ ks)).

(** Replace, in turn, the matches with each of the texts. *)
Fixpoint subst_all (texts : list str) (new : list token) (k : token) : list token :=
  match texts with
  | [] => [k]
  | t :: texts' => flat_map (subst_all texts' new) (subst_hit t new k)
  end.

(** The cut of a replacement text [R] that begins like a call: either [R]
    is a match, or no match starts inside [R], whatever follows it. *)
Definition settled (R : str) (new : list token) : Prop :=
  call_start R ∧
  ((∃ g, is_match R g ∧ new = [Hit R g]) ∨
   (new = map Gap R ∧
    ∀ w z rest, R = w ++ z → z ≠ [] → match_here pattern (z ++ rest) = None)).

(** ** Notions about runs *)

(** The lines [update_file] prints for the matches it replaces. *)
Definition update_reports (file_path replacement : str) (ms : list Match)
  : list event :=
  map (λ m, EvPrint (report_updated file_path (group m 0) replacement)) ms.

(** The world after some more events, with the same files. *)
Definition logged (w : world) (evs : list event) : world :=
  mkWorld (w_files w) (w_trace w ++ evs).

(** The world after [path] is overwritten. *)
Definition written (w : world) (path content : str) (f : file) : world :=
  mkWorld (<[path := mkFile content (after_write (f_read f)) true]> (w_files w))
    (w_trace w).

(** What a read that fails raises. *)
Definition read_error (path : str) (f : file) : exn :=
  match f_read f with
  | ReadUndecodable => UnicodeDecodeError path
  | _ => OSError path
  end.

(** An event that reads or writes [path]. *)
Definition touches (path : str) (e : event) : Prop :=
  match e with
  | EvRead p => p = path
  | EvWrite p _ => p = path
  | EvPrint _ => False
  end.

(** ** Worked examples *)

(** The example of the specification: [src/app/main.ts] under [/proj]. *)
Definition ex_main_ts : str := txt "src/app/main.ts".
Definition ex_main_ts_file : file :=
  mkFile (txt "x = require('../old/medicaid_rules_2025.json');") ReadOk true.
Definition ex_world : world := mkWorld {[ ex_main_ts := ex_main_ts_file ]} [].
Definition ex_match : Match :=
  mkMatch 4 (txt "require('../old/medicaid_rules_2025.json')")
    [[squote]; txt "../old/"; [squote]].

(** A call with a double quote in front and a single quote behind. *)
Definition ex_mixed_quotes : str :=
  txt "require(" ++ dquote :: txt "../medicaid_rules_2025.json')".

(** A target that lives in a directory whose name looks like a call. *)
Definition ex_odd_target : str := txt "/p/require('a/medicaid_rules_2025.json".
Definition ex_odd_file : str := txt "/p/x.js".
Definition ex_odd_world : world :=
  mkWorld {[ ex_odd_file := mkFile (txt "require('x/medicaid_rules_2025.json')") ReadOk true ]} [].

(** ** Notions about directory trees *)

(** A name of a directory entry: not empty and free of separators. *)
Definition plain_name (n : str) : bool :=
  negb (bool_decide (n = [])) && negb (bool_decide (sep ∈ n)).

(** A directory tree as a file system has it: in every directory the
    subdirectories have plain, distinct names. *)
Fixpoint wf_tree (t : tree) : bool :=
  match t with
  | Dir files subdirs =>
      bool_decide (NoDup (map fst subdirs))
      && forallb (λ d, plain_name (fst d) && wf_tree (snd d)) subdirs
  end.

(** Every file under [top], with the directory that holds it: the files of
    the directory itself, then those of each subdirectory in turn. *)
Fixpoint all_entries (t : tree) (top : str) : list (str * str) :=
  match t with
  | Dir files subdirs =>
      map (λ file, (top, file)) files
      ++ concat (map (λ d, all_entries (snd d) (posixpath.join top (fst d))) subdirs)
  end.

(** The names [scan_and_update_files] accepts. *)
Definition is_source (file : str) : bool :=
  endswith (txt ".js") file || endswith (txt ".ts") file.

(** The paths of the files with such a name, in the order of the walk. *)
Definition candidates (t : tree) (top : str) : list str :=
  map (λ e, posixpath.join (fst e) (snd e))
    (filter (λ e, is_source (snd e) = true) (all_entries t top)).

(** The events [update_file] can add for [path]. *)
Definition file_event (path : str) (e : event) : Prop :=
  e = EvRead path ∨ (∃ content, e = EvWrite path content) ∨
  (∃ old new, e = EvPrint (report_updated path old new)) ∨
  e = EvPrint (report_no_match path).

(** The target of the script's own run. *)
Definition full_json_path (cwd : str) : str :=
  posixpath.abspath cwd (posixpath.join project_root correct_path).

(** What [print_tree] is to write, by nesting level: the directory and its
    files when the level is below [max_depth], then its subdirectories one
    level down; nothing at or beyond [max_depth]. *)
Fixpoint render (max_depth level : nat) (name : str) (t : tree) : str :=
  match t with
  | Dir files subdirs =>
      if bool_decide (level < max_depth) then
        (repeat_str (txt "│   ") level ++ txt "├── " ++ name ++ [sep; newline])
        ++ concat (map (λ file, repeat_str (txt "│   ") (level + 1) ++ file ++ [newline])
                     files)
        ++ concat (map (λ d, render max_depth (S level) (fst d) (snd d)) subdirs)
      else []
  end.

(** A directory [d] with one subdirectory [a] that holds one file. *)
Definition ex_tree : tree := Dir [] [(txt "a", Dir [txt "f.txt"] [])].

(** A project with a source file whose content does not decode and a
    readable one. *)
Definition ex_project : tree := Dir [txt "a.js"; txt "b.js"; txt "notes.txt"] [].
Definition ex_project_world : world :=
  mkWorld {[ txt "./a.js" := mkFile [ascii_of_nat 255; ascii_of_nat 254] ReadUndecodable true;
             txt "./b.js" := mkFile (txt "require('medicaid_rules_2025.json')") ReadOk true ]}
    [].

(** ** Notions about the script's own run *)

(** A name as a directory listing gives it: plain, and not [.] or [..]. *)
Definition clean_name (n : str) : bool :=
  plain_name n && negb (bool_decide (n = posixpath.curdir))
  && negb (bool_decide (n = posixpath.pardir)).

(** A tree in which every file and every subdirectory has such a name. *)
Fixpoint clean_tree (t : tree) : bool :=
  match t with
  | Dir files subdirs =>
      forallb clean_name files
      && forallb (λ d, clean_name (fst d) && clean_tree (snd d)) subdirs
  end.

(** The path the walk builds for the directory reached from [top] through
    the names [dirs]. *)
Definition dir_path (top : str) (dirs : list str) : str :=
  top ++ concat (map (λ d, sep :: d) dirs).

(** The components of [correct_path]. *)
Definition correct_comps : list str :=
  [txt "src"; txt "data"; target_filename].

(** A character that is no quote, no backslash, no opening parenthesis and
    no carriage return. *)
Definition tame (x : ascii) : Prop :=
  (x ∉ quotes) ∧ x ≠ backslash ∧ x ≠ "("%char ∧ x ≠ cr.

(** A file on which [update_file] has nothing left to do: it is readable,
    and either holds no match, or is writable and its text as read is
    rewritten to the text it holds. *)
Definition stable (cwd correct_json_path : str) (w : world) (p : str) : Prop :=
  ∃ f rel, w_files w !! p = Some f ∧ f_readable f = true ∧
    calculate_relative_path cwd p correct_json_path = Some rel ∧
    (finditer pattern (f_content f) = [] ∨
     (f_writable f = true ∧
      rewrite_text (require_call rel) (universal_newlines (f_content f))
      = f_content f)).

(** [update_file] on [p] inserts a call that later runs leave alone. *)
Definition settles (cwd correct_json_path p : str) : Prop :=
  ∃ rel new,
    calculate_relative_path cwd p correct_json_path = Some rel ∧
    settled (require_call rel) new ∧ cr ∉ rel.

(** A project with one source file that holds a call with the old path. *)
Definition ex_rerun : tree := Dir [txt "b.js"] [(txt "lib", Dir [txt "c.ts"] [])].
Definition ex_rerun_world : world :=
  mkWorld {[ txt "./b.js" := mkFile (txt "x = require('old/medicaid_rules_2025.json');") ReadOk true;
             txt "./lib/c.ts" := mkFile (txt "y = require('medicaid_rules_2025.json')") ReadOk true ]}
    [].

(** ** Notions used in the further properties *)

(** The text [s], which begins at position [pos] of a larger text, with
    the matches [ms] replaced in place by [R]: what lies before a match is
    kept, the match is replaced, and the rest is treated in the same way. *)
Fixpoint splice (R : str) (pos : nat) (ms : list Match) (s : str) : str :=
  match ms with
  | [] => s
  | m :: ms' =>
      take (m_start m - pos) s ++ R
      ++ splice R (m_start m + length (m_text m)) ms'
           (drop (m_start m - pos + length (m_text m)) s)
  end.

(** A file [update_file] can handle: it is there and readable, and it is
    writable or holds no match. *)
Definition updatable (w : world) (p : str) : bool :=
  match w_files w !! p with
  | Some f =>
      f_readable f
      && (bool_decide (finditer pattern (f_content f) = []) || f_writable f)
  | None => false
  end.

(** What [save_structure] is to write: a directory at nesting level [level]
    is indented by four spaces per level, its files by one level more, and
    its subdirectories follow one level down. *)
Fixpoint listing (level : nat) (name : str) (t : tree) : str :=
  match t with
  | Dir files subdirs =>
      (repeat_str (txt "    ") level ++ name ++ [sep; newline])
      ++ concat (map (λ file, repeat_str (txt "    ") (level + 1) ++ file ++ [newline])
                   files)
      ++ concat (map (λ d, listing (S level) (fst d) (snd d)) subdirs)
  end.

(** A file with two calls, the second with unlike quotes. *)
Definition ex_two : str := txt "lib/two.js".
Definition ex_two_file : file :=
  mkFile (txt "a = require('x/medicaid_rules_2025.json'); b = require("
          ++ dquote :: txt "medicaid_rules_2025.json') + 1") ReadOk true.
Definition ex_two_world : world := mkWorld {[ ex_two := ex_two_file ]} [].
Definition ex_target : str := txt "/proj/src/data/medicaid_rules_2025.json".

(** A file with Windows line endings: a comment line, then the call. *)
Definition ex_crlf : str := txt "win.js".
Definition ex_crlf_file : file :=
  mkFile (txt "// data" ++ cr :: newline
          :: txt "x = require('old/medicaid_rules_2025.json');" ++ [cr; newline])
    ReadOk true.
Definition ex_crlf_world : world := mkWorld {[ ex_crlf := ex_crlf_file ]} [].
Definition ex_crlf_match : Match :=
  mkMatch 12 (txt "require('old/medicaid_rules_2025.json')")
    [[squote]; txt "old/"; [squote]].

(** The world the run of [update_file] on that file leaves. *)
Definition snd_world_of_crlf_run : world :=
  fst (update_file (txt "/proj") ex_crlf ex_target ex_crlf_world).

(** ** Notions about what a scan visits *)

(** A name that ends in [.js] or in [.ts]. *)
Definition source_name (file : str) : Prop :=
  ∃ stem, file = stem ++ txt ".js" ∨ file = stem ++ txt ".ts".

(** The paths read in the course of some events, in order. *)
Definition reads (evs : list event) : list str :=
  omap (λ e, match e with EvRead p => Some p | _ => None end) evs.

(** A project with source files at two levels and other files beside
    them; one of the other files holds a call too. *)
Definition ex_scan : tree :=
  Dir [txt "a.js"; txt "notes.txt"] [(txt "lib", Dir [txt "c.ts"; txt "d.json"] [])].
Definition ex_scan_world : world :=
  mkWorld {[ txt "./a.js" := mkFile (txt "require('medicaid_rules_2025.json')") ReadOk true;
             txt "./notes.txt" := mkFile (txt "require('medicaid_rules_2025.json')") ReadOk true;
             txt "./lib/c.ts" := mkFile (txt "let x = 1;") ReadOk true;
             txt "./lib/d.json" := mkFile (txt "{}") ReadOk true ]}
    [].

(** What [update_file] leaves in a file it can handle: the text of a file
    without a match is not touched; otherwise the text as read is rewritten
    and written back. *)
Definition updated_text (R content : str) : str :=
  if bool_decide (finditer pattern content = []) then content
  else rewrite_text R (universal_newlines content).

(** What [update_file] raises on a file it cannot handle. *)
Definition update_error (w : world) (p : str) : exn :=
  match w_files w !! p with
  | Some f => if f_readable f then OSError p else read_error p f
  | None => OSError p
  end.

(** A file that is up to date, with Windows line endings. *)
Definition ex_done_file : file :=
  mkFile (txt "x = require('src/data/medicaid_rules_2025.json');" ++ [cr; newline])
    ReadOk true.
Definition ex_done_world : world := mkWorld {[ ex_crlf := ex_done_file ]} [].

(** * Properties *)

(** ** Text *)

Lemma startswith_app (p t : str) : startswith p (p ++ t) = true.
Proof.
  induction p as [|a p IH]; simpl; [done|].
  by rewrite decide_True.
Qed.

Lemma startswith_inv (p s : str) :
  startswith p s = true → s = p ++ drop (length p) s.
Proof.
  revert s. induction p as [|a p IH]; intros [|b s]; simpl; try done.
  destruct (decide (a = b)) as [->|]; [|done].
  intros H. f_equal. by apply IH.
Qed.

Lemma startswith_true (p s : str) :
  startswith p s = true ↔ ∃ t, s = p ++ t.
Proof.
  split.
  - intros H. eexists. by apply startswith_inv.
  - intros [t ->]. apply startswith_app.
Qed.

Lemma replace_from_skip (old new : str) (n : nat) (s : str) :
  replace_from old new n s = replace_from old new 0 (drop n s).
Proof.
  revert n. induction s as [|c s IH]; intros [|n]; simpl; done.
Qed.

Lemma str_replace_nil (old new : str) : old ≠ [] → str_replace old new [] = [].
Proof. by destruct old. Qed.

(** At an occurrence of [old], [new] is emitted and the scan resumes after
    the occurrence. *)
Lemma str_replace_hit (old new t : str) :
  old ≠ [] → str_replace old new (old ++ t) = new ++ str_replace old new t.
Proof.
  destruct old as [|a old]; [done|]. intros _.
  unfold str_replace. cbn [app replace_from].
  change (a :: old ++ t) with ((a :: old) ++ t).
  rewrite startswith_app, replace_from_skip.
  replace (length (a :: old) - 1) with (length old) by (cbn; lia).
  by rewrite drop_app_length.
Qed.

(** Elsewhere the character is kept. *)
Lemma str_replace_miss (old new : str) (c : ascii) (t : str) :
  old ≠ [] → startswith old (c :: t) = false →
  str_replace old new (c :: t) = c :: str_replace old new t.
Proof.
  destruct old as [|a old]; [done|]. intros _ H.
  unfold str_replace. cbn [replace_from]. by rewrite H.
Qed.

(** A stretch of text in which [old] starts nowhere is copied. *)
Lemma str_replace_copy (old new m t : str) :
  old ≠ [] →
  (∀ u w, m = u ++ w → w ≠ [] → startswith old (w ++ t) = false) →
  str_replace old new (m ++ t) = m ++ str_replace old new t.
Proof.
  intros Hold. induction m as [|c m IH]; intros H; [done|].
  cbn [app]. rewrite str_replace_miss; [|done|by apply (H [] (c :: m))].
  f_equal. apply IH. intros u w -> Hw. by apply (H (c :: u) w).
Qed.

(** Replacing one character by another is a map over the text. *)
Lemma str_replace_char (a b : ascii) (s : str) :
  str_replace [a] [b] s = map (λ c, if decide (c = a) then b else c) s.
Proof.
  unfold str_replace. induction s as [|c s IH]; [done|].
  cbn [replace_from map startswith length Nat.sub].
  destruct (decide (a = c)) as [->|Hne].
  - rewrite decide_True by done. cbn. by rewrite IH.
  - rewrite decide_False by done. by rewrite IH.
Qed.

Lemma str_replace_char_absent (a b : ascii) (s : str) :
  a ∉ s → str_replace [a] [b] s = s.
Proof.
  rewrite str_replace_char. induction s as [|c s IH]; [done|].
  intros H. apply not_elem_of_cons in H as [H1 H2]. cbn.
  rewrite decide_False by done. by rewrite IH.
Qed.

Lemma endswith_app (p t : str) : endswith p (t ++ p) = true.
Proof. unfold endswith. rewrite rev_app_distr. apply startswith_app. Qed.

Lemma endswith_true (p s : str) : endswith p s = true ↔ ∃ t, s = t ++ p.
Proof.
  unfold endswith. rewrite startswith_true. split.
  - intros [t H]. exists (rev t).
    rewrite <- (rev_involutive s), H, rev_app_distr. by rewrite rev_involutive.
  - intros [t ->]. exists (rev t). by rewrite rev_app_distr.
Qed.

Lemma endswith_char (c : ascii) (s : str) :
  endswith [c] s = true ↔ last s = Some c.
Proof.
  rewrite endswith_true. split.
  - intros [t ->]. by rewrite last_snoc.
  - intros H. destruct s as [|x s _] using rev_ind; [done|].
    rewrite last_snoc in H. injection H as ->. by exists s.
Qed.

Lemma filter_Forall {A} (P : A → Prop) `{∀ x, Decision (P x)} (l : list A) :
  Forall P l → filter P l = l.
Proof.
  induction 1 as [|x l Hx Hl IH]; [done|].
  by rewrite filter_cons_True, IH.
Qed.

(** ** Splitting and joining on the separator *)

Lemma split_sep_not_nil (s : str) : split_sep s ≠ [].
Proof.
  destruct s as [|c s]; cbn; [done|].
  destruct (decide (c = sep)); [done|]. by destruct (split_sep s).
Qed.

Lemma split_sep_cons_sep (s : str) : split_sep (sep :: s) = [] :: split_sep s.
Proof. cbn. by rewrite decide_True. Qed.

Lemma split_sep_plain (c : str) : sep ∉ c → split_sep c = [c].
Proof.
  induction c as [|x c IH]; [done|].
  intros H. apply not_elem_of_cons in H as [H1 H2].
  cbn. rewrite decide_False by done. by rewrite IH.
Qed.

Lemma split_sep_app (a b : str) :
  split_sep (a ++ sep :: b) = split_sep a ++ split_sep b.
Proof.
  induction a as [|x a IH]; [apply split_sep_cons_sep|].
  cbn [app split_sep]. destruct (decide (x = sep)); rewrite IH; [done|].
  pose proof (split_sep_not_nil a). by destruct (split_sep a).
Qed.

Lemma split_sep_pieces (s : str) : Forall (λ c, sep ∉ c) (split_sep s).
Proof.
  induction s as [|x s IH]; cbn.
  - repeat constructor. by intros ?%elem_of_nil.
  - destruct (decide (x = sep)).
    + constructor; [by intros ?%elem_of_nil|done].
    + destruct (split_sep s) as [|p ps]; [repeat constructor; set_solver|].
      inversion IH; subst. constructor; [set_solver|done].
Qed.

Lemma split_sep_join (comps : list str) :
  comps ≠ [] → Forall (λ c, sep ∉ c) comps → split_sep (join_sep comps) = comps.
Proof.
  induction comps as [|c [|c' comps] IH]; [done| |]; intros _ H.
  - inversion H; subst. by apply split_sep_plain.
  - inversion H; subst. cbn [join_sep].
    rewrite split_sep_app, split_sep_plain by done.
    cbn [app]. f_equal. by apply IH.
Qed.

Lemma join_sep_cons (c : str) (comps : list str) :
  comps ≠ [] → join_sep (c :: comps) = c ++ sep :: join_sep comps.
Proof. by destruct comps. Qed.

Lemma join_sep_snoc (comps : list str) (c : str) :
  comps ≠ [] → join_sep (comps ++ [c]) = join_sep comps ++ sep :: c.
Proof.
  induction comps as [|x [|y comps] IH]; [done|done|]. intros _.
  change ((x :: y :: comps) ++ [c]) with (x :: (y :: comps) ++ [c]).
  rewrite join_sep_cons by done. rewrite IH by done.
  rewrite (join_sep_cons x (y :: comps)) by done.
  by rewrite <- app_assoc.
Qed.

Lemma elem_of_join_sep (x : ascii) (comps : list str) :
  x ∈ join_sep comps → x = sep ∨ ∃ c, c ∈ comps ∧ x ∈ c.
Proof.
  induction comps as [|c [|c' comps] IH]; cbn [join_sep].
  - by intros ?%elem_of_nil.
  - intros H. right. exists c. set_solver.
  - intros [H|H]%elem_of_app.
    + right. exists c. set_solver.
    + apply elem_of_cons in H as [->|H]; [by left|].
      destruct (IH H) as [->|(d & Hd & Hx)]; [by left|].
      right. exists d. set_solver.
Qed.

Lemma join_sep_elem_of (x : ascii) (c : str) (comps : list str) :
  c ∈ comps → x ∈ c → x ∈ join_sep comps.
Proof.
  induction comps as [|d [|d' comps] IH]; cbn [join_sep].
  - by intros ?%elem_of_nil.
  - intros ->%list_elem_of_singleton. done.
  - intros [->|H]%elem_of_cons Hx; apply elem_of_app; [by left|].
    right. apply elem_of_cons. right. by apply IH.
Qed.

(** ** [posixpath] *)

Section posixpath_facts.
Import posixpath.

Lemma norm_step_skip n acc comp :
  comp = [] ∨ comp = curdir → norm_step n acc comp = acc.
Proof. intros [-> | ->]; done. Qed.

Lemma norm_step_push n acc comp :
  clean_comp comp → norm_step n acc comp = acc ++ [comp].
Proof.
  intros (H1 & H2 & H3 & _). unfold norm_step.
  rewrite !bool_decide_eq_false_2 by done. done.
Qed.

Lemma clean_last_not_pardir acc : clean acc → last acc ≠ Some pardir.
Proof.
  intros H Hl. apply last_Some in Hl as [l' ->].
  apply Forall_app in H as [_ H]. inversion H as [|? ? (_ & _ & Hp & _)]; subst.
  done.
Qed.

Lemma norm_step_pop n acc :
  n ≠ 0 → clean acc → norm_step n acc pardir = removelast acc.
Proof.
  intros Hn Hacc. unfold norm_step.
  rewrite (bool_decide_eq_false_2 (pardir = [])) by done.
  rewrite (bool_decide_eq_false_2 (pardir = curdir)) by done.
  rewrite (bool_decide_eq_true_2 (pardir = pardir)) by done.
  rewrite (bool_decide_eq_false_2 (n = 0)) by done.
  rewrite (bool_decide_eq_false_2 (last acc = Some pardir))
    by by apply clean_last_not_pardir.
  cbn. by rewrite andb_false_r.
Qed.

Lemma clean_removelast acc : clean acc → clean (removelast acc).
Proof.
  destruct acc as [|x acc _] using rev_ind; [done|].
  rewrite removelast_last. by intros [H _]%Forall_app.
Qed.

Lemma norm_step_clean n acc comp :
  n ≠ 0 → clean acc → sep ∉ comp → clean (norm_step n acc comp).
Proof.
  intros Hn Hacc Hc.
  destruct (decide (comp = [])) as [->|H1]; [by rewrite norm_step_skip by auto|].
  destruct (decide (comp = curdir)) as [->|H2]; [by rewrite norm_step_skip by auto|].
  destruct (decide (comp = pardir)) as [->|H3].
  - rewrite norm_step_pop by done. by apply clean_removelast.
  - rewrite norm_step_push by done. apply Forall_app. split; [done|].
    by repeat constructor.
Qed.

Lemma fold_norm_clean n cs acc :
  n ≠ 0 → clean acc → Forall (λ c, sep ∉ c) cs →
  clean (fold_left (norm_step n) cs acc).
Proof.
  intros Hn. revert acc. induction cs as [|c cs IH]; intros acc Hacc H; [done|].
  inversion H; subst. cbn. apply IH; [|done]. by apply norm_step_clean.
Qed.

Lemma fold_norm_push n comps acc :
  clean comps → fold_left (norm_step n) comps acc = acc ++ comps.
Proof.
  revert acc. induction comps as [|c comps IH]; intros acc H.
  - by rewrite app_nil_r.
  - inversion H; subst. cbn. rewrite norm_step_push by done.
    rewrite IH by done. by rewrite <- app_assoc.
Qed.

Lemma removelast_take {A} (l : list A) : removelast l = take (length l - 1) l.
Proof.
  destruct l as [|x l _] using rev_ind; [done|].
  rewrite removelast_last, length_app. cbn.
  replace (length l + 1 - 1) with (length l) by lia.
  by rewrite take_app_length.
Qed.

Lemma fold_norm_pop n k acc :
  n ≠ 0 → clean acc →
  fold_left (norm_step n) (replicate k pardir) acc = take (length acc - k) acc.
Proof.
  intros Hn. revert acc. induction k as [|k IH]; intros acc Hacc.
  - cbn. by rewrite Nat.sub_0_r, firstn_all.
  - cbn. rewrite norm_step_pop by done.
    rewrite IH by by apply clean_removelast.
    rewrite removelast_take, take_take, length_take. f_equal. lia.
Qed.

Lemma fold_norm_slashes n k s acc :
  fold_left (norm_step n) (split_sep (replicate k sep ++ s)) acc
  = fold_left (norm_step n) (split_sep s) acc.
Proof.
  induction k as [|k IH]; [done|].
  cbn [replicate app]. by rewrite split_sep_cons_sep.
Qed.

Lemma fold_norm_join n comps acc :
  clean comps →
  fold_left (norm_step n) (split_sep (join_sep comps)) acc = acc ++ comps.
Proof.
  intros H. destruct comps as [|c comps]; [by rewrite app_nil_r|].
  rewrite split_sep_join; [by apply fold_norm_push|done|].
  eapply Forall_impl; [exact H|]. by intros ? (_ & _ & _ & ?).
Qed.

(** *** The shape of an absolute, normalised path: one or two slashes,
    then clean components joined by the separator. *)

Lemma join_sep_clean_head comps :
  clean comps → startswith [sep] (join_sep comps) = false.
Proof.
  destruct comps as [|c comps]; [done|]. intros H.
  inversion H as [|? ? (Hc & _ & _ & Hs)]; subst.
  destruct c as [|x c]; [done|].
  assert (x ≠ sep) by set_solver.
  destruct comps; cbn; by rewrite decide_False.
Qed.

Lemma initial_slashes_shaped n comps :
  n = 1 ∨ n = 2 → clean comps → initial_slashes (shaped n comps) = n.
Proof.
  intros Hn H. apply join_sep_clean_head in H.
  unfold initial_slashes, shaped.
  destruct Hn as [-> | ->]; cbn [replicate app];
    destruct (join_sep comps) as [|x t]; try done;
    cbn in H |- *; destruct (decide (sep = x)); done.
Qed.

Lemma shaped_not_nil n comps : n ≠ 0 → shaped n comps ≠ [].
Proof. by destruct n. Qed.

Lemma shaped_isabs n comps : n ≠ 0 → isabs (shaped n comps) = true.
Proof. by destruct n. Qed.

Lemma initial_slashes_abs path :
  isabs path = true → initial_slashes path = 1 ∨ initial_slashes path = 2.
Proof.
  unfold initial_slashes, isabs. intros ->. destruct (_ && _); auto.
Qed.

Lemma normpath_unfold (path : str) :
  isabs path = true →
  normpath path
  = shaped (initial_slashes path)
      (fold_left (norm_step (initial_slashes path)) (split_sep path) []).
Proof.
  intros Habs. unfold normpath.
  rewrite bool_decide_eq_false_2 by by destruct path.
  cbn zeta. rewrite bool_decide_eq_false_2; [done|].
  apply shaped_not_nil. destruct (initial_slashes_abs path Habs); lia.
Qed.

(** Normalising an absolute path gives a shaped path. *)
Lemma normpath_abs (path : str) :
  isabs path = true →
  ∃ n comps, (n = 1 ∨ n = 2) ∧ clean comps ∧ normpath path = shaped n comps.
Proof.
  intros Habs. rewrite normpath_unfold by done.
  pose proof (initial_slashes_abs path Habs) as Hn.
  eexists _, _. split; [exact Hn|]. split; [|done].
  apply fold_norm_clean; [lia|constructor|apply split_sep_pieces].
Qed.

(** A shaped path is already normal. *)
Lemma normpath_shaped n comps :
  n = 1 ∨ n = 2 → clean comps → normpath (shaped n comps) = shaped n comps.
Proof.
  intros Hn H. rewrite normpath_unfold by (apply shaped_isabs; lia).
  rewrite initial_slashes_shaped by done.
  unfold shaped at 2. by rewrite fold_norm_slashes, fold_norm_join.
Qed.

Lemma join_abs (cwd path : str) :
  isabs cwd = true → isabs (if isabs path then path else join cwd path) = true.
Proof.
  intros Hc. destruct (isabs path) eqn:Hp; [done|].
  unfold join. unfold isabs in Hp. rewrite Hp.
  destruct cwd as [|x cwd]; [done|].
  by destruct (_ || _).
Qed.

Lemma abspath_shaped (cwd path : str) :
  isabs cwd = true →
  ∃ n comps, (n = 1 ∨ n = 2) ∧ clean comps ∧ abspath cwd path = shaped n comps.
Proof. intros Hc. apply normpath_abs. by apply join_abs. Qed.

Lemma abspath_of_shaped cwd n comps :
  n = 1 ∨ n = 2 → clean comps → abspath cwd (shaped n comps) = shaped n comps.
Proof.
  intros Hn H. unfold abspath.
  rewrite shaped_isabs by lia. by apply normpath_shaped.
Qed.

Lemma split_sep_slashes k s :
  split_sep (replicate k sep ++ s) = replicate k [] ++ split_sep s.
Proof.
  induction k as [|k IH]; [done|].
  cbn [replicate app]. by rewrite split_sep_cons_sep, IH.
Qed.

Lemma parts_shaped n comps : clean comps → parts (shaped n comps) = comps.
Proof.
  intros H. unfold parts, shaped. rewrite split_sep_slashes, filter_app.
  assert (filter (λ x : str, x ≠ []) (replicate n []) = []) as ->.
  { induction n as [|n IH]; [done|]. cbn [replicate].
    rewrite filter_cons_False; [done|]. by intros ?. }
  cbn [app]. destruct comps as [|c comps]; [done|].
  rewrite split_sep_join; [|done|].
  - apply filter_Forall. eapply Forall_impl; [exact H|]. by intros ? [? _].
  - eapply Forall_impl; [exact H|]. by intros ? (_ & _ & _ & ?).
Qed.

(** *** [dirname] of a shaped path drops the last component. *)

Lemma head_of_plain c : sep ∉ c → head_of c = [].
Proof. destruct c; [done|]. intros H. cbn. by rewrite bool_decide_eq_false_2. Qed.

Lemma head_of_last_sep a c : sep ∉ c → head_of (a ++ sep :: c) = a ++ [sep].
Proof.
  intros H. induction a as [|x a IH].
  - cbn. rewrite bool_decide_eq_true_2 by set_solver. by rewrite head_of_plain.
  - cbn [app head_of]. rewrite bool_decide_eq_true_2 by set_solver. by rewrite IH.
Qed.

Lemma head_of_slashes n : head_of (replicate n sep) = replicate n sep.
Proof.
  induction n as [|n IH]; [done|].
  cbn [replicate head_of]. rewrite bool_decide_eq_true_2 by set_solver.
  by rewrite IH.
Qed.

Lemma rstrip_sep_snoc_sep s : rstrip_sep (s ++ [sep]) = rstrip_sep s.
Proof.
  induction s as [|x s IH]; [cbn; by rewrite decide_True|].
  cbn [app rstrip_sep]. by rewrite IH.
Qed.

Lemma rstrip_sep_snoc s x : x ≠ sep → rstrip_sep (s ++ [x]) = s ++ [x].
Proof.
  intros Hx. induction s as [|y s IH]; [cbn; by rewrite decide_False|].
  cbn [app rstrip_sep]. rewrite IH. by destruct (s ++ [x]) eqn:E; [destruct s|].
Qed.

Lemma join_sep_clean_last comps :
  clean comps → comps ≠ [] → ∃ s x, join_sep comps = s ++ [x] ∧ x ≠ sep.
Proof.
  destruct comps as [|d comps _] using rev_ind; [done|]. intros H _.
  apply Forall_app in H as [_ H].
  inversion H as [|? ? (Hd & _ & _ & Hs)]; subst.
  destruct d as [|x d _] using rev_ind; [done|].
  assert (x ≠ sep) by set_solver.
  destruct comps as [|c comps].
  - by exists d, x.
  - rewrite join_sep_snoc by done. exists (join_sep (c :: comps) ++ sep :: d), x.
    split; [|done]. by rewrite <- app_assoc.
Qed.

Lemma replicate_sep_snoc n : replicate n sep ++ [sep] = replicate (S n) sep.
Proof. induction n as [|n IH]; [done|]. cbn. by rewrite IH. Qed.

Lemma dirname_slashes n : n ≠ 0 → dirname (replicate n sep) = replicate n sep.
Proof.
  intros Hn. unfold dirname. rewrite head_of_slashes, length_replicate.
  rewrite (bool_decide_eq_true_2 (replicate n sep = replicate n sep)) by done.
  by rewrite andb_false_r.
Qed.

Lemma dirname_shaped n comps :
  n ≠ 0 → clean comps → dirname (shaped n comps) = shaped n (removelast comps).
Proof.
  intros Hn H. unfold shaped.
  destruct comps as [|c comps _] using rev_ind.
  { cbn [join_sep removelast]. rewrite !app_nil_r. by apply dirname_slashes. }
  rewrite removelast_last.
  apply Forall_app in H as [Hcomps Hc].
  inversion Hc as [|? ? (_ & _ & _ & Hs)]; subst.
  destruct comps as [|c0 comps].
  - cbn [app join_sep]. rewrite app_nil_r.
    destruct n as [|n]; [done|].
    rewrite <- replicate_sep_snoc, <- app_assoc. cbn [app].
    unfold dirname. rewrite head_of_last_sep by done.
    rewrite replicate_sep_snoc, length_replicate.
    rewrite (bool_decide_eq_true_2 (_ = replicate (S n) sep)) by done.
    by rewrite andb_false_r.
  - rewrite join_sep_snoc by done.
    unfold dirname. rewrite app_assoc, head_of_last_sep by done.
    destruct (join_sep_clean_last (c0 :: comps)) as (s & x & Hj & Hx); [done..|].
    rewrite Hj, !app_assoc. set (hd := ((replicate n sep ++ s) ++ [x]) ++ [sep]).
    assert (hd ≠ replicate (length hd) sep) as Hnot.
    { intros E. assert (x ∈ hd) as Hin by (subst hd; set_solver).
      rewrite E in Hin. apply elem_of_replicate in Hin as [? _]. done. }
    rewrite (bool_decide_eq_false_2 (hd = [])) by (subst hd; by destruct n).
    rewrite (bool_decide_eq_false_2 _ Hnot). cbn [negb andb].
    subst hd. rewrite rstrip_sep_snoc_sep.
    by rewrite rstrip_sep_snoc.
Qed.

(** *** [relpath] *)

Lemma commonprefix_len_le a b :
  commonprefix_len a b ≤ length a ∧ commonprefix_len a b ≤ length b.
Proof.
  revert b. induction a as [|x a IH]; intros [|y b]; cbn; try lia.
  destruct (decide (x = y)); cbn; [|lia]. specialize (IH b). lia.
Qed.

Lemma commonprefix_take a b :
  take (commonprefix_len a b) a = take (commonprefix_len a b) b.
Proof.
  revert b. induction a as [|x a IH]; intros [|y b]; cbn; try done.
  destruct (decide (x = y)) as [->|]; cbn; [|done]. by rewrite IH.
Qed.

Lemma join_plain a b :
  a ≠ [] → last a ≠ Some sep → b ≠ [] → sep ∉ b → join a b = a ++ sep :: b.
Proof.
  intros Ha Hl Hb Hs. unfold join.
  destruct b as [|x b]; [done|]. assert (x ≠ sep) by set_solver.
  cbn [startswith]. rewrite decide_False by done.
  rewrite bool_decide_eq_false_2 by done.
  destruct (endswith [sep] a) eqn:E; [|done].
  by apply endswith_char in E.
Qed.

Lemma join_all_plain a p :
  a ≠ [] → last a ≠ Some sep → Forall (λ c, c ≠ [] ∧ sep ∉ c) p →
  join_all a p = join_sep (a :: p).
Proof.
  unfold join_all. revert a. induction p as [|b p IH]; intros a Ha Hl H; [done|].
  inversion H as [|? ? [Hb Hs] Hp]; subst. cbn [fold_left].
  rewrite join_plain by done.
  destruct b as [|x b _] using rev_ind; [done|].
  rewrite IH; [|by destruct a| |done].
  - destruct p; [done|]. cbn [join_sep]. by rewrite <- app_assoc.
  - rewrite app_comm_cons, app_assoc, last_snoc. set_solver.
Qed.

Lemma pardir_plain : pardir ≠ [] ∧ sep ∉ pardir.
Proof. split; [done|]. unfold pardir, sep. cbn. set_solver. Qed.

Lemma rel_list_plain start target :
  clean target → Forall (λ c, c ≠ [] ∧ sep ∉ c) (rel_list start target).
Proof.
  intros H. unfold rel_list. apply Forall_app. split.
  - apply Forall_replicate, pardir_plain.
  - apply Forall_drop. eapply Forall_impl; [exact H|].
    by intros ? (? & _ & _ & ?).
Qed.

Lemma last_plain c : c ≠ [] → sep ∉ c → last c ≠ Some sep.
Proof.
  destruct c as [|x c _] using rev_ind; [done|]. intros _ H.
  rewrite last_snoc. set_solver.
Qed.

Lemma normpath_not_nil path : normpath path ≠ [].
Proof.
  unfold normpath. destruct (bool_decide (path = [])); [done|].
  cbn zeta. by case_bool_decide.
Qed.

Lemma relpath_shaped cwd n m start target :
  (n = 1 ∨ n = 2) → (m = 1 ∨ m = 2) → clean start → clean target →
  relpath cwd (shaped m target) (shaped n start) = Some (rel_text start target).
Proof.
  intros Hn Hm Hs Ht. unfold relpath.
  rewrite bool_decide_eq_false_2 by (apply shaped_not_nil; lia).
  rewrite !abspath_of_shaped, !parts_shaped by done.
  cbn zeta. unfold rel_text.
  fold (rel_list start target).
  pose proof (rel_list_plain start target Ht) as Hp.
  destruct (rel_list start target) as [|a p]; [done|].
  inversion Hp as [|? ? [Ha Hsa] Hp']; subst.
  rewrite join_all_plain; [done..| |done]. by apply last_plain.
Qed.

Lemma calculate_relative_path_total cwd from_file to_file :
  ∃ rel, calculate_relative_path cwd from_file to_file = Some rel.
Proof.
  unfold calculate_relative_path, relpath.
  rewrite bool_decide_eq_false_2 by apply normpath_not_nil.
  cbn zeta. destruct (_ ++ _); cbn; eauto.
Qed.

Lemma calculate_relative_path_comps cwd from_file to_file n m from_comps to_comps :
  (n = 1 ∨ n = 2) → (m = 1 ∨ m = 2) → clean from_comps → clean to_comps →
  abspath cwd from_file = shaped n from_comps →
  abspath cwd to_file = shaped m to_comps →
  calculate_relative_path cwd from_file to_file
  = Some (str_replace [backslash] [sep]
            (rel_text (removelast from_comps) to_comps)).
Proof.
  intros Hn Hm Hfc Htc Ef Et.
  unfold calculate_relative_path. rewrite Ef, Et.
  rewrite dirname_shaped by (done || lia).
  rewrite relpath_shaped; [done..| |done]. by apply clean_removelast.
Qed.

Lemma calculate_relative_path_shaped cwd from_file to_file :
  isabs cwd = true →
  ∃ n m from_comps to_comps,
    (n = 1 ∨ n = 2) ∧ (m = 1 ∨ m = 2) ∧ clean from_comps ∧ clean to_comps ∧
    abspath cwd from_file = shaped n from_comps ∧
    abspath cwd to_file = shaped m to_comps ∧
    calculate_relative_path cwd from_file to_file
    = Some (str_replace [backslash] [sep]
              (rel_text (removelast from_comps) to_comps)).
Proof.
  intros Hc.
  destruct (abspath_shaped cwd from_file Hc) as (n & fc & Hn & Hfc & Ef).
  destruct (abspath_shaped cwd to_file Hc) as (m & tc & Hm & Htc & Et).
  exists n, m, fc, tc. repeat (split; [done|]).
  by apply (calculate_relative_path_comps _ _ _ n m).
Qed.

(** *** Resolving the relative path *)

Lemma initial_slashes_prefix n rest :
  n = 1 ∨ n = 2 → startswith [sep] rest = false →
  initial_slashes (replicate n sep ++ rest) = n.
Proof.
  intros Hn H. unfold initial_slashes.
  destruct Hn as [-> | ->]; cbn [replicate app];
    destruct rest as [|x t]; try done;
    cbn in H |- *; destruct (decide (sep = x)); done.
Qed.

Lemma join_sep_plain_head comps :
  Forall (λ c, c ≠ [] ∧ sep ∉ c) comps → startswith [sep] (join_sep comps) = false.
Proof.
  destruct comps as [|c comps]; [done|]. intros H.
  inversion H as [|? ? [Hc Hs]]; subst.
  destruct c as [|x c]; [done|].
  assert (x ≠ sep) by set_solver.
  destruct comps; cbn; by rewrite decide_False.
Qed.

Lemma rel_text_head start target :
  clean target → startswith [sep] (rel_text start target) = false.
Proof.
  intros H. unfold rel_text.
  pose proof (rel_list_plain start target H) as Hp.
  destruct (rel_list start target); [done|]. by apply join_sep_plain_head.
Qed.

Lemma last_replicate_sep n : n ≠ 0 → last (replicate n sep) = Some sep.
Proof.
  destruct n as [|n]; [done|]. intros _.
  by rewrite <- replicate_sep_snoc, last_snoc.
Qed.

Lemma join_shaped n start rel :
  n ≠ 0 → clean start → startswith [sep] rel = false →
  join (shaped n start) rel
  = match start with
    | [] => replicate n sep ++ rel
    | _ => shaped n start ++ sep :: rel
    end.
Proof.
  intros Hn Hs Hr. unfold join. rewrite Hr.
  rewrite bool_decide_eq_false_2 by by apply shaped_not_nil.
  cbn [orb]. destruct start as [|c start].
  - unfold shaped. cbn [join_sep]. rewrite app_nil_r.
    destruct (endswith [sep] (replicate n sep)) eqn:E; [done|].
    assert (endswith [sep] (replicate n sep) = true); [|congruence].
    apply endswith_char. by apply last_replicate_sep.
  - destruct (endswith [sep] (shaped n (c :: start))) eqn:E; [|done].
    apply endswith_char in E.
    destruct (join_sep_clean_last (c :: start)) as (t & x & Hj & Hx); [done..|].
    unfold shaped in E. rewrite Hj, app_assoc, last_snoc in E. congruence.
Qed.

Lemma fold_norm_rel n start target :
  n ≠ 0 → clean start → clean target →
  fold_left (norm_step n) (split_sep (rel_text start target)) start = target.
Proof.
  intros Hn Hs Ht. unfold rel_text.
  pose proof (rel_list_plain start target Ht) as Hp.
  pose proof (commonprefix_len_le start target) as [Hi1 Hi2].
  pose proof (commonprefix_take start target) as Htake.
  destruct (rel_list start target) as [|a p] eqn:E.
  - cbn. unfold rel_list in E. apply app_eq_nil in E as [E1 E2].
    assert (length start - commonprefix_len start target = 0) as Hk
      by by destruct (length start - _).
    assert (length (drop (commonprefix_len start target) target) = 0) as Hd
      by by rewrite E2.
    rewrite length_drop in Hd.
    rewrite take_ge in Htake by lia. rewrite take_ge in Htake by lia. done.
  - rewrite split_sep_join; [|done|].
    2:{ eapply Forall_impl; [exact Hp|]. by intros ? [_ ?]. }
    rewrite <- E. unfold rel_list. rewrite fold_left_app, fold_norm_pop by done.
    rewrite fold_norm_push by by apply Forall_drop.
    replace (length start - (length start - commonprefix_len start target))
      with (commonprefix_len start target) by lia.
    by rewrite Htake, take_drop.
Qed.

Lemma normpath_join_shaped n start rel :
  n = 1 ∨ n = 2 → clean start → startswith [sep] rel = false →
  normpath (join (shaped n start) rel)
  = shaped n (fold_left (norm_step n) (split_sep rel) start).
Proof.
  intros Hn Hs Hr.
  rewrite join_shaped by (done || lia).
  destruct start as [|c start].
  - rewrite normpath_unfold by (destruct Hn as [-> | ->]; done).
    rewrite initial_slashes_prefix by done.
    by rewrite fold_norm_slashes.
  - rewrite normpath_unfold by (destruct Hn as [-> | ->]; done).
    assert (initial_slashes (shaped n (c :: start) ++ sep :: rel) = n) as ->.
    { unfold shaped. rewrite <- app_assoc. apply initial_slashes_prefix; [done|].
      pose proof (join_sep_clean_head _ Hs) as Hh.
      destruct (join_sep_clean_last (c :: start)) as (t & x & Hj & Hx); [done..|].
      rewrite Hj in Hh |- *. destruct t; exact Hh. }
    rewrite split_sep_app, fold_left_app.
    unfold shaped at 2. by rewrite fold_norm_slashes, fold_norm_join.
Qed.

Lemma resolve_shaped n start target :
  n = 1 ∨ n = 2 → clean start → clean target →
  normpath (join (shaped n start) (rel_text start target)) = shaped n target.
Proof.
  intros Hn Hs Ht.
  rewrite normpath_join_shaped by (done || by apply rel_text_head).
  by rewrite fold_norm_rel by (done || lia).
Qed.

Lemma elem_of_rel_text x start target :
  x ∈ rel_text start target →
  x = sep ∨ x = "."%char ∨ ∃ c, c ∈ target ∧ x ∈ c.
Proof.
  unfold rel_text. destruct (rel_list start target) as [|a p] eqn:E.
  - intros H. right. left. unfold curdir in H. cbn in H. set_solver.
  - rewrite <- E. intros [->|(c & Hc & Hx)]%elem_of_join_sep; [by left|].
    right. unfold rel_list in Hc. apply elem_of_app in Hc as [Hc|Hc].
    + apply elem_of_replicate in Hc as [-> _]. left.
      unfold pardir in Hx. cbn in Hx. set_solver.
    + right. exists c. split; [|done]. by eapply subseteq_drop.
Qed.
End posixpath_facts.

(** ** [calculate_relative_path] *)

(** C6.  Whatever the two paths, [calculate_relative_path] returns a path, and
    the path holds no backslash: the final [replace] turns every one into a
    forward slash. *)
Theorem calculate_relative_path_no_backslash (cwd from_file to_file : str) :
  ∃ rel, calculate_relative_path cwd from_file to_file = Some rel ∧ backslash ∉ rel.
Proof.
  destruct (calculate_relative_path_total cwd from_file to_file) as [rel Hrel].
  exists rel. split; [done|].
  unfold calculate_relative_path in Hrel.
  destruct (posixpath.relpath _ _ _) as [r|]; [|done].
  cbn [mbind option_bind] in Hrel. injection Hrel as <-.
  change (backslash ∉ str_replace [backslash] [sep] r).
  rewrite str_replace_char. intros (c & Hc & _)%list_elem_of_In%in_map_iff.
  destruct (decide (c = backslash)); [done|]. by subst c.
Qed.

(** C2, as amended.  When the working directory is absolute and the absolute
    form of [to_file] holds no backslash, resolving the returned path against
    the directory of [from_file] gives a path with the components of
    [to_file]; the two absolute paths are equal when [from_file] and [to_file]
    begin with as many slashes. *)
Theorem calculate_relative_path_roundtrip (cwd from_file to_file : str) :
  posixpath.isabs cwd = true →
  backslash ∉ posixpath.abspath cwd to_file →
  ∃ rel, calculate_relative_path cwd from_file to_file = Some rel ∧
         lex_equiv cwd (resolve cwd from_file rel) to_file ∧
         (posixpath.initial_slashes (posixpath.abspath cwd from_file)
          = posixpath.initial_slashes (posixpath.abspath cwd to_file) →
          posixpath.abspath cwd (resolve cwd from_file rel)
          = posixpath.abspath cwd to_file).
Proof.
  intros Hc Hb.
  destruct (calculate_relative_path_shaped cwd from_file to_file Hc)
    as (n & m & fc & tc & Hn & Hm & Hfc & Htc & Ef & Et & Hcalc).
  rewrite str_replace_char_absent in Hcalc.
  2:{ intros [E|[E|(c & Hc1 & Hc2)]]%elem_of_rel_text; [done|done|].
      apply Hb. rewrite Et. unfold shaped. apply elem_of_app. right.
      by eapply join_sep_elem_of. }
  eexists. split; [exact Hcalc|].
  unfold lex_equiv, resolve. rewrite Ef, Et.
  rewrite dirname_shaped by (done || lia).
  assert (clean (removelast fc)) as Hd by by apply clean_removelast.
  pose proof (rel_text_head (removelast fc) tc Htc) as Hr.
  unfold posixpath.abspath.
  assert (posixpath.isabs
            (posixpath.join (shaped n (removelast fc)) (rel_text (removelast fc) tc))
          = true) as ->.
  { rewrite join_shaped by (done || lia).
    destruct (removelast fc); destruct Hn as [-> | ->]; done. }
  rewrite resolve_shaped by done. split.
  - by rewrite !parts_shaped.
  - rewrite !initial_slashes_shaped by done. by intros ->.
Qed.

Lemma calculate_relative_path_roundtrip_witness :
  ∃ rel,
    calculate_relative_path (txt "/proj") (txt "src/app/main.ts")
      (txt "src/data/medicaid_rules_2025.json") = Some rel ∧
    lex_equiv (txt "/proj") (resolve (txt "/proj") (txt "src/app/main.ts") rel)
      (txt "src/data/medicaid_rules_2025.json") ∧
    (posixpath.initial_slashes (posixpath.abspath (txt "/proj") (txt "src/app/main.ts"))
     = posixpath.initial_slashes
         (posixpath.abspath (txt "/proj") (txt "src/data/medicaid_rules_2025.json")) →
     posixpath.abspath (txt "/proj") (resolve (txt "/proj") (txt "src/app/main.ts") rel)
     = posixpath.abspath (txt "/proj") (txt "src/data/medicaid_rules_2025.json")).
Proof.
  apply (calculate_relative_path_roundtrip (txt "/proj") (txt "src/app/main.ts")
           (txt "src/data/medicaid_rules_2025.json")).
  - reflexivity.
  - apply (bool_decide_unpack _). vm_compute. exact I.
Defined.

(** C2 as stated fails on a POSIX host, where a backslash is an ordinary
    character of a file name: the returned path names another file. *)
Lemma calculate_relative_path_roundtrip_fails :
  calculate_relative_path (txt "/") (txt "/x/f.js") (txt "/a\b.json")
  = Some (txt "../a/b.json") ∧
  ¬ lex_equiv (txt "/") (resolve (txt "/") (txt "/x/f.js") (txt "../a/b.json"))
      (txt "/a\b.json").
Proof.
  split; [by vm_compute|].
  unfold lex_equiv. vm_compute. discriminate.
Qed.

(** ** The matcher *)

Section matcher.
Context {R : Type}.
Implicit Types (k : str → list str → option R) (s : str) (g : list str).

Lemma bt_Lit w s g k :
  bt (Lit w) s g k = if startswith w s then k (drop (length w) s) g else None.
Proof.
  revert s. induction w as [|a w IH]; intros s; [done|].
  destruct s as [|x s]; [done|]. cbn [Lit bt startswith].
  destruct (decide (x = a)) as [->|].
  - rewrite decide_True by done. apply IH.
  - by rewrite decide_False.
Qed.

Lemma lazy_loop_unfold negated cs (k : str → option R) s :
  lazy_loop negated cs k s
  = match k s with
    | Some r => Some r
    | None =>
        match s with
        | x :: s' => if in_class negated cs x then lazy_loop negated cs k s' else None
        | [] => None
        end
    end.
Proof. by destruct s. Qed.

(** The lazy star stops at the first position where the rest of the pattern
    succeeds. *)
Lemma lazy_loop_Some negated cs (k : str → option R) s r :
  lazy_loop negated cs k s = Some r ↔
  ∃ X s', s = X ++ s' ∧ Forall (λ c, in_class negated cs c = true) X ∧
          k s' = Some r ∧
          ∀ X1 X2, X = X1 ++ X2 → X2 ≠ [] → k (X2 ++ s') = None.
Proof.
  split.
  - revert r. induction s as [|x s IH]; intros r; rewrite lazy_loop_unfold.
    + destruct (k []) as [r'|] eqn:Hk; [|done]. intros [= ->].
      exists [], []. split_and!; [done|constructor|done|].
      intros X1 X2 E. symmetry in E. by apply app_eq_nil in E as [_ ->].
    + destruct (k (x :: s)) as [r'|] eqn:Hk.
      * intros [= ->]. exists [], (x :: s). split_and!; [done|constructor|done|].
        intros X1 X2 E. symmetry in E. by apply app_eq_nil in E as [_ ->].
      * destruct (in_class negated cs x) eqn:Hx; [|done].
        intros (X & s' & -> & HX & Hs' & Hmin)%IH.
        exists (x :: X), s'. split_and!; [done|by constructor|done|].
        intros [|y X1] X2 E HX2.
        -- cbn in E. by subst X2.
        -- injection E as -> ->. by apply (Hmin X1 X2).
  - intros (X & s' & -> & HX & Hs' & Hmin).
    induction X as [|x X IH]; rewrite lazy_loop_unfold.
    + cbn. by rewrite Hs'.
    + pose proof (Hmin [] (x :: X) eq_refl ltac:(done)) as Hn.
      cbn [app] in Hn |- *. rewrite Hn.
      inversion HX as [|? ? Hx HX']; subst. rewrite Hx.
      apply IH; [done|]. intros X1 X2 -> HX2. by apply (Hmin (x :: X1) X2).
Qed.
End matcher.

Lemma take_app_sub {A} (X s : list A) :
  take (length (X ++ s) - length s) (X ++ s) = X.
Proof.
  rewrite length_app. replace (length X + length s - length s) with (length X) by lia.
  by rewrite take_app_length.
Qed.

Lemma in_class_pos cs x : in_class false cs x = true ↔ x ∈ cs.
Proof. unfold in_class. cbn. by rewrite bool_decide_eq_true. Qed.

Lemma in_class_neg cs x : in_class true cs x = true ↔ x ∉ cs.
Proof. unfold in_class. by case_bool_decide; cbn. Qed.

(** The text up to the first quote is determined. *)
Lemma first_quote_unique (A A' : str) (q q' : ascii) (B B' : str) :
  quote_free A → quote_free A' → q ∈ quotes → q' ∈ quotes →
  A ++ q :: B = A' ++ q' :: B' → A = A' ∧ q = q' ∧ B = B'.
Proof.
  intros HA. revert A'. induction HA as [|a A Ha HA IH]; intros A' HA' Hq Hq' E.
  - destruct A' as [|a' A']; [by injection E as -> ->|].
    injection E as -> _. by inversion HA'.
  - destruct A' as [|a' A'].
    + injection E as -> _. done.
    + injection E as -> E. inversion HA'; subst.
      destruct (IH A') as (-> & -> & ->); done.
Qed.

Lemma target_quote_free : quote_free target_filename.
Proof. apply (bool_decide_unpack _). by vm_compute. Qed.

Lemma keyword_quote_free : quote_free (txt "require(").
Proof. apply (bool_decide_unpack _). by vm_compute. Qed.

Lemma quote_free_app (a b : str) : quote_free a → quote_free b → quote_free (a ++ b).
Proof. intros. by apply Forall_app. Qed.

(** The tail of the pattern matches exactly the target name, a quote and a
    closing parenthesis. *)
Lemma pattern_tail_Some {R} (s : str) (g : list str)
    (k : str → list str → option R) (r : R) :
  bt pattern_tail s g k = Some r ↔
  ∃ q2 rest, q2 ∈ quotes ∧ s = target_filename ++ q2 :: ")"%char :: rest ∧
             k rest (g ++ [[q2]]) = Some r.
Proof.
  unfold pattern_tail, re_escape. cbn [bt]. rewrite bt_Lit. split.
  - destruct (startswith target_filename s) eqn:Hs; [|done].
    apply startswith_inv in Hs.
    destruct (drop (length target_filename) s) as [|q s1] eqn:E1; [done|].
    destruct (in_class false quotes q) eqn:Hq; [|done].
    apply in_class_pos in Hq.
    destruct s1 as [|p s2]; [done|].
    destruct (decide (p = ")"%char)) as [->|]; [|done].
    cbn [length].
    replace (S (S (length s2)) - S (length s2)) with 1 by lia.
    cbn [take]. intros Hk. by exists q, s2.
  - intros (q2 & rest & Hq & -> & Hk).
    rewrite startswith_app, drop_app_length.
    apply in_class_pos in Hq. rewrite Hq. rewrite decide_True by done.
    cbn [length].
    replace (S (S (length rest)) - S (length rest)) with 1 by lia.
    exact Hk.
Qed.

Lemma pattern_unfold :
  pattern = Cat (Lit (txt "require("))
              (Cat (Grp (Cls false quotes))
                 (Cat (Grp (LazyStar true quotes)) pattern_tail)).
Proof. reflexivity. Qed.

Lemma match_text_app q1 X q2 rest :
  match_text q1 X q2 ++ rest
  = txt "require(" ++ q1 :: X ++ target_filename ++ q2 :: ")"%char :: rest.
Proof.
  unfold match_text. rewrite <- app_assoc. f_equal. cbn [app]. f_equal.
  by rewrite <- !app_assoc.
Qed.

(** What the pattern matches at the head of a text. *)
Lemma match_here_Some (s t : str) (g : list str) :
  match_here pattern s = Some (t, g) ↔ is_match t g ∧ ∃ rest, s = t ++ rest.
Proof.
  unfold match_here. rewrite pattern_unfold. cbn [bt]. rewrite bt_Lit. split.
  - destruct (startswith (txt "require(") s) eqn:Hs; [|done].
    apply startswith_inv in Hs.
    destruct (drop (length (txt "require(")) s) as [|q1 s2] eqn:E1; [done|].
    destruct (in_class false quotes q1) eqn:Hq1; [|done].
    apply in_class_pos in Hq1.
    intros (X & s3 & -> & HX & Htail & _)%lazy_loop_Some.
    apply pattern_tail_Some in Htail as (q2 & rest & Hq2 & -> & Hk).
    assert (quote_free X) as HqX.
    { eapply Forall_impl; [exact HX|]. intros c. by rewrite in_class_neg. }
    assert (s = match_text q1 X q2 ++ rest) as Es by by rewrite match_text_app.
    cbn [length] in Hk.
    replace (S (length (X ++ target_filename ++ q2 :: ")"%char :: rest))
             - length (X ++ target_filename ++ q2 :: ")"%char :: rest)) with 1 in Hk by lia.
    rewrite take_app_sub in Hk. rewrite Es, take_app_sub in Hk.
    injection Hk as <- <-. split; [by constructor|by exists rest].
  - intros [Hm [rest ->]]. destruct Hm as [q1 X q2 Hq1 Hq2 HX].
    rewrite match_text_app. rewrite startswith_app, drop_app_length.
    apply in_class_pos in Hq1 as Hq1'. rewrite Hq1'.
    apply lazy_loop_Some.
    exists X, (target_filename ++ q2 :: ")"%char :: rest). split_and!.
    + done.
    + eapply Forall_impl; [exact HX|]. intros c. by rewrite in_class_neg.
    + apply pattern_tail_Some. exists q2, rest. split_and!; [done..|].
      cbn [length].
      replace (S (length (X ++ target_filename ++ q2 :: ")"%char :: rest))
               - length (X ++ target_filename ++ q2 :: ")"%char :: rest)) with 1 by lia.
      rewrite take_app_sub. rewrite <- match_text_app, take_app_sub. done.
    + intros X1 X2 -> HX2.
      destruct (bt pattern_tail _ _ _) as [r|] eqn:Hbt; [|done]. exfalso.
      apply pattern_tail_Some in Hbt as (q2' & rest' & Hq2' & E & _).
      rewrite (app_assoc X2) in E.
      apply first_quote_unique in E as [E _]; [|apply quote_free_app|..]; try done.
      * apply (f_equal length) in E. rewrite length_app in E.
        destruct X2; [done|]. cbn in E. lia.
      * by apply Forall_app in HX as [_ ?].
      * apply target_quote_free.
      * apply target_quote_free.
Qed.


Lemma is_match_not_nil t g : is_match t g → t ≠ [].
Proof. by destruct 1. Qed.

(** A match is decided by the text it covers. *)
Lemma match_here_prefix t g rest :
  is_match t g → match_here pattern (t ++ rest) = Some (t, g).
Proof. intros H. apply match_here_Some. eauto. Qed.

(** Two matches that start at the same place are the same match. *)
Lemma is_match_same_start t g t' g' rest rest' :
  is_match t g → is_match t' g' → t ++ rest = t' ++ rest' → t = t' ∧ g = g'.
Proof.
  intros H H' E.
  pose proof (match_here_prefix t g rest H) as E1.
  pose proof (match_here_prefix t' g' rest' H') as E2.
  rewrite E in E1. split; congruence.
Qed.

(** *** Matches do not overlap *)

Lemma quote_not_r q : q ∈ quotes → q ≠ "r"%char.
Proof. intros H ->. revert H. apply (bool_decide_unpack _). by vm_compute. Qed.

(** No proper, non-empty suffix of a call starts like a call, unless the
    body of the call ends in [require(]. *)
Lemma no_inner_start_call q1 B q2 w z v :
  q1 ∈ quotes → q2 ∈ quotes → quote_free B →
  endswith (txt "require(") B = false →
  call_text q1 B q2 = w ++ z → w ≠ [] → z ≠ [] → ¬ call_start (z ++ v).
Proof.
  intros Hq1 Hq2 HB Hend Et Hw Hz (q & rest & Hq & E).
  unfold call_text in Et.
  apply app_eq_inv in Et as [(k & Ek & Ez)|(k & Ew & Ez)].
  - (* the cut falls inside the keyword *)
    subst z. rewrite <- app_assoc in E. cbn [app] in E.
    apply first_quote_unique in E as [E _]; try done.
    + subst k. apply (f_equal length) in Ek. rewrite length_app in Ek.
      destruct w; [done|]. cbn in Ek. lia.
    + pose proof keyword_quote_free as HK. rewrite Ek in HK.
      by apply Forall_app in HK as [_ ?].
    + apply keyword_quote_free.
  - (* the cut falls after the keyword *)
    destruct k as [|q1' k'].
    + cbn in Ez. subst z. cbn in E. injection E as E _. by apply quote_not_r in Hq1.
    + injection Ez as <- Ez.
      apply app_eq_inv in Ez as [(m & EB & Ez)|(m & Ek' & Em)].
      * subst z. rewrite <- app_assoc in E. cbn [app] in E.
        apply first_quote_unique in E as [E _]; try done.
        -- subst m. assert (endswith (txt "require(") B = true); [|congruence].
           apply endswith_true. by exists k'.
        -- rewrite EB in HB. by apply Forall_app in HB as [_ ?].
        -- apply keyword_quote_free.
      * destruct m as [|a [|b [|? ?]]]; cbn in Em.
        -- subst z. cbn in E. injection E as E _. by apply quote_not_r in Hq2.
        -- injection Em as _ <-. cbn in E. by injection E.
        -- injection Em as _ _ <-. done.
        -- injection Em as _ _ Em. by destruct l.
Qed.

Lemma match_text_call q1 X q2 :
  match_text q1 X q2 = call_text q1 (X ++ target_filename) q2.
Proof. unfold match_text, call_text. by rewrite <- app_assoc. Qed.

Lemma target_not_keyword_end X :
  endswith (txt "require(") (X ++ target_filename) = false.
Proof.
  destruct (endswith _ _) eqn:E; [|done]. apply endswith_true in E as [t E].
  change target_filename with (txt "medicaid_rules_2025.jso" ++ ["n"%char]) in E.
  change (txt "require(") with (txt "require" ++ ["("%char]) in E.
  rewrite !app_assoc in E. by apply app_inj_tail in E as [_ ?].
Qed.

Lemma is_match_call_start t g rest : is_match t g → call_start (t ++ rest).
Proof.
  intros [q1 X q2 Hq1 Hq2 HX]. rewrite match_text_app.
  exists q1, (X ++ target_filename ++ q2 :: ")"%char :: rest). by split.
Qed.

(** No proper, non-empty suffix of a match starts like a call. *)
Lemma no_inner_start t g w z v :
  is_match t g → t = w ++ z → w ≠ [] → z ≠ [] → ¬ call_start (z ++ v).
Proof.
  intros [q1 X q2 Hq1 Hq2 HX] Et. rewrite match_text_call in Et.
  apply (no_inner_start_call q1 (X ++ target_filename) q2); try done.
  - apply quote_free_app; [done|apply target_quote_free].
  - apply target_not_keyword_end.
Qed.

(** A match that starts in the text before a call ends before the call. *)
Lemma call_start_closed t g v w s :
  is_match t g → call_start s → t ++ v = w ++ s → w ≠ [] → ∃ k, w = t ++ k.
Proof.
  intros Hm Hs E Hw.
  apply app_eq_inv in E as [(k & Et & Ek)|(k & Ew & _)]; [|by exists k].
  destruct k as [|c k]; [exists []; by rewrite app_nil_r in Et |-*|].
  exfalso. apply (no_inner_start t g w (c :: k) v); try done. by rewrite <- Ek.
Qed.

(** ** [finditer] and the cut of a text at its matches *)

Lemma finditer_from_skip r pos n s :
  n ≤ length s →
  finditer_from r pos n s = finditer_from r (pos + n) 0 (drop n s).
Proof.
  revert pos s. induction n as [|n IH]; intros pos s Hn.
  - by rewrite Nat.add_0_r.
  - destruct s as [|c s]; [cbn in Hn; lia|].
    cbn [finditer_from drop]. rewrite IH by (cbn in Hn; lia).
    f_equal. lia.
Qed.

Lemma finditer_from_miss r pos c s :
  match_here r (c :: s) = None →
  finditer_from r pos 0 (c :: s) = finditer_from r (S pos) 0 s.
Proof. intros H. cbn [finditer_from]. by rewrite H. Qed.

Lemma finditer_from_hit r pos t g rest :
  t ≠ [] → match_here r (t ++ rest) = Some (t, g) →
  finditer_from r pos 0 (t ++ rest)
  = mkMatch pos t g :: finditer_from r (pos + length t) 0 rest.
Proof.
  intros Ht H. destruct t as [|c t]; [done|].
  cbn [app] in H |- *. cbn [finditer_from]. rewrite H. f_equal.
  rewrite finditer_from_skip by (cbn; rewrite length_app; lia).
  cbn [length]. replace (S (length t) - 1) with (length t) by lia.
  rewrite drop_app_length. f_equal. lia.
Qed.

Lemma flatten_gap c ks : flatten (Gap c :: ks) = c :: flatten ks.
Proof. done. Qed.

Lemma flatten_hit t g ks : flatten (Hit t g :: ks) = t ++ flatten ks.
Proof. done. Qed.

Lemma flatten_app ks1 ks2 : flatten (ks1 ++ ks2) = flatten ks1 ++ flatten ks2.
Proof. unfold flatten. by rewrite map_app, concat_app. Qed.

Lemma flatten_gaps (s : str) : flatten (map Gap s) = s.
Proof. induction s as [|c s IH]; [done|]. cbn [map]. by rewrite flatten_gap, IH. Qed.

(** [finditer] finds exactly the matches of the cut. *)
Lemma finditer_tokenized ks pos :
  tokenized ks → finditer_from pattern pos 0 (flatten ks) = matches_of pos ks.
Proof.
  intros H. revert pos. induction H as [|c ks _ IH Hc|t g ks _ IH Hm]; intros pos.
  - done.
  - rewrite flatten_gap, finditer_from_miss by done. apply IH.
  - rewrite flatten_hit, finditer_from_hit with (g := g).
    + cbn [matches_of]. by rewrite IH.
    + by eapply is_match_not_nil.
    + by apply match_here_prefix.
Qed.

(** Every text has such a cut. *)
Lemma tokenized_exists (s : str) : ∃ ks, tokenized ks ∧ flatten ks = s.
Proof.
  remember (length s) as n eqn:Hn. revert s Hn.
  induction n as [n IH] using lt_wf_ind. intros s ->.
  destruct (match_here pattern s) as [[t g]|] eqn:Hm.
  - apply match_here_Some in Hm as [Hm [rest ->]].
    destruct (IH (length rest)) with (s := rest) as (ks & Hks & <-); [|done|].
    { rewrite length_app. apply is_match_not_nil in Hm. destruct t; [done|]. cbn. lia. }
    exists (Hit t g :: ks). split; [by constructor|done].
  - destruct s as [|c s]; [by exists []; split; [constructor|]|].
    destruct (IH (length s)) with (s := s) as (ks & Hks & <-); [cbn; lia|done|].
    exists (Gap c :: ks). split; [by constructor|done].
Qed.

(** Replacing matches creates no match at a gap character. *)
Lemma gap_stable ks f u :
  tokenized ks → hit_map f → u ≠ [] →
  match_here pattern (u ++ flatten ks) = None →
  match_here pattern (u ++ flatten (flat_map f ks)) = None.
Proof.
  intros Hks [Hgap Hhit]. revert u.
  induction Hks as [|c ks _ IH _|t g ks _ _ Hm]; intros u Hu Hnone.
  - done.
  - cbn [flat_map]. rewrite Hgap. cbn [app]. rewrite flatten_gap in *.
    rewrite (cons_middle c), app_assoc in Hnone |- *.
    apply IH; [by destruct u|done].
  - cbn [flat_map]. destruct (Hhit t g Hm) as [(q & rest & Hq & Hstart) _].
    rewrite flatten_app, Hstart. rewrite flatten_hit in Hnone.
    destruct (match_here pattern _) as [[n gn]|] eqn:E in |- *; [|done].
    apply match_here_Some in E as [Hn [v E]].
    symmetry in E. rewrite <- app_assoc in E.
    destruct (call_start_closed n gn v u _ Hn (ex_intro _ q (ex_intro _ _ (conj Hq eq_refl))) E Hu)
      as [k ->].
    rewrite <- app_assoc in Hnone.
    by rewrite (match_here_prefix n gn) in Hnone.
Qed.

Lemma tokenized_flat_map ks f :
  tokenized ks → hit_map f → tokenized (flat_map f ks).
Proof.
  intros Hks Hf. induction Hks as [|c ks Hks IH Hc|t g ks Hks IH Hm]; cbn [flat_map].
  - constructor.
  - pose proof Hf as [Hgap _]. rewrite Hgap. cbn [app]. constructor; [done|].
    by apply (gap_stable ks f [c]).
  - pose proof Hf as [_ Hhit]. destruct (Hhit t g Hm) as [_ Htok]. by apply Htok.
Qed.

Lemma settled_flatten R new : settled R new → flatten new = R.
Proof.
  intros [_ [(g & _ & ->)|[-> _]]].
  - unfold flatten. cbn. by rewrite app_nil_r.
  - apply flatten_gaps.
Qed.

(** The tokens of a settled text may stand before any cut. *)
Lemma settled_tokenized R new ks : settled R new → tokenized ks → tokenized (new ++ ks).
Proof.
  intros [_ [(g & Hm & ->)|[-> Hin]]] Hks.
  - by constructor.
  - assert (∀ z, (∀ w' z' rest, z = w' ++ z' → z' ≠ [] →
                    match_here pattern (z' ++ rest) = None) →
            tokenized (map Gap z ++ ks)) as Hsuf.
    { induction z as [|c z IH]; intros Hz; [done|].
      cbn [map app]. constructor.
      - apply IH. intros w' z' rest -> Hz'. by apply (Hz (c :: w') z').
      - rewrite flatten_app, flatten_gaps. by apply (Hz [] (c :: z)). }
    apply Hsuf. intros w' z' rest -> Hz'. by apply (Hin w' z').
Qed.

Lemma hit_map_subst old R new : settled R new → hit_map (subst_hit old new).
Proof.
  intros HR. split; [done|]. intros t g Hm. cbn [subst_hit].
  destruct (decide (t = old)).
  - split; [|intros; by eapply settled_tokenized].
    rewrite (settled_flatten R) by done. by destruct HR.
  - split; [|intros; by constructor].
    unfold flatten. cbn. by apply (is_match_call_start t g).
Qed.

Lemma hit_map_all R new : settled R new → hit_map (all_hits new).
Proof.
  intros HR. split; [done|]. intros t g Hm. cbn [all_hits].
  split; [|intros; by eapply settled_tokenized].
  rewrite (settled_flatten R) by done. by destruct HR.
Qed.

(** [str.replace] with the text of a match replaces exactly the matches with
    that text. *)
Lemma str_replace_tokens old g0 new ks :
  tokenized ks → is_match old g0 →
  str_replace old new (flatten ks) = concat (map (subst_text old new) ks).
Proof.
  intros Hks Hold. pose proof (is_match_not_nil _ _ Hold) as Hne.
  induction Hks as [|c ks Hks IH Hc|t g ks Hks IH Hm]; cbn [map concat].
  - by apply str_replace_nil.
  - rewrite flatten_gap, str_replace_miss, IH; [done..|].
    destruct (startswith old (c :: flatten ks)) eqn:E; [|done].
    apply startswith_true in E as [v E].
    by rewrite E, (match_here_prefix old g0) in Hc.
  - rewrite flatten_hit. cbn [subst_text]. destruct (decide (t = old)) as [->|Hto].
    + by rewrite str_replace_hit, IH.
    + rewrite str_replace_copy, IH; [done..|].
      intros u w -> Hw.
      destruct (startswith old (w ++ flatten ks)) eqn:E; [|done]. exfalso.
      apply startswith_true in E as [v E].
      destruct u as [|x u].
      * by destruct (is_match_same_start _ _ _ _ _ _ Hm Hold E).
      * apply (no_inner_start _ _ (x :: u) w (flatten ks) Hm); try done.
        rewrite E. by apply (is_match_call_start old g0).
Qed.

Lemma str_replace_tokens_hit old g0 R new ks :
  tokenized ks → is_match old g0 → flatten new = R →
  str_replace old R (flatten ks) = flatten (flat_map (subst_hit old new) ks).
Proof.
  intros Hks Hold HR. rewrite (str_replace_tokens old g0) by done.
  clear Hks. induction ks as [|[c|t g] ks IH]; [done|..]; cbn [map concat flat_map].
  - by rewrite IH.
  - rewrite flatten_app, IH. f_equal. cbn.
    destruct (decide (t = old)); [done|]. unfold flatten. cbn. by rewrite app_nil_r.
Qed.

(** ** The text transformation of [update_file] *)

Lemma matches_of_is_match ks pos :
  tokenized ks → Forall (λ m, is_match (m_text m) (m_groups m)) (matches_of pos ks).
Proof.
  intros H. revert pos. induction H as [|c ks _ IH _|t g ks _ IH Hm]; intros pos; cbn.
  - constructor.
  - apply IH.
  - constructor; [done|apply IH].
Qed.

Lemma matches_of_texts ks pos t g :
  Hit t g ∈ ks → t ∈ map m_text (matches_of pos ks).
Proof.
  revert pos. induction ks as [|k ks IH]; intros pos; [by intros ?%elem_of_nil|].
  intros [<-|H]%elem_of_cons.
  - cbn. apply elem_of_cons. by left.
  - destruct k; cbn; [by apply IH|]. apply elem_of_cons. right. by apply IH.
Qed.

Lemma flat_map_flat_map {A B C} (f : A → list B) (g : B → list C) (l : list A) :
  flat_map g (flat_map f l) = flat_map (λ x, flat_map g (f x)) l.
Proof.
  induction l as [|x l IH]; [done|]. cbn. by rewrite flat_map_app, IH.
Qed.

Lemma flat_map_ext_in {A B} (f g : A → list B) (l : list A) :
  (∀ x, x ∈ l → f x = g x) → flat_map f l = flat_map g l.
Proof.
  induction l as [|x l IH]; intros H; [done|]. cbn.
  rewrite H by set_solver. rewrite IH; [done|]. intros y Hy. apply H. set_solver.
Qed.

Lemma flat_map_gaps (f : token → list token) (s : str) :
  (∀ c, f (Gap c) = [Gap c]) → flat_map f (map Gap s) = map Gap s.
Proof. intros H. induction s as [|c s IH]; [done|]. cbn. by rewrite H, IH. Qed.

Lemma subst_all_gap texts new c : subst_all texts new (Gap c) = [Gap c].
Proof.
  induction texts as [|t texts IH]; [done|]. cbn. by rewrite IH.
Qed.

Lemma subst_all_new R new texts :
  settled R new → flat_map (subst_all texts new) new = new.
Proof.
  intros [_ [(g & _ & ->)|[-> _]]].
  - cbn. rewrite app_nil_r. induction texts as [|t texts IH]; [done|].
    cbn [subst_all subst_hit]. destruct (decide (R = t)); cbn; by rewrite app_nil_r.
  - apply flat_map_gaps. intros c. apply subst_all_gap.
Qed.

Lemma subst_all_hit R new texts t g :
  settled R new → t ∈ texts → subst_all texts new (Hit t g) = new.
Proof.
  intros HR. induction texts as [|t' texts IH]; [by intros ?%elem_of_nil|].
  intros H. cbn [subst_all subst_hit].
  destruct (decide (t = t')) as [->|Hne].
  - by apply (subst_all_new R).
  - cbn. rewrite app_nil_r. apply IH. apply elem_of_cons in H as [?|?]; done.
Qed.

Lemma fold_replace_tokens R new ms ks :
  settled R new → tokenized ks →
  Forall (λ m, is_match (m_text m) (m_groups m)) ms →
  fold_left (λ acc m, str_replace (group m 0) R acc) ms (flatten ks)
  = flatten (flat_map (subst_all (map m_text ms) new) ks).
Proof.
  intros HR. revert ks. induction ms as [|m ms IH]; intros ks Hks Hms.
  - cbn [fold_left map]. f_equal. clear Hks.
    induction ks as [|k ks IHks]; [done|]. cbn. by f_equal.
  - inversion Hms as [|? ? Hm Hms']; subst. cbn [fold_left group map].
    rewrite (str_replace_tokens_hit _ (m_groups m) R new)
      by (done || by apply (settled_flatten R)).
    rewrite IH; [|by eapply tokenized_flat_map, hit_map_subst|done].
    by rewrite flat_map_flat_map.
Qed.

(** The loop of [update_file] replaces every match by the replacement and
    nothing else, when the replacement is settled. *)
Lemma rewrite_text_tokens R new ks :
  settled R new → tokenized ks →
  rewrite_text R (flatten ks) = flatten (flat_map (all_hits new) ks).
Proof.
  intros HR Hks. unfold rewrite_text, finditer.
  rewrite finditer_tokenized by done.
  rewrite (fold_replace_tokens R new) by (done || by apply matches_of_is_match).
  f_equal. apply flat_map_ext_in. intros [c|t g] Hin.
  - apply subst_all_gap.
  - apply (subst_all_hit R); [done|]. by apply (matches_of_texts _ _ _ g).
Qed.

Lemma all_hits_new R new : settled R new → flat_map (all_hits new) new = new.
Proof.
  intros [_ [(g & _ & ->)|[-> _]]].
  - done.
  - by apply flat_map_gaps.
Qed.

Lemma rewrite_text_idemp R new content :
  settled R new →
  rewrite_text R (rewrite_text R content) = rewrite_text R content.
Proof.
  intros HR. destruct (tokenized_exists content) as (ks & Hks & <-).
  rewrite (rewrite_text_tokens R new) by done.
  rewrite (rewrite_text_tokens R new);
    [|done|by eapply tokenized_flat_map, hit_map_all].
  rewrite flat_map_flat_map. f_equal. apply flat_map_ext_in. intros [c|t g] _.
  - done.
  - cbn [all_hits]. by apply (all_hits_new R).
Qed.

Lemma require_call_text rel : require_call rel = call_text squote rel squote.
Proof. done. Qed.

Lemma require_call_match rel X :
  quote_free X → rel = X ++ target_filename →
  is_match (require_call rel) [[squote]; X; [squote]].
Proof.
  intros HX ->. rewrite require_call_text, <- match_text_call.
  constructor; [set_solver|set_solver|done].
Qed.

(** A replacement whose path holds no quote and does not end in [require(]
    is settled: a match when the path ends in the target name, and
    otherwise a text in which no match starts. *)
Lemma require_call_settled rel :
  quote_free rel → endswith (txt "require(") rel = false →
  ∃ new, settled (require_call rel) new.
Proof.
  intros Hq Hend.
  assert (call_start (require_call rel)) as Hstart.
  { exists squote, (rel ++ txt "')"). split; [set_solver|done]. }
  destruct (endswith target_filename rel) eqn:Etarget.
  - apply endswith_true in Etarget as [X ->].
    eexists. split; [done|]. left. eexists. split; [|done].
    apply require_call_match; [|done]. by apply Forall_app in Hq as [? _].
  - exists (map Gap (require_call rel)). split; [done|]. right. split; [done|].
    intros w z rest E Hz.
    destruct (match_here pattern (z ++ rest)) as [[n gn]|] eqn:Hm; [|done].
    exfalso. apply match_here_Some in Hm as [Hn [v Hm]].
    destruct w as [|x w].
    + (* a match at the head of the replacement *)
      cbn [app] in E. subst z. destruct Hn as [q1 X q2 Hq1 Hq2 HX].
      rewrite match_text_app, require_call_text in Hm. unfold call_text in Hm.
      rewrite <- app_assoc in Hm. apply app_inv_head in Hm.
      assert (rel ++ squote :: ")"%char :: rest
              = (X ++ target_filename) ++ q2 :: ")"%char :: v) as Hm'.
      { rewrite <- (app_assoc X). cbn [app] in Hm. rewrite <- app_assoc in Hm.
        by injection Hm. }
      clear Hm. rename Hm' into Hm.
      apply first_quote_unique in Hm as [Hm _]; try done; try set_solver.
      * assert (endswith target_filename rel = true); [|congruence].
        apply endswith_true. by exists X.
      * apply quote_free_app; [done|apply target_quote_free].
    + (* a match further inside *)
      rewrite require_call_text in E.
      apply (no_inner_start_call squote rel squote (x :: w) z rest);
        try done; try set_solver.
      rewrite Hm. by apply (is_match_call_start n gn).
Qed.

(** One match: the text before it, the replacement, the text after it. *)
Lemma matches_of_single ks pos m :
  matches_of pos ks = [m] →
  ∃ pre post, ks = map Gap pre ++ Hit (m_text m) (m_groups m) :: map Gap post ∧
              m_start m = pos + length pre.
Proof.
  revert pos. induction ks as [|[c|t g] ks IH]; intros pos; cbn [matches_of]; [done| |].
  - intros (pre & post & -> & Hpos)%IH. exists (c :: pre), post. split; [done|].
    cbn. lia.
  - intros [= <- Hrest]. exists []. 
    assert (∃ post, ks = map Gap post) as [post ->].
    { clear IH. revert Hrest. generalize (pos + length t). 
      induction ks as [|[c|t' g'] ks IH]; intros n Hn; cbn in Hn; [by exists []| |done].
      destruct (IH _ Hn) as [post ->]. by exists (c :: post). }
    exists post. split; [done|]. cbn. lia.
Qed.

Lemma rewrite_text_single new content m :
  finditer pattern content = [m] →
  content = take (m_start m) content ++ m_text m
            ++ drop (m_start m + length (m_text m)) content ∧
  rewrite_text new content
  = take (m_start m) content ++ new ++ drop (m_start m + length (m_text m)) content.
Proof.
  intros Hfind. destruct (tokenized_exists content) as (ks & Hks & <-).
  unfold rewrite_text. rewrite Hfind. cbn [fold_left group].
  unfold finditer in Hfind. rewrite finditer_tokenized in Hfind by done.
  pose proof (matches_of_is_match ks 0 Hks) as Hm. rewrite Hfind in Hm.
  inversion Hm as [|? ? Hm' _]; subst.
  apply matches_of_single in Hfind as (pre & post & -> & Hpos).
  cbn in Hpos. rewrite Hpos.
  rewrite (str_replace_tokens _ (m_groups m)) by done.
  rewrite flatten_app, flatten_hit, !flatten_gaps.
  rewrite take_app_length.
  rewrite drop_app_add', drop_app_length by done.
  split; [done|].
  rewrite map_app, concat_app. cbn [map concat subst_text].
  rewrite decide_True by done.
  assert (∀ s, concat (map (subst_text (m_text m) new) (map Gap s)) = s) as Hg.
  { induction s as [|c s IH]; [done|]. cbn. by rewrite IH. }
  by rewrite !Hg.
Qed.

(** ** Where the pattern matches *)

Lemma matches_of_found ks pos i t g :
  tokenized ks →
  match_here pattern (drop i (flatten ks)) = Some (t, g) →
  mkMatch (pos + i) t g ∈ matches_of pos ks.
Proof.
  intros Hks. revert pos i. induction Hks as [|c ks Hks IH Hgap|t0 g0 ks Hks IH Hm];
    intros pos i Hhere.
  - change (flatten []) with (@nil ascii) in Hhere. rewrite drop_nil in Hhere.
    apply match_here_Some in Hhere as [Ht [rest E]].
    symmetry in E. apply app_eq_nil in E as [-> _]. by apply is_match_not_nil in Ht.
  - destruct i as [|i].
    + rewrite flatten_gap in Hhere. cbn [drop] in Hhere. congruence.
    + rewrite flatten_gap in Hhere. cbn [drop] in Hhere. cbn [matches_of].
      replace (pos + S i) with (S pos + i) by lia. by apply IH.
  - rewrite flatten_hit in Hhere. cbn [matches_of].
    destruct (decide (i = 0)) as [->|Hi0].
    + rewrite drop_0 in Hhere. rewrite (match_here_prefix t0 g0) in Hhere by done.
      injection Hhere as <- <-. rewrite Nat.add_0_r. apply list_elem_of_here.
    + destruct (decide (i < length t0)) as [Hlt|Hge].
      * exfalso. rewrite drop_app_le in Hhere by lia.
        apply match_here_Some in Hhere as [Ht [rest E]].
        apply (no_inner_start t0 g0 (take i t0) (drop i t0) (flatten ks)); try done.
        -- by rewrite take_drop.
        -- intros E'. apply (f_equal length) in E'.
           rewrite length_take in E'. cbn in E'. lia.
        -- intros E'. apply (f_equal length) in E'.
           rewrite length_drop in E'. cbn in E'. lia.
        -- rewrite E. by apply (is_match_call_start t g).
      * rewrite drop_app_ge in Hhere by lia.
        apply list_elem_of_further.
        replace (pos + i) with (pos + length t0 + (i - length t0)) by lia.
        by apply IH.
Qed.

Lemma matches_of_sound ks pos m :
  tokenized ks → m ∈ matches_of pos ks →
  pos ≤ m_start m ∧
  match_here pattern (drop (m_start m - pos) (flatten ks))
  = Some (m_text m, m_groups m).
Proof.
  intros Hks. revert pos. induction Hks as [|c ks Hks IH Hgap|t0 g0 ks Hks IH Hm];
    intros pos Hin.
  - by apply elem_of_nil in Hin.
  - cbn [matches_of] in Hin. apply IH in Hin as [Hle Hhere]. split; [lia|].
    rewrite flatten_gap. replace (m_start m - pos) with (S (m_start m - S pos)) by lia.
    done.
  - cbn [matches_of] in Hin. apply elem_of_cons in Hin as [->|Hin].
    + cbn [m_start m_text m_groups]. split; [done|].
      rewrite Nat.sub_diag, drop_0, flatten_hit.
      by apply match_here_prefix.
    + apply IH in Hin as [Hle Hhere]. split; [lia|].
      rewrite flatten_hit, drop_app_ge by lia.
      by replace (m_start m - pos - length t0) with (m_start m - (pos + length t0))
        by lia.
Qed.

(** A text holds a match when some match text lies in it. *)
Lemma finditer_not_nil (content : str) :
  finditer pattern content ≠ [] ↔
  ∃ a t g b, is_match t g ∧ content = a ++ t ++ b.
Proof.
  destruct (tokenized_exists content) as (ks & Hks & <-).
  unfold finditer. rewrite finditer_tokenized by done. split.
  - destruct (matches_of 0 ks) as [|m ms] eqn:E; [done|]. intros _.
    destruct (matches_of_sound ks 0 m Hks) as [_ Hhere]; [rewrite E; set_solver|].
    apply match_here_Some in Hhere as [Hm [rest Hrest]].
    exists (take (m_start m - 0) (flatten ks)), (m_text m), (m_groups m), rest.
    split; [done|]. by rewrite <- Hrest, take_drop.
  - intros (a & t & g & b & Hm & E).
    assert (mkMatch (0 + length a) t g ∈ matches_of 0 ks) as Hin.
    { apply matches_of_found; [done|]. rewrite E, drop_app_length.
      by apply match_here_prefix. }
    intros E'. rewrite E' in Hin. by apply elem_of_nil in Hin.
Qed.

(** ** Line endings *)

Lemma nl_crlf s :
  universal_newlines (cr :: newline :: s) = newline :: universal_newlines s.
Proof. done. Qed.

Lemma nl_cr s :
  head s ≠ Some newline →
  universal_newlines (cr :: s) = newline :: universal_newlines s.
Proof.
  intros H. destruct s as [|c s]; [done|]. cbn [universal_newlines].
  rewrite decide_True by done. rewrite decide_False; [done|]. by intros ->.
Qed.

Lemma nl_other c s :
  c ≠ cr → universal_newlines (c :: s) = c :: universal_newlines s.
Proof. intros H. cbn [universal_newlines]. by rewrite decide_False. Qed.

Lemma nl_cases (s : str) :
  s = [] ∨ (∃ s', s = cr :: newline :: s') ∨
  (∃ s', s = cr :: s' ∧ head s' ≠ Some newline) ∨
  (∃ c s', s = c :: s' ∧ c ≠ cr).
Proof.
  destruct s as [|c s]; [by left|]. right.
  destruct (decide (c = cr)) as [->|Hc]; [|right; right; eauto].
  destruct s as [|c' s]; [right; left; by eexists|].
  destruct (decide (c' = newline)) as [->|Hc']; [left; eauto|].
  right. left. eexists. split; [done|]. cbn. by intros [= ->].
Qed.

Lemma nl_no_cr (s : str) : cr ∉ universal_newlines s.
Proof.
  induction s as [s IH] using (induction_ltof1 _ length). unfold ltof in IH.
  destruct (nl_cases s) as [->|[[s' ->]|[(s' & -> & H)|(c & s' & -> & Hc)]]].
  - apply not_elem_of_nil.
  - rewrite nl_crlf. apply not_elem_of_cons. split; [done|]. apply IH. cbn. lia.
  - rewrite nl_cr by done. apply not_elem_of_cons. split; [done|]. apply IH. cbn. lia.
  - rewrite nl_other by done. apply not_elem_of_cons. split; [done|].
    apply IH. cbn. lia.
Qed.

(** A text without carriage returns is read as it is. *)
Lemma nl_id (s : str) : cr ∉ s → universal_newlines s = s.
Proof.
  induction s as [|c s IH]; [done|]. intros [Hc Hs]%not_elem_of_cons.
  rewrite nl_other by done. by rewrite IH.
Qed.

Lemma nl_idem (s : str) :
  universal_newlines (universal_newlines s) = universal_newlines s.
Proof. apply nl_id, nl_no_cr. Qed.

Lemma nl_eq_nil (s : str) : universal_newlines s = [] → s = [].
Proof.
  destruct (nl_cases s) as [->|[[s' ->]|[(s' & -> & H)|(c & s' & -> & Hc)]]];
    [done|by rewrite nl_crlf|by rewrite nl_cr|by rewrite nl_other].
Qed.

Lemma elem_of_nl (x : ascii) (s : str) :
  x ∈ universal_newlines s → x = newline ∨ x ∈ s.
Proof.
  induction s as [s IH] using (induction_ltof1 _ length). unfold ltof in IH.
  destruct (nl_cases s) as [->|[[s' ->]|[(s' & -> & H)|(c & s' & -> & Hc)]]].
  - by intros ?%elem_of_nil.
  - rewrite nl_crlf. intros [->|Hx]%elem_of_cons; [by left|].
    destruct (IH s') as [?|?]; [cbn; lia|done|by left|right; set_solver].
  - rewrite nl_cr by done. intros [->|Hx]%elem_of_cons; [by left|].
    destruct (IH s') as [?|?]; [cbn; lia|done|by left|right; set_solver].
  - rewrite nl_other by done. intros [->|Hx]%elem_of_cons; [right; set_solver|].
    destruct (IH s') as [?|?]; [cbn; lia|done|by left|right; set_solver].
Qed.

Lemma nl_elem_of (x : ascii) (s : str) :
  x ∈ s → x = cr ∨ x ∈ universal_newlines s.
Proof.
  induction s as [s IH] using (induction_ltof1 _ length). unfold ltof in IH.
  destruct (nl_cases s) as [->|[[s' ->]|[(s' & -> & H)|(c & s' & -> & Hc)]]].
  - by intros ?%elem_of_nil.
  - rewrite nl_crlf. intros [->|[->|Hx]%elem_of_cons]%elem_of_cons;
      [by left|right; set_solver|].
    destruct (IH s') as [?|?]; [cbn; lia|done|by left|right; set_solver].
  - rewrite nl_cr by done. intros [->|Hx]%elem_of_cons; [by left|].
    destruct (IH s') as [?|?]; [cbn; lia|done|by left|right; set_solver].
  - rewrite nl_other by done. intros [->|Hx]%elem_of_cons; [right; set_solver|].
    destruct (IH s') as [?|?]; [cbn; lia|done|by left|right; set_solver].
Qed.

Lemma quote_not_newline q : q ∈ quotes → q ≠ newline ∧ q ≠ cr.
Proof.
  intros [->|[->|?%elem_of_nil]%elem_of_cons]%elem_of_cons; [by split..|done].
Qed.

Lemma quote_free_nl (s : str) : quote_free s ↔ quote_free (universal_newlines s).
Proof.
  unfold quote_free. rewrite !Forall_forall. split.
  - intros H x [->|Hx]%elem_of_nl; [|by apply H].
    intros Hq%quote_not_newline. by destruct Hq.
  - intros H x Hx. destruct (nl_elem_of x s Hx) as [->|Hx']; [|by apply H].
    intros Hq%quote_not_newline. by destruct Hq.
Qed.

(** The translation works on the two parts of a text by themselves, unless
    the cut falls between a carriage return and a line feed. *)
Lemma nl_app (a b : str) :
  (last a = Some cr → head b ≠ Some newline) →
  universal_newlines (a ++ b) = universal_newlines a ++ universal_newlines b.
Proof.
  induction a as [a IH] using (induction_ltof1 _ length). unfold ltof in IH.
  intros H.
  destruct (nl_cases a) as [->|[[a' ->]|[(a' & -> & Hh)|(c & a' & -> & Hc)]]].
  - done.
  - cbn [app]. rewrite !nl_crlf. cbn [app]. f_equal. apply IH; [cbn; lia|].
    intros Hl. apply H. by destruct a'.
  - destruct a' as [|y a'].
    + cbn [app]. rewrite nl_cr by by apply H. done.
    + cbn [app]. rewrite !nl_cr by done. cbn [app]. f_equal.
      apply (IH (y :: a')); [cbn; lia|]. intros Hl. by apply H.
  - cbn [app]. rewrite !nl_other by done. cbn [app]. f_equal.
    apply IH; [cbn; lia|]. intros Hl. apply H. by destruct a'.
Qed.

Lemma cr_not_keyword : (cr ∉ txt "require(") ∧ (newline ∉ txt "require(").
Proof. split; apply (bool_decide_unpack _); by vm_compute. Qed.

Lemma cr_not_target : (cr ∉ target_filename) ∧ (newline ∉ target_filename).
Proof. split; apply (bool_decide_unpack _); by vm_compute. Qed.

(** Reading a match text gives a match text: only the old path can hold
    line endings. *)
Lemma nl_match_text q1 X q2 :
  q1 ∈ quotes → q2 ∈ quotes →
  universal_newlines (match_text q1 X q2) = match_text q1 (universal_newlines X) q2.
Proof.
  intros [H1 H1']%quote_not_newline [H2 H2']%quote_not_newline.
  destruct cr_not_keyword as [Hk _]. destruct cr_not_target as [Ht _].
  unfold match_text.
  change (txt "require(" ++ q1 :: X ++ target_filename ++ [q2; ")"%char])
    with (txt "require(" ++ [q1] ++ X ++ target_filename ++ [q2; ")"%char]).
  rewrite app_assoc, nl_app.
  2:{ rewrite last_snoc. by intros [= ->]. }
  rewrite (nl_id (txt "require(" ++ [q1])) by set_solver.
  rewrite nl_app by done.
  rewrite (nl_id (target_filename ++ _)) by set_solver.
  by rewrite <- app_assoc.
Qed.

Lemma is_match_nl t g :
  is_match t g → ∃ g', is_match (universal_newlines t) g'.
Proof.
  intros [q1 X q2 H1 H2 HX]. rewrite nl_match_text by done. eexists.
  constructor; [done|done|]. by apply (proj1 (quote_free_nl X)).
Qed.

Lemma is_match_ends t g :
  is_match t g → head t = Some "r"%char ∧ last t = Some ")"%char.
Proof.
  intros [q1 X q2 _ _ _]. split; [done|]. unfold match_text.
  change (txt "require(" ++ q1 :: X ++ target_filename ++ [q2; ")"%char])
    with (txt "require(" ++ [q1] ++ X ++ target_filename ++ [q2] ++ [")"%char]).
  by rewrite !app_assoc, last_snoc.
Qed.

(** Where the text read shows a character that is no line feed, the text
    stored has the same character. *)
Lemma nl_inv_cons (c a' : str) (x : ascii) (b' : str) :
  universal_newlines c = a' ++ x :: b' → x ≠ newline →
  ∃ a b, c = a ++ x :: b ∧ universal_newlines a = a' ∧ universal_newlines b = b'.
Proof.
  revert a'. induction c as [c IH] using (induction_ltof1 _ length).
  unfold ltof in IH. intros a' E Hx.
  destruct (nl_cases c) as [->|[[s ->]|[(s & -> & Hh)|(y & s & -> & Hy)]]].
  - by destruct a'.
  - rewrite nl_crlf in E. destruct a' as [|z a']; cbn in E.
    { injection E as <- _. done. }
    injection E as <- E. destruct (IH s) with (a' := a') as (a & b & -> & Ha & Hb);
      [cbn; lia|done|done|].
    exists (cr :: newline :: a), b. split; [done|]. by rewrite nl_crlf, Ha.
  - rewrite nl_cr in E by done. destruct a' as [|z a']; cbn in E.
    { injection E as <- _. done. }
    injection E as <- E. destruct (IH s) with (a' := a') as (a & b & -> & Ha & Hb);
      [cbn; lia|done|done|].
    exists (cr :: a), b. split; [done|]. rewrite nl_cr; [by rewrite Ha|].
    destruct a; [cbn; by intros [= ->]|done].
  - rewrite nl_other in E by done. destruct a' as [|z a']; cbn in E.
    { injection E as <- E. by exists [], s. }
    injection E as <- E. destruct (IH s) with (a' := a') as (a & b & -> & Ha & Hb);
      [cbn; lia|done|done|].
    exists (y :: a), b. split; [done|]. by rewrite nl_other, Ha.
Qed.

Lemma nl_inv_word (u c a' b' : str) :
  universal_newlines c = a' ++ u ++ b' → u ≠ [] → newline ∉ u →
  ∃ a b, c = a ++ u ++ b ∧ universal_newlines a = a' ∧ universal_newlines b = b'.
Proof.
  revert c a'. induction u as [|x u IH]; intros c a' E Hne Hnl; [done|].
  apply not_elem_of_cons in Hnl as [Hx Hu]. cbn [app] in E.
  apply nl_inv_cons in E as (a & b1 & -> & Ha & Hb1); [|done].
  destruct u as [|y u]; [by exists a, b1|].
  destruct (IH b1 []) as (a2 & b & -> & Ha2 & Hb); [done..|].
  apply nl_eq_nil in Ha2 as ->. by exists a, b.
Qed.

(** Reading neither makes nor unmakes a match. *)
Lemma finditer_nl_nil (content : str) :
  finditer pattern (universal_newlines content) = [] ↔
  finditer pattern content = [].
Proof.
  assert (finditer pattern (universal_newlines content) ≠ [] ↔
          finditer pattern content ≠ []) as H.
  { rewrite !finditer_not_nil. split.
    - intros (a' & t' & g' & b' & Hm & E). destruct Hm as [q1 X' q2 H1 H2 HX].
      destruct (quote_not_newline q1 H1) as [Hq1 _].
      destruct (quote_not_newline q2 H2) as [Hq2 _].
      destruct cr_not_keyword as [_ Hk]. destruct cr_not_target as [_ Ht].
      unfold match_text in E.
      change (a' ++ (txt "require(" ++ q1 :: X' ++ target_filename ++ [q2; ")"%char])
              ++ b')
        with (a' ++ (txt "require(" ++ [q1] ++ X' ++ target_filename
                     ++ [q2; ")"%char]) ++ b') in E.
      rewrite <- !app_assoc in E.
      rewrite (app_assoc (txt "require(")) in E.
      apply nl_inv_word in E as (a & c2 & -> & Ha & Hc2); [|done|set_solver].
      rewrite (app_assoc target_filename) in Hc2.
      apply nl_inv_word in Hc2 as (X & b & -> & HXeq & Hb);
        [|by destruct target_filename|set_solver].
      exists a, (match_text q1 X q2), [[q1]; X; [q2]], b. split.
      + constructor; [done|done|]. apply (proj2 (quote_free_nl X)). by rewrite HXeq.
      + unfold match_text. rewrite <- !app_assoc. cbn [app].
        do 3 f_equal. by rewrite <- !app_assoc.
    - intros (a & t & g & b & Hm & ->).
      destruct (is_match_ends t g Hm) as [Hhead Hlast].
      destruct (is_match_nl t g Hm) as [g' Hm'].
      exists (universal_newlines a), (universal_newlines t), g', (universal_newlines b).
      split; [done|]. rewrite nl_app.
      2:{ intros _. destruct t; [done|]. cbn in *. by injection Hhead as ->. }
      f_equal. apply nl_app. rewrite Hlast. by intros [= ?]. }
  destruct (finditer pattern (universal_newlines content)),
    (finditer pattern content); try done.
  - destruct H as [_ H]. by destruct H.
  - destruct H as [H _]. by destruct H.
Qed.

(** What [str.replace] gives holds only characters of the text and of the
    replacement. *)
Lemma elem_of_str_replace (x : ascii) (old new s : str) :
  old ≠ [] → x ∈ str_replace old new s → x ∈ new ∨ x ∈ s.
Proof.
  intros Hne.
  induction s as [s IH] using (induction_ltof1 _ length). unfold ltof in IH.
  destruct s as [|c s]; [rewrite str_replace_nil by done; by intros ?%elem_of_nil|].
  destruct (startswith old (c :: s)) eqn:E.
  - apply startswith_true in E as [t E]. rewrite E.
    rewrite str_replace_hit by done. intros [?|Hx]%elem_of_app; [by left|].
    destruct (IH t) as [?|?]; [|done|by left|right; set_solver].
    apply (f_equal length) in E. rewrite length_app in E.
    destruct old; [done|]. cbn in *. lia.
  - rewrite str_replace_miss by done. intros [->|Hx]%elem_of_cons; [right; set_solver|].
    destruct (IH s) as [?|?]; [cbn; lia|done|by left|right; set_solver].
Qed.

Lemma rewrite_text_no_cr R content :
  cr ∉ R → cr ∉ content → cr ∉ rewrite_text R content.
Proof.
  intros HR. unfold rewrite_text.
  assert (Forall (λ m, m_text m ≠ []) (finditer pattern content)) as Hms.
  { destruct (tokenized_exists content) as (ks & Hks & <-).
    unfold finditer. rewrite finditer_tokenized by done.
    eapply Forall_impl; [by apply matches_of_is_match|].
    intros m Hm. cbn beta in Hm. by apply is_match_not_nil in Hm. }
  revert Hms. generalize (finditer pattern content). intros ms. revert content.
  induction ms as [|m ms IH]; intros content Hms Hc; [done|].
  apply Forall_cons in Hms as [Hm Hms]. cbn [fold_left]. apply IH; [done|].
  intros [?|?]%elem_of_str_replace; done.
Qed.

(** ** Running [update_file] *)

Lemma bind_unfold {St A B} (m : M St A) (f : A → M St B) (st : St) :
  (m ≫= f) st = match m st with
                | (st', inr a) => f a st'
                | (st', inl e) => (st', inl e)
                end.
Proof. done. Qed.

Lemma logged_logged w evs1 evs2 : logged (logged w evs1) evs2 = logged w (evs1 ++ evs2).
Proof. unfold logged. cbn. by rewrite <- app_assoc. Qed.

Lemma logged_nil w : logged w [] = w.
Proof. destruct w. unfold logged. cbn. by rewrite app_nil_r. Qed.

Lemma print_run text w : print text w = (logged w [EvPrint text], inr ()).
Proof. done. Qed.

Lemma f_readable_ok f : f_readable f = true → f_read f = ReadOk.
Proof. unfold f_readable. by destruct (f_read f). Qed.

Lemma after_write_ok f : f_readable f = true → after_write (f_read f) = f_read f.
Proof. by intros ->%f_readable_ok. Qed.

Lemma read_file_ok w p f :
  w_files w !! p = Some f → f_readable f = true →
  read_file p w = (logged w [EvRead p], inr (universal_newlines (f_content f))).
Proof.
  intros Hf Hr%f_readable_ok. unfold read_file. rewrite bind_unfold. cbn [get].
  by rewrite Hf, Hr.
Qed.

Lemma read_file_missing w p :
  w_files w !! p = None → read_file p w = (w, inl (OSError p)).
Proof. intros Hf. unfold read_file. rewrite bind_unfold. cbn [get]. by rewrite Hf. Qed.

Lemma read_file_unreadable w p f :
  w_files w !! p = Some f → f_readable f = false →
  read_file p w = (w, inl (read_error p f)).
Proof.
  intros Hf Hr. unfold read_file, read_error, f_readable in *.
  rewrite bind_unfold. cbn [get]. rewrite Hf. by destruct (f_read f).
Qed.

Lemma read_error_cases p f :
  read_error p f = OSError p ∨ read_error p f = UnicodeDecodeError p.
Proof. unfold read_error. destruct (f_read f); eauto. Qed.

Lemma write_file_ok w p content f :
  w_files w !! p = Some f → f_writable f = true →
  write_file p content w = (logged (written w p content f) [EvWrite p content], inr ()).
Proof.
  intros Hf Hw. unfold write_file. rewrite bind_unfold. cbn [get].
  by rewrite Hf, Hw.
Qed.

Lemma write_file_denied w p content f :
  w_files w !! p = Some f → f_writable f = false →
  write_file p content w = (w, inl (OSError p)).
Proof.
  intros Hf Hw. unfold write_file. rewrite bind_unfold. cbn [get].
  by rewrite Hf, Hw.
Qed.

Section update_file_runs.
Variable cwd : str.
Variables file_path correct_json_path rel : str.
Hypothesis Hrel : calculate_relative_path cwd file_path correct_json_path = Some rel.

Lemma update_round_run new_content m w :
  update_round cwd file_path correct_json_path new_content m w
  = (logged w [EvPrint (report_updated file_path (group m 0) (require_call rel))],
     inr (str_replace (group m 0) (require_call rel) new_content)).
Proof. unfold update_round. by rewrite Hrel. Qed.

Lemma update_rounds_run ms new_content w :
  for_fold ms (update_round cwd file_path correct_json_path) new_content w
  = (logged w (update_reports file_path (require_call rel) ms),
     inr (fold_left (λ acc m, str_replace (group m 0) (require_call rel) acc)
            ms new_content)).
Proof.
  revert new_content w. induction ms as [|m ms IH]; intros new_content w.
  - cbn. by rewrite logged_nil.
  - cbn [for_fold]. rewrite bind_unfold, update_round_run, IH.
    by rewrite logged_logged.
Qed.

(** A file without a match is read and reported; nothing is written. *)
Lemma update_file_no_match w f :
  w_files w !! file_path = Some f → f_readable f = true →
  finditer pattern (f_content f) = [] →
  update_file cwd file_path correct_json_path w
  = (logged w [EvRead file_path; EvPrint (report_no_match file_path)], inr ()).
Proof.
  intros Hf Hr Hm%finditer_nl_nil. unfold update_file.
  rewrite bind_unfold, (read_file_ok _ _ f) by done.
  rewrite Hm. rewrite bool_decide_eq_false_2 by (by intros ?).
  by rewrite print_run, logged_logged.
Qed.

(** A file with matches is read, each replacement is reported, and the
    rewritten text, which is the text as it was read, is written back. *)
Lemma update_file_match w f :
  w_files w !! file_path = Some f → f_readable f = true → f_writable f = true →
  finditer pattern (f_content f) ≠ [] →
  update_file cwd file_path correct_json_path w
  = (logged
       (written
          (logged w (EvRead file_path ::
                     update_reports file_path (require_call rel)
                       (finditer pattern (universal_newlines (f_content f)))))
          file_path
          (rewrite_text (require_call rel) (universal_newlines (f_content f))) f)
       [EvWrite file_path
          (rewrite_text (require_call rel) (universal_newlines (f_content f)))],
     inr ()).
Proof.
  intros Hf Hr Hw Hm. unfold update_file.
  rewrite <- finditer_nl_nil in Hm.
  rewrite bind_unfold, (read_file_ok _ _ f) by done.
  rewrite bool_decide_eq_true_2 by done.
  rewrite bind_unfold, update_rounds_run, logged_logged.
  by rewrite (write_file_ok _ _ _ f).
Qed.

(** When the file cannot be written the run stops there. *)
Lemma update_file_denied w f :
  w_files w !! file_path = Some f → f_readable f = true → f_writable f = false →
  finditer pattern (f_content f) ≠ [] →
  update_file cwd file_path correct_json_path w
  = (logged w (EvRead file_path ::
               update_reports file_path (require_call rel)
                 (finditer pattern (universal_newlines (f_content f)))),
     inl (OSError file_path)).
Proof.
  intros Hf Hr Hw Hm. unfold update_file.
  rewrite <- finditer_nl_nil in Hm.
  rewrite bind_unfold, (read_file_ok _ _ f) by done.
  rewrite bool_decide_eq_true_2 by done.
  rewrite bind_unfold, update_rounds_run, logged_logged.
  by rewrite (write_file_denied _ _ _ f).
Qed.
End update_file_runs.

(** ** [update_file]: the claims *)

(** C5.  The two quote groups are independent: a call opened with a double
    quote and closed with a single quote is matched. *)
Theorem pattern_matches_mixed_quotes :
  ∃ m, finditer pattern ex_mixed_quotes = [m] ∧
       group m 0 = ex_mixed_quotes ∧
       group m 1 = [dquote] ∧ group m 3 = [squote] ∧ group m 1 ≠ group m 3.
Proof.
  eexists. split; [by vm_compute|]. by vm_compute.
Qed.

(** C1, as amended.  A file with exactly one match in its text as read is
    rewritten to that text with the match replaced by a call with the
    relative path from the file to the target: what stands before and after
    the match is the text as read, which is the text of the file with every
    line ending turned into a line feed, and the text of the file itself
    when it holds no carriage return.  No other file changes. *)
Theorem update_file_single_match (cwd : str) (w : world)
    (file_path correct_json_path : str) (f : file) (m : Match) :
  w_files w !! file_path = Some f → f_readable f = true → f_writable f = true →
  finditer pattern (universal_newlines (f_content f)) = [m] →
  ∃ rel w',
    calculate_relative_path cwd file_path correct_json_path = Some rel ∧
    update_file cwd file_path correct_json_path w = (w', inr ()) ∧
    universal_newlines (f_content f)
    = take (m_start m) (universal_newlines (f_content f)) ++ m_text m
      ++ drop (m_start m + length (m_text m)) (universal_newlines (f_content f)) ∧
    f_content <$> w_files w' !! file_path
    = Some (take (m_start m) (universal_newlines (f_content f)) ++ require_call rel
            ++ drop (m_start m + length (m_text m))
                 (universal_newlines (f_content f))) ∧
    (cr ∉ f_content f → universal_newlines (f_content f) = f_content f) ∧
    ∀ other, other ≠ file_path → w_files w' !! other = w_files w !! other.
Proof.
  intros Hf Hr Hw Hm.
  destruct (calculate_relative_path_total cwd file_path correct_json_path)
    as [rel Hrel].
  destruct (rewrite_text_single (require_call rel) _ _ Hm) as [Hsplit Hnew].
  eexists rel, _. split; [done|]. split.
  { apply (update_file_match cwd _ _ rel Hrel w f); try done.
    rewrite <- finditer_nl_nil. by rewrite Hm. }
  split; [done|]. split; [|split; [apply nl_id|]].
  - unfold logged, written. cbn [w_files]. rewrite lookup_insert_eq.
    cbn [fmap option_fmap option_map f_content]. by rewrite Hnew.
  - intros other Hne. unfold logged, written. cbn [w_files].
    by rewrite lookup_insert_ne.
Qed.

Lemma update_file_single_match_witness :
  ∃ rel w',
    calculate_relative_path (txt "/proj") ex_crlf ex_target = Some rel ∧
    update_file (txt "/proj") ex_crlf ex_target ex_crlf_world = (w', inr ()) ∧
    universal_newlines (f_content ex_crlf_file)
    = take (m_start ex_crlf_match) (universal_newlines (f_content ex_crlf_file))
      ++ m_text ex_crlf_match
      ++ drop (m_start ex_crlf_match + length (m_text ex_crlf_match))
           (universal_newlines (f_content ex_crlf_file)) ∧
    f_content <$> w_files w' !! ex_crlf
    = Some (take (m_start ex_crlf_match) (universal_newlines (f_content ex_crlf_file))
            ++ require_call rel
            ++ drop (m_start ex_crlf_match + length (m_text ex_crlf_match))
                 (universal_newlines (f_content ex_crlf_file))) ∧
    (cr ∉ f_content ex_crlf_file →
     universal_newlines (f_content ex_crlf_file) = f_content ex_crlf_file) ∧
    ∀ other, other ≠ ex_crlf → w_files w' !! other = w_files ex_crlf_world !! other.
Proof.
  apply (update_file_single_match (txt "/proj") ex_crlf_world ex_crlf ex_target
           ex_crlf_file ex_crlf_match).
  - vm_compute. reflexivity.
  - reflexivity.
  - reflexivity.
  - vm_compute. reflexivity.
Defined.

(** C1 as stated fails on a file with Windows line endings: the stored
    text holds one match, and the run leaves a text that is not the stored
    text with the match replaced, since every line ending has become a line
    feed. *)
Lemma update_file_single_match_crlf :
  finditer pattern (f_content ex_crlf_file)
  = [mkMatch 13 (txt "require('old/medicaid_rules_2025.json')")
       [[squote]; txt "old/"; [squote]]] ∧
  update_file (txt "/proj") ex_crlf ex_target ex_crlf_world
  = (snd_world_of_crlf_run, inr ()) ∧
  f_content <$> w_files snd_world_of_crlf_run !! ex_crlf
  = Some (txt "// data" ++ newline
          :: txt "x = require('src/data/medicaid_rules_2025.json');" ++ [newline]) ∧
  f_content <$> w_files snd_world_of_crlf_run !! ex_crlf
  ≠ Some (take 13 (f_content ex_crlf_file)
          ++ require_call (txt "src/data/medicaid_rules_2025.json")
          ++ drop (13 + length (txt "require('old/medicaid_rules_2025.json')"))
               (f_content ex_crlf_file)).
Proof. by vm_compute. Qed.

(** The example of the specification: the line of [src/app/main.ts] becomes
    [require('../data/medicaid_rules_2025.json')]. *)
Example update_file_spec_example :
  f_content <$>
    w_files (fst (update_file (txt "/proj") ex_main_ts
                    (txt "/proj/src/data/medicaid_rules_2025.json") ex_world))
      !! ex_main_ts
  = Some (txt "x = require('../data/medicaid_rules_2025.json');").
Proof. by vm_compute. Qed.


(** C3.  A readable file without a match is only read and reported: no write
    and the same files afterwards.  A write to the file implies a match; and
    when the file is writable a match implies the write. *)
Theorem update_file_writes_iff_match (cwd : str) (w : world)
    (file_path correct_json_path : str) (f : file) :
  w_files w !! file_path = Some f → f_readable f = true →
  ∃ w' r evs,
    update_file cwd file_path correct_json_path w = (w', r) ∧
    w_trace w' = w_trace w ++ evs ∧
    (finditer pattern (f_content f) = [] →
       r = inr () ∧ w_files w' = w_files w ∧
       evs = [EvRead file_path; EvPrint (report_no_match file_path)]) ∧
    ((∃ content, EvWrite file_path content ∈ evs) →
       finditer pattern (f_content f) ≠ []) ∧
    (f_writable f = true → finditer pattern (f_content f) ≠ [] →
       r = inr () ∧ ∃ content, EvWrite file_path content ∈ evs).
Proof.
  intros Hf Hr.
  destruct (calculate_relative_path_total cwd file_path correct_json_path)
    as [rel Hrel].
  destruct (finditer pattern (f_content f)) as [|m ms] eqn:Hm.
  - eexists _, _, _. split; [by apply (update_file_no_match cwd _ _ w f)|].
    split; [done|]. split; [done|]. split; [|done].
    intros [content Hin]. set_solver.
  - destruct (f_writable f) eqn:Hw.
    + eexists _, _, _. split.
      { apply (update_file_match cwd _ _ rel Hrel w f); try done. by rewrite Hm. }
      split.
      { unfold logged, written. cbn [w_trace]. by rewrite <- app_assoc. }
      split; [done|]. split; [done|]. intros _ _. split; [done|].
      eexists. apply elem_of_app. right. by apply list_elem_of_singleton.
    + eexists _, _, _. split.
      { apply (update_file_denied cwd _ _ rel Hrel w f); try done. by rewrite Hm. }
      split; [done|]. split; [done|]. split; [done|]. done.
Qed.

Lemma update_file_writes_iff_match_witness :
  ∃ w' r evs,
    update_file (txt "/proj") ex_main_ts
      (txt "/proj/src/data/medicaid_rules_2025.json") ex_world = (w', r) ∧
    w_trace w' = w_trace ex_world ++ evs ∧
    (finditer pattern (f_content ex_main_ts_file) = [] →
       r = inr () ∧ w_files w' = w_files ex_world ∧
       evs = [EvRead ex_main_ts; EvPrint (report_no_match ex_main_ts)]) ∧
    ((∃ content, EvWrite ex_main_ts content ∈ evs) →
       finditer pattern (f_content ex_main_ts_file) ≠ []) ∧
    (f_writable ex_main_ts_file = true →
     finditer pattern (f_content ex_main_ts_file) ≠ [] →
       r = inr () ∧ ∃ content, EvWrite ex_main_ts content ∈ evs).
Proof.
  apply (update_file_writes_iff_match (txt "/proj") ex_world ex_main_ts
           (txt "/proj/src/data/medicaid_rules_2025.json") ex_main_ts_file).
  - vm_compute. reflexivity.
  - reflexivity.
Defined.

Lemma require_call_no_cr rel : cr ∉ rel → cr ∉ require_call rel.
Proof.
  intros Hrel. unfold require_call.
  assert (cr ∉ txt "require('") as H1 by (apply (bool_decide_unpack _); by vm_compute).
  assert (cr ∉ txt "')") as H2 by (apply (bool_decide_unpack _); by vm_compute).
  set_solver.
Qed.

(** [update_file] with any target.  When the relative path holds no quote
    and no carriage return and does not end in [require(], a second run of
    [update_file] leaves every file as the first run left it. *)
Lemma update_file_twice (cwd : str) (w : world)
    (file_path correct_json_path : str) (f : file) (rel : str) :
  w_files w !! file_path = Some f → f_readable f = true → f_writable f = true →
  calculate_relative_path cwd file_path correct_json_path = Some rel →
  quote_free rel → endswith (txt "require(") rel = false → cr ∉ rel →
  ∃ w1 w2,
    update_file cwd file_path correct_json_path w = (w1, inr ()) ∧
    update_file cwd file_path correct_json_path w1 = (w2, inr ()) ∧
    w_files w2 = w_files w1.
Proof.
  intros Hf Hr Hw Hrel Hq Hend Hcr.
  destruct (require_call_settled rel Hq Hend) as [new Hnew].
  set (R := require_call rel) in *.
  assert (cr ∉ R) as HR by by apply require_call_no_cr.
  destruct (decide (finditer pattern (f_content f) = [])) as [Hm|Hm].
  - eexists _, _. split; [by apply (update_file_no_match cwd _ _ w f)|].
    split; [by apply (update_file_no_match cwd _ _ _ f)|]. done.
  - set (text := universal_newlines (f_content f)).
    pose proof (rewrite_text_idemp _ _ text Hnew) as Hidem.
    assert (cr ∉ rewrite_text R text) as Hfree
      by (apply rewrite_text_no_cr; [done|apply nl_no_cr]).
    set (f1 := mkFile (rewrite_text R text) (after_write (f_read f)) true).
    assert (f_readable f1 = true) as Hr1
      by (unfold f1, f_readable; cbn; by rewrite (f_readable_ok f Hr)).
    destruct (decide (finditer pattern (rewrite_text R text) = [])) as [Hm1|Hm1].
    + eexists _, _. split; [by apply (update_file_match cwd _ _ _ Hrel w f)|].
      split.
      { apply (update_file_no_match cwd _ _ _ f1); [|exact Hr1|exact Hm1].
        unfold logged, written. cbn [w_files]. by rewrite lookup_insert_eq. }
      done.
    + eexists _, _. split; [by apply (update_file_match cwd _ _ _ Hrel w f)|].
      split.
      { apply (update_file_match cwd _ _ _ Hrel _ f1); [|exact Hr1|done|exact Hm1].
        unfold logged, written. cbn [w_files]. by rewrite lookup_insert_eq. }
      unfold logged, written. cbn [w_files f1 f_content f_read].
      rewrite insert_insert_eq. fold text. rewrite (nl_id _ Hfree). fold R.
      rewrite Hidem. by rewrite (f_readable_ok f Hr).
Qed.

Example update_file_twice_example :
  ∃ w1 w2,
    update_file (txt "/proj") ex_main_ts
      (txt "/proj/src/data/medicaid_rules_2025.json") ex_world = (w1, inr ()) ∧
    update_file (txt "/proj") ex_main_ts
      (txt "/proj/src/data/medicaid_rules_2025.json") w1 = (w2, inr ()) ∧
    w_files w2 = w_files w1.
Proof.
  apply (update_file_twice (txt "/proj") ex_world ex_main_ts
           (txt "/proj/src/data/medicaid_rules_2025.json") ex_main_ts_file
           (txt "../data/medicaid_rules_2025.json")).
  - vm_compute. reflexivity.
  - reflexivity.
  - reflexivity.
  - vm_compute. reflexivity.
  - apply (bool_decide_unpack _). vm_compute. exact I.
  - vm_compute. reflexivity.
  - apply (bool_decide_unpack _). by vm_compute.
Qed.

(** The condition on the relative path is needed.  The script never passes
    such a target, but [update_file] called with a target in a directory
    named [require('a] inserts a call that holds a call of its own, and each
    run wraps it once more. *)
Remark update_file_odd_target :
  snd (update_file (txt "/") ex_odd_file ex_odd_target ex_odd_world) = inr () ∧
  snd (update_file (txt "/") ex_odd_file ex_odd_target
         (fst (update_file (txt "/") ex_odd_file ex_odd_target ex_odd_world)))
  = inr () ∧
  f_content <$>
    w_files (fst (update_file (txt "/") ex_odd_file ex_odd_target ex_odd_world))
      !! ex_odd_file
  = Some (txt "require('require('a/medicaid_rules_2025.json')") ∧
  f_content <$>
    w_files (fst (update_file (txt "/") ex_odd_file ex_odd_target
                    (fst (update_file (txt "/") ex_odd_file ex_odd_target
                            ex_odd_world))))
      !! ex_odd_file
  = Some (txt "require('require('require('a/medicaid_rules_2025.json')").
Proof. by vm_compute. Qed.

(** ** Loops and walks *)

Lemma tree_ind' (P : tree → Prop) :
  (∀ files subdirs, Forall (λ d, P (snd d)) subdirs → P (Dir files subdirs)) →
  ∀ t, P t.
Proof.
  intros H. fix IH 1. intros [files subdirs]. apply H.
  induction subdirs as [|d subdirs IHs]; constructor; [apply IH|apply IHs].
Qed.

Section loops.
Context {St : Type}.

Lemma ret_unfold {A} (a : A) (st : St) : (mret a : M St A) st = (st, inr a).
Proof. done. Qed.

Lemma for_each_app {A} (xs ys : list A) (body : A → M St unit) st :
  for_each (xs ++ ys) body st = (for_each xs body ≫= λ _, for_each ys body) st.
Proof.
  revert st. induction xs as [|x xs IH]; intros st; [done|].
  cbn [app for_each]. rewrite !bind_unfold.
  destruct (body x st) as [st' [e|[]]]; [done|]. by rewrite IH.
Qed.

Lemma for_each_ext {A} (xs : list A) (body body' : A → M St unit) st :
  (∀ x st', x ∈ xs → body x st' = body' x st') →
  for_each xs body st = for_each xs body' st.
Proof.
  revert st. induction xs as [|x xs IH]; intros st H; [done|].
  cbn [for_each]. rewrite !bind_unfold, H by set_solver.
  destruct (body' x st) as [st' [e|[]]]; [done|]. apply IH.
  intros y st'' Hy. apply H. set_solver.
Qed.

Lemma for_each_map {A B} (f : A → B) (xs : list A) (body : B → M St unit) st :
  for_each (map f xs) body st = for_each xs (λ x, body (f x)) st.
Proof.
  revert st. induction xs as [|x xs IH]; intros st; [done|].
  cbn [map for_each]. rewrite !bind_unfold.
  destruct (body (f x) st) as [st' [e|[]]]; [done|]. apply IH.
Qed.

Lemma for_each_concat {A B} (f : A → list B) (xs : list A)
    (body : B → M St unit) st :
  for_each (concat (map f xs)) body st
  = for_each xs (λ x, for_each (f x) body) st.
Proof.
  revert st. induction xs as [|x xs IH]; intros st; [done|].
  cbn [map concat for_each]. rewrite for_each_app, !bind_unfold.
  destruct (for_each (f x) body st) as [st' [e|[]]]; [done|]. apply IH.
Qed.

Lemma for_each_filter {A} (P : A → Prop) `{∀ x, Decision (P x)}
    (xs : list A) (body : A → M St unit) st :
  for_each (filter P xs) body st
  = for_each xs (λ x, if decide (P x) then body x else mret ()) st.
Proof.
  revert st. induction xs as [|x xs IH]; intros st; [done|].
  cbn [for_each]. rewrite filter_cons. destruct (decide (P x)).
  - cbn [for_each]. rewrite !bind_unfold.
    destruct (body x st) as [st' [e|[]]]; [done|]. apply IH.
  - rewrite bind_unfold, ret_unfold. apply IH.
Qed.
End loops.

Lemma assoc_map_NoDup {A B} (g : A → B) (l : list (str * A)) n a :
  NoDup (map fst l) → (n, a) ∈ l →
  assoc n (map (λ d, (fst d, g (snd d))) l) = Some (g a).
Proof.
  induction l as [|[n' a'] l IH]; [by intros _ ?%elem_of_nil|].
  cbn [map fst snd assoc]. intros Hnd Hin. apply NoDup_cons in Hnd as [Hn' Hnd].
  apply elem_of_cons in Hin as [[= -> ->]|Hin].
  - by rewrite decide_True.
  - rewrite decide_False; [by apply IH|].
    intros ->. apply Hn'. apply list_elem_of_In, in_map_iff.
    exists (n, a). split; [done|]. by apply list_elem_of_In.
Qed.

Lemma wf_tree_Dir files subdirs :
  wf_tree (Dir files subdirs) = true →
  NoDup (map fst subdirs) ∧
  Forall (λ d, plain_name (fst d) = true ∧ wf_tree (snd d) = true) subdirs.
Proof.
  cbn [wf_tree]. intros [Hnd Hall]%andb_true_iff.
  apply bool_decide_eq_true in Hnd. split; [done|].
  apply Forall_forall. intros d Hd%list_elem_of_In.
  rewrite forallb_forall in Hall. by apply andb_true_iff, Hall.
Qed.

Section walks.
Context {St : Type}.
Variable body : str → list str → list str → M St (list str).

Lemma walk_dir_unfold files subdirs top st :
  walk_dir body (Dir files subdirs) top st
  = (body top (map fst subdirs) files ≫= λ dirs,
     for_each dirs (λ dirname,
       match assoc dirname (map (λ d, (fst d, walk_dir body (snd d))) subdirs) with
       | Some descend => descend (posixpath.join top dirname)
       | None => mret ()
       end)) st.
Proof. done. Qed.

(** With distinct names, descending by name visits the subdirectories in
    order. *)
Lemma descend_all subdirs top st :
  NoDup (map fst subdirs) →
  for_each (map fst subdirs) (λ dirname,
    match assoc dirname (map (λ d, (fst d, walk_dir body (snd d))) subdirs) with
    | Some descend => descend (posixpath.join top dirname)
    | None => mret ()
    end) st
  = for_each subdirs (λ d, walk_dir body (snd d) (posixpath.join top (fst d))) st.
Proof.
  intros Hnd. rewrite for_each_map. apply for_each_ext.
  intros [n a] st' Hin. cbn [fst snd].
  by rewrite (assoc_map_NoDup (walk_dir body) subdirs n a).
Qed.
End walks.

(** ** [scan_and_update_files] *)

Section scan.
Variable cwd : str.
Variable correct_json_path : str.

Lemma scan_body_run root dirs files w :
  scan_body cwd correct_json_path root dirs files w
  = match for_each files
            (λ file, if is_source file
                     then update_file cwd (posixpath.join root file) correct_json_path
                     else mret ()) w with
    | (w', inr _) => (w', inr dirs)
    | (w', inl e) => (w', inl e)
    end.
Proof. done. Qed.

Lemma walk_scan t top w :
  wf_tree t = true →
  walk_dir (scan_body cwd correct_json_path) t top w
  = for_each (all_entries t top)
      (λ e, if is_source (snd e)
            then update_file cwd (posixpath.join (fst e) (snd e)) correct_json_path
            else mret ()) w.
Proof.
  revert top w. induction t as [files subdirs IH] using tree_ind'.
  intros top w [Hnd Hsub]%wf_tree_Dir.
  rewrite walk_dir_unfold, bind_unfold, scan_body_run. cbn [all_entries].
  rewrite for_each_app, bind_unfold, for_each_map. cbn [fst snd].
  destruct (for_each files _ w) as [w' [e|[]]]; [done|].
  rewrite descend_all by done.
  rewrite for_each_concat. apply for_each_ext. intros d w'' Hd.
  rewrite Forall_forall in IH. rewrite Forall_forall in Hsub.
  apply IH; [done|]. by apply Hsub.
Qed.

Lemma scan_candidates t base w :
  wf_tree t = true → base ≠ [] →
  scan_and_update_files cwd t base correct_json_path w
  = (print (scan_header cwd base) ≫= λ _,
     for_each (candidates t base) (λ p, update_file cwd p correct_json_path)) w.
Proof.
  intros Hwf Hbase. unfold scan_and_update_files, os_walk.
  rewrite bool_decide_eq_false_2 by done.
  rewrite !bind_unfold, print_run, walk_scan by done.
  unfold candidates. rewrite for_each_map, for_each_filter.
  apply for_each_ext. intros e w' _.
  destruct (is_source (snd e)); by destruct (decide _).
Qed.

Lemma update_reports_events p R ms : Forall (file_event p) (update_reports p R ms).
Proof.
  unfold update_reports. apply Forall_forall.
  intros e (m & <- & _)%list_elem_of_In%in_map_iff.
  right. right. left. eauto.
Qed.

(** [update_file] reads and writes the file it is given, and no other. *)
Lemma update_file_events p w w' r :
  update_file cwd p correct_json_path w = (w', r) →
  ∃ evs, w_trace w' = w_trace w ++ evs ∧ Forall (file_event p) evs ∧
         ∀ q, q ≠ p → w_files w' !! q = w_files w !! q.
Proof.
  destruct (calculate_relative_path_total cwd p correct_json_path) as [rel Hrel].
  destruct (w_files w !! p) as [f|] eqn:Hf.
  2:{ unfold update_file. rewrite bind_unfold, read_file_missing by done.
      intros [= <- <-]. exists []. by rewrite app_nil_r. }
  destruct (f_readable f) eqn:Hr.
  2:{ unfold update_file. rewrite bind_unfold, (read_file_unreadable _ _ f) by done.
      intros [= <- <-]. exists []. by rewrite app_nil_r. }
  destruct (decide (finditer pattern (f_content f) = [])) as [Hm|Hm].
  { rewrite (update_file_no_match cwd _ _ w f) by done. intros [= <- <-].
    eexists. split; [done|]. split; [|done].
    constructor; [by left|]. constructor; [by (right; right; right)|]. constructor. }
  destruct (f_writable f) eqn:Hw.
  - rewrite (update_file_match cwd _ _ rel Hrel w f) by done. intros [= <- <-].
    eexists. split.
    { unfold logged, written. cbn [w_trace]. by rewrite <- app_assoc. }
    split.
    + apply Forall_app. split.
      * constructor; [by left|apply update_reports_events].
      * constructor; [|constructor]. right. left. eauto.
    + intros q Hq. unfold logged, written. cbn [w_files].
      by rewrite lookup_insert_ne.
  - rewrite (update_file_denied cwd _ _ rel Hrel w f) by done. intros [= <- <-].
    eexists. split; [done|]. split; [|done].
    constructor; [by left|apply update_reports_events].
Qed.

Lemma for_each_update_events ps w w' r :
  for_each ps (λ p, update_file cwd p correct_json_path) w = (w', r) →
  ∃ evs, w_trace w' = w_trace w ++ evs ∧
         Forall (λ e, ∃ p, p ∈ ps ∧ file_event p e) evs ∧
         ∀ q, q ∉ ps → w_files w' !! q = w_files w !! q.
Proof.
  revert w. induction ps as [|p ps IH]; intros w.
  - intros [= <- <-]. exists []. by rewrite app_nil_r.
  - cbn [for_each]. rewrite bind_unfold.
    destruct (update_file cwd p correct_json_path w) as [w1 [e|[]]] eqn:Hp;
      apply update_file_events in Hp as (evs1 & Ht1 & He1 & Hf1).
    + intros [= <- <-]. exists evs1. split; [done|]. split.
      * eapply Forall_impl; [exact He1|]. intros ev Hev. exists p. set_solver.
      * intros q Hq. apply Hf1. set_solver.
    + intros (evs2 & Ht2 & He2 & Hf2)%IH. exists (evs1 ++ evs2). split.
      { by rewrite Ht2, Ht1, <- app_assoc. }
      split.
      * apply Forall_app. split.
        -- eapply Forall_impl; [exact He1|]. intros ev Hev. exists p. set_solver.
        -- eapply Forall_impl; [exact He2|]. intros ev (p' & ? & ?).
           exists p'. set_solver.
      * intros q Hq. rewrite Hf2, Hf1; set_solver.
Qed.
End scan.

Lemma file_event_touches p q e : file_event p e → q ≠ p → ¬ touches q e.
Proof.
  intros [H|[[c H]|[[a [b H]]|H]]] Hne; subst e; cbn; congruence.
Qed.

(** A name ends in an extension exactly when its joined path does. *)
Lemma endswith_join ext root file :
  sep ∉ ext → endswith ext (posixpath.join root file) = endswith ext file.
Proof.
  intros Hext.
  assert (∀ P, endswith ext (P ++ sep :: file) = endswith ext file) as Hsep.
  { intros P. destruct (endswith ext file) eqn:E.
    - apply endswith_true in E as [t ->]. apply endswith_true.
      exists (P ++ sep :: t). by rewrite <- app_assoc.
    - destruct (endswith ext (P ++ sep :: file)) eqn:E'; [|done].
      apply endswith_true in E' as [t E'].
      assert (endswith ext file = true); [|congruence].
      apply app_eq_inv in E' as [(k & -> & Ek)|(k & -> & Ek)].
      + subst ext. set_solver.
      + destruct k as [|x k].
        * cbn in Ek. subst ext. set_solver.
        * injection Ek as _ ->. apply endswith_app. }
  unfold posixpath.join. destruct (startswith [sep] file); [done|].
  destruct (bool_decide (root = [])) eqn:Hroot.
  { apply bool_decide_eq_true in Hroot as ->. done. }
  cbn [orb]. destruct (endswith [sep] root) eqn:Er; [|apply Hsep].
  apply endswith_true in Er as [P ->]. rewrite <- app_assoc. apply Hsep.
Qed.

Lemma is_source_join root file :
  is_source (posixpath.join root file) = is_source file.
Proof.
  unfold is_source. rewrite !endswith_join; [done|..];
    apply (bool_decide_unpack _); by vm_compute.
Qed.

Lemma candidates_source t top p : p ∈ candidates t top → is_source p = true.
Proof.
  unfold candidates. intros ([root file] & <- & Hin)%list_elem_of_In%in_map_iff.
  apply list_elem_of_In, list_elem_of_filter in Hin as [Hs _].
  by rewrite is_source_join.
Qed.

(** [update_file] raises only when the file cannot be read or written. *)
Lemma update_file_error cwd p correct_json_path w w' e :
  update_file cwd p correct_json_path w = (w', inl e) →
  (e = OSError p ∨ e = UnicodeDecodeError p) ∧
  (w_files w !! p = None ∨
   ∃ f, w_files w !! p = Some f ∧ (f_readable f = false ∨ f_writable f = false)).
Proof.
  destruct (calculate_relative_path_total cwd p correct_json_path) as [rel Hrel].
  destruct (w_files w !! p) as [f|] eqn:Hf.
  2:{ unfold update_file. rewrite bind_unfold, read_file_missing by done.
      intros [= <- <-]. auto. }
  destruct (f_readable f) eqn:Hr.
  2:{ unfold update_file. rewrite bind_unfold, (read_file_unreadable _ _ f) by done.
      intros [= <- <-]. split; [apply read_error_cases|]. right. exists f. auto. }
  destruct (decide (finditer pattern (f_content f) = [])) as [Hm|Hm].
  { by rewrite (update_file_no_match cwd _ _ w f). }
  destruct (f_writable f) eqn:Hw.
  - by rewrite (update_file_match cwd _ _ rel Hrel w f).
  - rewrite (update_file_denied cwd _ _ rel Hrel w f) by done.
    intros [= <- <-]. split; [by left|]. right. exists f. auto.
Qed.

Lemma file_event_not_completion p e :
  file_event p e → e ≠ EvPrint completion_message.
Proof.
  intros [H|[[c H]|[[a [b H]]|H]]]; subst e; done.
Qed.

Lemma scan_header_not_completion cwd base :
  EvPrint (scan_header cwd base) ≠ EvPrint completion_message.
Proof. by intros [= H]. Qed.

(** *** What a run of [update_file] reads *)

Lemma reads_app evs1 evs2 : reads (evs1 ++ evs2) = reads evs1 ++ reads evs2.
Proof. unfold reads. apply omap_app. Qed.

Lemma reads_update_reports p R ms : reads (update_reports p R ms) = [].
Proof. unfold update_reports. by induction ms as [|m ms IH]. Qed.

Lemma elem_of_reads p evs : p ∈ reads evs ↔ EvRead p ∈ evs.
Proof.
  unfold reads. rewrite list_elem_of_omap. split.
  - intros (e & He & Hp). destruct e; try done. by injection Hp as ->.
  - intros H. by exists (EvRead p).
Qed.

(** A run of [update_file] that returns has read its file, once; one that
    raises has read it once or not at all. *)
Lemma update_file_reads cwd p correct_json_path w w' r :
  update_file cwd p correct_json_path w = (w', r) →
  ∃ evs, w_trace w' = w_trace w ++ evs ∧
         (reads evs = [p] ∨ (reads evs = [] ∧ r ≠ inr ())).
Proof.
  destruct (calculate_relative_path_total cwd p correct_json_path) as [rel Hrel].
  destruct (w_files w !! p) as [f|] eqn:Hf.
  2:{ unfold update_file. rewrite bind_unfold, read_file_missing by done.
      intros [= <- <-]. exists []. rewrite app_nil_r. split; [done|by right]. }
  destruct (f_readable f) eqn:Hr.
  2:{ unfold update_file. rewrite bind_unfold, (read_file_unreadable _ _ f) by done.
      intros [= <- <-]. exists []. rewrite app_nil_r. split; [done|by right]. }
  destruct (decide (finditer pattern (f_content f) = [])) as [Hm|Hm].
  { rewrite (update_file_no_match cwd _ _ w f) by done. intros [= <- <-].
    eexists. split; [done|by left]. }
  destruct (f_writable f) eqn:Hw.
  - rewrite (update_file_match cwd _ _ rel Hrel w f) by done. intros [= <- <-].
    eexists. split.
    + unfold logged, written. cbn [w_trace]. by rewrite <- app_assoc.
    + left. cbn [app]. change (EvRead p :: ?l) with ([EvRead p] ++ l).
      by rewrite !reads_app, reads_update_reports.
  - rewrite (update_file_denied cwd _ _ rel Hrel w f) by done. intros [= <- <-].
    eexists. split; [done|]. left.
    change (EvRead p :: ?l) with ([EvRead p] ++ l).
    by rewrite reads_app, reads_update_reports.
Qed.

Lemma for_each_update_reads cwd correct_json_path ps w w' r :
  for_each ps (λ p, update_file cwd p correct_json_path) w = (w', r) →
  ∃ evs, w_trace w' = w_trace w ++ evs ∧
         reads evs `prefix_of` ps ∧ (r = inr () → reads evs = ps).
Proof.
  revert w. induction ps as [|p ps IH]; intros w.
  - intros [= <- <-]. exists []. by rewrite app_nil_r.
  - cbn [for_each]. rewrite bind_unfold.
    destruct (update_file cwd p correct_json_path w) as [wa [e|[]]] eqn:Hp.
    + intros [= <- <-].
      apply update_file_reads in Hp as (evs & Ht & [Hr|[Hr _]]);
        exists evs; (split; [done|]); rewrite Hr; (split; [|done]).
      * apply (prefix_cons p [] ps), prefix_nil.
      * apply prefix_nil.
    + intros (evs2 & Ht2 & Hpre & Hall)%IH.
      apply update_file_reads in Hp as (evs1 & Ht1 & [Hr|[_ ?]]); [|done].
      exists (evs1 ++ evs2). split; [by rewrite Ht2, Ht1, app_assoc|].
      rewrite reads_app, Hr. split.
      * by apply (prefix_cons p).
      * intros ->. by rewrite Hall.
Qed.

Lemma is_source_name file : is_source file = true ↔ source_name file.
Proof.
  unfold is_source, source_name. rewrite orb_true_iff, !endswith_true. split.
  - intros [[t ->]|[t ->]]; exists t; auto.
  - intros [t [->| ->]]; [left|right]; by exists t.
Qed.

(** C7.  Over a directory tree, [scan_and_update_files] prints its header
    and then visits the files under the root.  Whatever file it reads or
    writes is a file of the tree whose name ends in [.js] or [.ts].  The
    files read are, in the order of the walk, those files, up to the one at
    which the run stops if it does; a run that returns has read every one of
    them.  A file with another name is neither read nor written, and is left
    as it was. *)
Theorem scan_visits_exactly_sources (cwd : str) (t : tree)
    (base_dir correct_json_path : str) (w : world) :
  wf_tree t = true → base_dir ≠ [] →
  let run := scan_and_update_files cwd t base_dir correct_json_path w in
  ∃ evs,
    w_trace (fst run) = w_trace w ++ EvPrint (scan_header cwd base_dir) :: evs ∧
    (∀ path, (EvRead path ∈ evs ∨ ∃ content, EvWrite path content ∈ evs) →
       ∃ root file, (root, file) ∈ all_entries t base_dir ∧ source_name file ∧
                    path = posixpath.join root file) ∧
    reads evs `prefix_of` candidates t base_dir ∧
    (snd run = inr () →
       reads evs = candidates t base_dir ∧
       ∀ root file, (root, file) ∈ all_entries t base_dir → source_name file →
                    EvRead (posixpath.join root file) ∈ evs) ∧
    (∀ root file, (root, file) ∈ all_entries t base_dir → ¬ source_name file →
       w_files (fst run) !! posixpath.join root file
       = w_files w !! posixpath.join root file ∧
       Forall (λ e, ¬ touches (posixpath.join root file) e) evs).
Proof.
  intros Hwf Hbase. cbn zeta. rewrite scan_candidates by done.
  rewrite bind_unfold, print_run.
  destruct (for_each (candidates t base_dir) _ (logged w _)) as [w' r] eqn:Hrun.
  pose proof Hrun as (evs & Ht & Hev & Hfiles)%for_each_update_events.
  pose proof Hrun as (evs' & Ht' & Hpre & Hall)%for_each_update_reads.
  assert (evs' = evs) as -> by (rewrite Ht in Ht'; by apply app_inv_head in Ht').
  cbn [fst snd]. exists evs. split_and!.
  - rewrite Ht. unfold logged. cbn [w_trace]. by rewrite <- app_assoc.
  - intros path Hpath.
    assert (path ∈ candidates t base_dir) as Hin.
    { rewrite Forall_forall in Hev.
      destruct Hpath as [Hin|[content Hin]];
        destruct (Hev _ Hin) as (p & Hp & [He|[[c He]|[(a & b & He)|He]]]);
        try done; by injection He as ->. }
    unfold candidates in Hin.
    apply list_elem_of_In, in_map_iff in Hin as ([root file] & <- & Hin).
    apply list_elem_of_In, list_elem_of_filter in Hin as [Hs Hin].
    exists root, file. split; [done|]. split; [by apply is_source_name|done].
  - done.
  - intros Hr. split; [by apply Hall|]. intros root file Hin Hs.
    apply elem_of_reads. rewrite (Hall Hr). unfold candidates.
    apply list_elem_of_In, in_map_iff. exists (root, file). split; [done|].
    apply list_elem_of_In, list_elem_of_filter. split; [|done].
    by apply is_source_name.
  - intros root file Hin Hs.
    assert (posixpath.join root file ∉ candidates t base_dir) as Hnot.
    { intros Hc%candidates_source. rewrite is_source_join in Hc.
      by apply is_source_name in Hc. }
    split; [by rewrite Hfiles|].
    eapply Forall_impl; [exact Hev|]. intros e (p & Hp & He).
    eapply file_event_touches; [exact He|]. by intros <-.
Qed.

Lemma scan_visits_exactly_sources_witness :
  ∃ evs,
    w_trace (fst (scan_and_update_files (txt "/proj") ex_scan (txt ".") ex_target
                    ex_scan_world))
    = w_trace ex_scan_world ++ EvPrint (scan_header (txt "/proj") (txt ".")) :: evs ∧
    (∀ path, (EvRead path ∈ evs ∨ ∃ content, EvWrite path content ∈ evs) →
       ∃ root file, (root, file) ∈ all_entries ex_scan (txt ".") ∧ source_name file ∧
                    path = posixpath.join root file) ∧
    reads evs `prefix_of` candidates ex_scan (txt ".") ∧
    (snd (scan_and_update_files (txt "/proj") ex_scan (txt ".") ex_target
            ex_scan_world) = inr () →
       reads evs = candidates ex_scan (txt ".") ∧
       ∀ root file, (root, file) ∈ all_entries ex_scan (txt ".") → source_name file →
                    EvRead (posixpath.join root file) ∈ evs) ∧
    (∀ root file, (root, file) ∈ all_entries ex_scan (txt ".") → ¬ source_name file →
       w_files (fst (scan_and_update_files (txt "/proj") ex_scan (txt ".") ex_target
                       ex_scan_world)) !! posixpath.join root file
       = w_files ex_scan_world !! posixpath.join root file ∧
       Forall (λ e, ¬ touches (posixpath.join root file) e) evs).
Proof.
  apply (scan_visits_exactly_sources (txt "/proj") ex_scan (txt ".") ex_target
           ex_scan_world).
  - reflexivity.
  - discriminate.
Defined.

(** The run of the example returns; it reads [./a.js] and [./lib/c.ts], in
    this order, writes [./a.js], and leaves [./notes.txt], which holds a
    call too, as it was. *)
Example scan_example :
  let run := scan_and_update_files (txt "/proj") ex_scan (txt ".") ex_target
               ex_scan_world in
  snd run = inr () ∧
  reads (w_trace (fst run)) = [txt "./a.js"; txt "./lib/c.ts"] ∧
  f_content <$> w_files (fst run) !! txt "./a.js"
  = Some (txt "require('src/data/medicaid_rules_2025.json')") ∧
  f_content <$> w_files (fst run) !! txt "./notes.txt"
  = Some (txt "require('medicaid_rules_2025.json')").
Proof. by vm_compute. Qed.

(** C8.  When [update_file] raises on a candidate file (which it does only
    for a file that cannot be read or written, with the [OSError] of the
    file or, for content that does not decode, its [UnicodeDecodeError]),
    the exception ends [scan_and_update_files] and the script there: the
    state is the one the failing call left, no later candidate is read or
    written, and the completion message is not printed. *)
Theorem main_stops_at_failure (cwd : str) (t : tree) (w w1 w2 : world)
    (pre post : list str) (p : str) (e : exn) :
  wf_tree t = true →
  candidates t project_root = pre ++ p :: post →
  for_each pre (λ q, update_file cwd q (full_json_path cwd))
    (logged w [EvPrint (scan_header cwd project_root)]) = (w1, inr ()) →
  update_file cwd p (full_json_path cwd) w1 = (w2, inl e) →
  scan_and_update_files cwd t project_root (full_json_path cwd) w = (w2, inl e) ∧
  main cwd t w = (w2, inl e) ∧
  (e = OSError p ∨ e = UnicodeDecodeError p) ∧
  (EvPrint completion_message ∉ w_trace w →
   EvPrint completion_message ∉ w_trace w2) ∧
  ∀ q, q ∈ post → q ∉ pre → q ≠ p →
    w_files w2 !! q = w_files w !! q ∧
    ∃ evs, w_trace w2 = w_trace w ++ evs ∧ Forall (λ ev, ¬ touches q ev) evs.
Proof.
  intros Hwf Hcand Hpre Hp.
  assert (scan_and_update_files cwd t project_root (full_json_path cwd) w
          = (w2, inl e)) as Hscan.
  { rewrite scan_candidates by done. rewrite Hcand.
    rewrite bind_unfold, print_run, for_each_app, bind_unfold, Hpre.
    cbn [for_each]. by rewrite bind_unfold, Hp. }
  split; [done|]. split.
  { unfold main. fold (full_json_path cwd). by rewrite bind_unfold, Hscan. }
  split; [by apply update_file_error in Hp as [? _]|].
  apply for_each_update_events in Hpre as (evs1 & Ht1 & He1 & Hf1).
  apply update_file_events in Hp as (evs2 & Ht2 & He2 & Hf2).
  assert (w_trace w2 = w_trace w ++ EvPrint (scan_header cwd project_root) :: evs1 ++ evs2)
    as Ht.
  { rewrite Ht2, Ht1. unfold logged. cbn [w_trace]. by rewrite <- !app_assoc. }
  split.
  - intros Hw. rewrite Ht. intros [?|Hin]%elem_of_app; [done|].
    apply elem_of_cons in Hin as [Hin|Hin].
    { symmetry in Hin. by apply scan_header_not_completion in Hin. }
    apply elem_of_app in Hin as [Hin|Hin].
    + rewrite Forall_forall in He1. destruct (He1 _ Hin) as (q & _ & Hq).
      by apply file_event_not_completion in Hq.
    + rewrite Forall_forall in He2. by apply He2, file_event_not_completion in Hin.
  - intros q Hq Hnpre Hnp. split.
    { rewrite Hf2, Hf1 by done. done. }
    eexists. split; [exact Ht|].
    constructor; [by intros ?|]. apply Forall_app. split.
    + eapply Forall_impl; [exact He1|]. intros ev (p' & Hp' & Hev).
      eapply file_event_touches; [exact Hev|]. by intros ->.
    + eapply Forall_impl; [exact He2|]. intros ev Hev.
      by eapply file_event_touches.
Qed.

Lemma main_stops_at_failure_witness :
  scan_and_update_files (txt "/proj") ex_project project_root
    (full_json_path (txt "/proj")) ex_project_world
  = (logged ex_project_world [EvPrint (scan_header (txt "/proj") project_root)],
     inl (UnicodeDecodeError (txt "./a.js"))) ∧
  main (txt "/proj") ex_project ex_project_world
  = (logged ex_project_world [EvPrint (scan_header (txt "/proj") project_root)],
     inl (UnicodeDecodeError (txt "./a.js"))) ∧
  (UnicodeDecodeError (txt "./a.js") = OSError (txt "./a.js") ∨
   UnicodeDecodeError (txt "./a.js") = UnicodeDecodeError (txt "./a.js")) ∧
  (EvPrint completion_message ∉ w_trace ex_project_world →
   EvPrint completion_message
   ∉ w_trace (logged ex_project_world
                [EvPrint (scan_header (txt "/proj") project_root)])) ∧
  ∀ q, q ∈ [txt "./b.js"] → q ∉ [] → q ≠ txt "./a.js" →
    w_files (logged ex_project_world
               [EvPrint (scan_header (txt "/proj") project_root)]) !! q
    = w_files ex_project_world !! q ∧
    ∃ evs,
      w_trace (logged ex_project_world
                 [EvPrint (scan_header (txt "/proj") project_root)])
      = w_trace ex_project_world ++ evs ∧
      Forall (λ ev, ¬ touches q ev) evs.
Proof.
  apply (main_stops_at_failure (txt "/proj") ex_project ex_project_world
           (logged ex_project_world [EvPrint (scan_header (txt "/proj") project_root)])
           (logged ex_project_world [EvPrint (scan_header (txt "/proj") project_root)])
           [] [txt "./b.js"] (txt "./a.js") (UnicodeDecodeError (txt "./a.js"))).
  - reflexivity.
  - vm_compute. reflexivity.
  - reflexivity.
  - vm_compute. reflexivity.
Defined.

(** ** [print_tree] *)

Lemma count_char_app c a b : count_char c (a ++ b) = count_char c a + count_char c b.
Proof. unfold count_char. by rewrite filter_app, length_app. Qed.

Lemma count_char_absent c s : c ∉ s → count_char c s = 0.
Proof.
  unfold count_char. induction s as [|x s IH]; [done|].
  intros [Hx Hs]%not_elem_of_cons. rewrite filter_cons_False by done. by apply IH.
Qed.

Lemma plain_name_true n : plain_name n = true → n ≠ [] ∧ sep ∉ n.
Proof.
  unfold plain_name. intros [H1 H2]%andb_true_iff.
  apply negb_true_iff, bool_decide_eq_false in H1.
  by apply negb_true_iff, bool_decide_eq_false in H2.
Qed.

Lemma basename_join root n : sep ∉ n → posixpath.basename (root ++ sep :: n) = n.
Proof.
  intros Hn. unfold posixpath.basename. rewrite head_of_last_sep by done.
  change (root ++ sep :: n) with (root ++ [sep] ++ n).
  by rewrite app_assoc, drop_app_length.
Qed.

Lemma for_each_append {A} (xs : list A) (body : A → M str unit) (g : A → str) out :
  (∀ x out', x ∈ xs → body x out' = (out' ++ g x, inr ())) →
  for_each xs body out = (out ++ concat (map g xs), inr ()).
Proof.
  revert out. induction xs as [|x xs IH]; intros out H.
  - cbn. by rewrite app_nil_r.
  - cbn [for_each map concat]. rewrite bind_unfold, H by set_solver.
    rewrite IH by (intros; apply H; set_solver). by rewrite <- app_assoc.
Qed.

Section print_tree_facts.
Variable startpath : str.
Variable max_depth : nat.

Lemma print_tree_body_shallow root dirs files out :
  tree_depth startpath root < max_depth →
  print_tree_body startpath max_depth root dirs files out
  = (out ++ (repeat_str (txt "│   ") (tree_depth startpath root) ++ txt "├── "
             ++ posixpath.basename root ++ [sep; newline])
         ++ concat (map (λ file, repeat_str (txt "│   ") (tree_depth startpath root + 1)
                                   ++ file ++ [newline]) files),
     inr dirs).
Proof.
  intros Hd. unfold print_tree_body. rewrite bool_decide_eq_true_2 by done.
  rewrite bind_unfold. cbn [fwrite modify]. rewrite bind_unfold.
  rewrite (for_each_append files _
             (λ file, repeat_str (txt "│   ") (tree_depth startpath root + 1)
                      ++ file ++ [newline])) by done.
  rewrite ret_unfold. by rewrite <- !app_assoc.
Qed.

(** At [max_depth] nothing is written and the walk is told not to
    descend. *)
Lemma print_tree_body_deep root dirs files out :
  ¬ tree_depth startpath root < max_depth →
  print_tree_body startpath max_depth root dirs files out = (out, inr []).
Proof.
  intros Hd. unfold print_tree_body. by rewrite bool_decide_eq_false_2.
Qed.

(** When the root of the walk is [startpath] followed by [level]
    separator-led names, the code's depth is the nesting level, and the
    walk writes what [render] describes. *)
Lemma walk_print t root suffix out :
  wf_tree t = true →
  root = startpath ++ suffix → root ≠ [] → last root ≠ Some sep →
  walk_dir (print_tree_body startpath max_depth) t root out
  = (out ++ render max_depth (count_char sep suffix) (posixpath.basename root) t,
     inr ()).
Proof.
  revert root suffix out. induction t as [files subdirs IH] using tree_ind'.
  intros root suffix out [Hnd Hsub]%wf_tree_Dir -> Hne Hlast.
  assert (tree_depth startpath (startpath ++ suffix) = count_char sep suffix) as Hdepth.
  { unfold tree_depth. by rewrite drop_app_length. }
  rewrite walk_dir_unfold, bind_unfold. cbn [render].
  destruct (decide (count_char sep suffix < max_depth)) as [Hd|Hd].
  - rewrite print_tree_body_shallow by by rewrite Hdepth.
    rewrite bool_decide_eq_true_2 by done. rewrite Hdepth.
    rewrite descend_all by done.
    rewrite (for_each_append subdirs _
               (λ d, render max_depth (S (count_char sep suffix)) (fst d) (snd d))).
    { by rewrite <- !app_assoc. }
    intros [n sub] out' Hin. cbn [fst snd].
    rewrite Forall_forall in IH. rewrite Forall_forall in Hsub.
    destruct (Hsub _ Hin) as [[Hn1 Hn2]%plain_name_true Hwf]. cbn [fst snd] in *.
    rewrite join_plain by done.
    rewrite (IH _ Hin _ (suffix ++ sep :: n)); [| done | by rewrite <- app_assoc
                                                | by destruct startpath, suffix | ].
    + rewrite basename_join by done. rewrite count_char_app.
      assert (count_char sep (sep :: n) = 1) as ->.
      { change (sep :: n) with ([sep] ++ n).
        by rewrite count_char_app, (count_char_absent sep n). }
      cbn [snd]. do 3 f_equal. lia.
    + destruct n as [|x n _] using rev_ind; [done|].
      change (sep :: n ++ [x]) with ((sep :: n) ++ [x]).
      rewrite !app_assoc, last_snoc. intros [= ->]. set_solver.
  - rewrite print_tree_body_deep by by rewrite Hdepth.
    rewrite bool_decide_eq_false_2 by done. cbn. by rewrite app_nil_r.
Qed.
End print_tree_facts.

(** X9.  For a start path without a trailing separator, [print_tree] writes
    the directories at nesting levels below [max_depth], each with its
    files, in the order of the walk, and nothing else. *)
Lemma print_tree_by_level (t : tree) (startpath : str) (max_depth : nat) :
  wf_tree t = true → startpath ≠ [] → endswith [sep] startpath = false →
  print_tree t startpath max_depth
  = render max_depth 0 (posixpath.basename startpath) t.
Proof.
  intros Hwf Hne Hend. unfold print_tree, os_walk.
  rewrite bool_decide_eq_false_2 by done.
  rewrite (walk_print startpath max_depth t startpath []); try done.
  - by rewrite app_nil_r.
  - intros Hl%endswith_char. congruence.
Qed.

(** C10 at a start path with a trailing separator and [max_depth = 1]: the
    code counts no separator for the subdirectory [a], takes its depth to be
    0 like that of the start directory, and writes it and its file, though
    it lies one level down; without the trailing separator only the start
    directory is written. *)
Theorem print_tree_trailing_separator :
  tree_depth (txt "d/") (txt "d/a") = 0 ∧
  print_tree ex_tree (txt "d/") 1
  = txt "├── /" ++ newline :: txt "├── a/" ++ newline :: txt "│   f.txt" ++ [newline] ∧
  print_tree ex_tree (txt "d") 1 = txt "├── d/" ++ [newline] ∧
  render 1 0 (txt "d") ex_tree = txt "├── d/" ++ [newline].
Proof. by vm_compute. Qed.

(** ** The script's own run

    The script runs [scan_and_update_files] from [.] with the target
    [src/data/medicaid_rules_2025.json] under the working directory.  The
    relative path it computes for a file of the tree is then made of [..],
    [src], [data] and the target name only. *)

Lemma clean_name_true n : clean_name n = true → clean_comp n.
Proof.
  unfold clean_name. intros [[Hp H1]%andb_true_iff H2]%andb_true_iff.
  apply plain_name_true in Hp as [? ?].
  apply negb_true_iff, bool_decide_eq_false in H1.
  by apply negb_true_iff, bool_decide_eq_false in H2.
Qed.

Lemma clean_tree_Dir files subdirs :
  clean_tree (Dir files subdirs) = true →
  Forall clean_comp files ∧
  Forall (λ d, clean_comp (fst d) ∧ clean_tree (snd d) = true) subdirs.
Proof.
  cbn [clean_tree]. intros [Hf Hd]%andb_true_iff.
  rewrite forallb_forall in Hf. rewrite forallb_forall in Hd. split.
  - apply Forall_forall. intros f Hin%list_elem_of_In. by apply clean_name_true, Hf.
  - apply Forall_forall. intros d Hin%list_elem_of_In.
    apply Hd, andb_true_iff in Hin as [? ?]. split; [by apply clean_name_true|done].
Qed.

Lemma dir_path_cons top d dirs :
  dir_path (top ++ sep :: d) dirs = dir_path top (d :: dirs).
Proof. unfold dir_path. cbn. by rewrite <- app_assoc. Qed.

Lemma dir_path_snoc top dirs d :
  dir_path top dirs ++ sep :: d = dir_path top (dirs ++ [d]).
Proof.
  unfold dir_path. rewrite map_app, concat_app. cbn. by rewrite app_nil_r, <- app_assoc.
Qed.

Lemma split_sep_dir_path top dirs :
  Forall (λ c, sep ∉ c) dirs → split_sep (dir_path top dirs) = split_sep top ++ dirs.
Proof.
  intros H. revert top. induction H as [|d dirs Hd _ IH]; intros top.
  - unfold dir_path. cbn. by rewrite !app_nil_r.
  - rewrite <- dir_path_cons, IH, split_sep_app.
    rewrite (split_sep_plain d) by done. by rewrite <- app_assoc.
Qed.

Lemma dir_path_last top dirs :
  top ≠ [] → last top ≠ Some sep → clean dirs →
  dir_path top dirs ≠ [] ∧ last (dir_path top dirs) ≠ Some sep.
Proof.
  intros Hne Hl H. revert top Hne Hl. induction H as [|d dirs Hd _ IH]; intros top Hne Hl.
  - unfold dir_path. cbn. by rewrite app_nil_r.
  - rewrite <- dir_path_cons. destruct Hd as (Hd1 & _ & _ & Hd2). apply IH.
    + by destruct top.
    + destruct d as [|x d _] using rev_ind; [done|].
      change (sep :: d ++ [x]) with ((sep :: d) ++ [x]).
      rewrite app_assoc, last_snoc. intros [= ->]. set_solver.
Qed.

(** The directories of the walk are reached through clean names. *)
Lemma all_entries_paths t top root file :
  clean_tree t = true → top ≠ [] → last top ≠ Some sep →
  (root, file) ∈ all_entries t top →
  ∃ dirs, clean dirs ∧ clean_comp file ∧ root = dir_path top dirs.
Proof.
  revert top. induction t as [files subdirs IH] using tree_ind'.
  intros top [Hfiles Hsub]%clean_tree_Dir Hne Hl. cbn [all_entries].
  intros [Hin|Hin]%elem_of_app.
  - apply list_elem_of_In, in_map_iff in Hin as (f & [= <- <-] & Hf).
    exists []. split; [constructor|]. split.
    + rewrite Forall_forall in Hfiles. by apply Hfiles, list_elem_of_In.
    + unfold dir_path. cbn. by rewrite app_nil_r.
  - apply list_elem_of_In, in_concat in Hin as (l & Hl' & Hin).
    apply in_map_iff in Hl' as ([n sub] & <- & Hd). cbn [fst snd] in Hin.
    apply list_elem_of_In in Hd. rewrite Forall_forall in IH, Hsub.
    destruct (Hsub _ Hd) as [Hn Hsubt]. cbn [fst snd] in *.
    pose proof Hn as (Hn1 & _ & _ & Hn2).
    rewrite join_plain in Hin by done.
    destruct (IH _ Hd (top ++ sep :: n)) as (dirs & Hdirs & Hfile & ->);
      [done|by destruct top| |by apply list_elem_of_In|].
    + destruct n as [|x n _] using rev_ind; [done|].
      change (sep :: n ++ [x]) with ((sep :: n) ++ [x]).
      rewrite app_assoc, last_snoc. intros [= ->]. set_solver.
    + exists (n :: dirs). split; [by constructor|]. split; [done|].
      apply dir_path_cons.
Qed.

Section script_run.
Variable cwd : str.
Variable n : nat.
Variable cwd_comps : list str.
Hypothesis Hn : n = 1 ∨ n = 2.
Hypothesis Hcwd_comps : clean cwd_comps.
Hypothesis Hcwd : cwd = shaped n cwd_comps.

(** A relative path made of clean names lies under the working
    directory. *)
Lemma abspath_under dirs file :
  clean dirs → clean_comp file →
  posixpath.abspath cwd (posixpath.join (dir_path (txt ".") dirs) file)
  = shaped n (cwd_comps ++ dirs ++ [file]).
Proof.
  intros Hdirs Hfile. pose proof Hfile as (Hf1 & _ & _ & Hf2).
  destruct (dir_path_last (txt ".") dirs) as [Hne Hl]; [done..|].
  rewrite join_plain, dir_path_snoc by done.
  assert (startswith [sep] (dir_path (txt ".") (dirs ++ [file])) = false) as Hrel by done.
  unfold posixpath.abspath, posixpath.isabs. rewrite Hrel, Hcwd.
  rewrite normpath_join_shaped by done. f_equal.
  rewrite split_sep_dir_path.
  2:{ apply Forall_app. split.
      - eapply Forall_impl; [exact Hdirs|]. by intros ? (_ & _ & _ & ?).
      - by repeat constructor. }
  change (split_sep (txt ".")) with [posixpath.curdir]. cbn [app fold_left].
  rewrite norm_step_skip by auto.
  apply fold_norm_push. apply Forall_app. split; [done|].
  constructor; [done|constructor].
Qed.

Lemma correct_comps_clean : clean correct_comps.
Proof.
  unfold correct_comps. repeat constructor; try done;
    apply (bool_decide_unpack _); by vm_compute.
Qed.

Lemma full_json_path_shaped :
  full_json_path cwd = shaped n (cwd_comps ++ correct_comps).
Proof.
  unfold full_json_path.
  change (posixpath.join project_root correct_path)
    with (posixpath.join (dir_path (txt ".") [txt "src"; txt "data"]) target_filename).
  pose proof correct_comps_clean as Hc. unfold correct_comps in Hc.
  apply Forall_cons in Hc as [H1 Hc]. apply Forall_cons in Hc as [H2 Hc].
  apply Forall_cons in Hc as [H3 _].
  rewrite abspath_under; [done| |done].
  constructor; [done|]. constructor; [done|constructor].
Qed.
End script_run.

Lemma commonprefix_len_app (c a b : list str) :
  posixpath.commonprefix_len (c ++ a) (c ++ b)
  = length c + posixpath.commonprefix_len a b.
Proof. induction c as [|x c IH]; [done|]. cbn. by rewrite decide_True, IH. Qed.

Lemma rel_list_common (c a b : list str) : rel_list (c ++ a) (c ++ b) = rel_list a b.
Proof.
  unfold rel_list. rewrite commonprefix_len_app, length_app.
  rewrite drop_app_add' by done. f_equal. f_equal. lia.
Qed.

Lemma rel_text_common (c a b : list str) : rel_text (c ++ a) (c ++ b) = rel_text a b.
Proof. unfold rel_text. by rewrite rel_list_common. Qed.

Lemma correct_comps_tame c x : c ∈ correct_comps → x ∈ c → tame x.
Proof.
  assert (Forall (Forall (λ x, (x ∉ quotes) ∧ x ≠ backslash ∧ x ≠ "("%char ∧ x ≠ cr))
            correct_comps) as H
    by (apply (bool_decide_unpack _); by vm_compute).
  intros Hc Hx. rewrite Forall_forall in H. specialize (H c Hc).
  rewrite Forall_forall in H. by apply H.
Qed.

Lemma rel_text_tame dirs : Forall tame (rel_text dirs correct_comps).
Proof.
  apply Forall_forall. intros x [->|[->|(c & Hc & Hx)]]%elem_of_rel_text.
  - unfold tame. split_and!; [|done..]. apply (bool_decide_unpack _). by vm_compute.
  - unfold tame. split_and!; [|done..]. apply (bool_decide_unpack _). by vm_compute.
  - by eapply correct_comps_tame.
Qed.

Lemma tame_settled rel : Forall tame rel → ∃ new, settled (require_call rel) new.
Proof.
  intros H. apply require_call_settled.
  - eapply Forall_impl; [exact H|]. by intros ? [? _].
  - destruct (endswith _ _) eqn:E; [|done]. apply endswith_true in E as [t ->].
    apply Forall_app in H as [_ H].
    change (txt "require(") with (txt "require" ++ ["("%char]) in H.
    apply Forall_app in H as [_ H]. apply Forall_cons in H as [(_ & _ & ? & _) _]. done.
Qed.

Lemma tame_no_cr rel : Forall tame rel → cr ∉ rel.
Proof.
  intros H Hin. rewrite Forall_forall in H. by destruct (H _ Hin) as (_ & _ & _ & ?).
Qed.

Section script_rel.
Variable cwd : str.
Hypothesis Hcwd_abs : posixpath.isabs cwd = true.
Hypothesis Hcwd_norm : posixpath.normpath cwd = cwd.

(** For a file of the walk from [.], the relative path to the target is made
    of [..] and components of [correct_path]. *)
Lemma script_rel dirs file :
  clean dirs → clean_comp file →
  calculate_relative_path cwd (posixpath.join (dir_path (txt ".") dirs) file)
    (full_json_path cwd)
  = Some (rel_text dirs correct_comps).
Proof.
  intros Hdirs Hfile.
  destruct (normpath_abs cwd Hcwd_abs) as (n & cc & Hn & Hcc & Hshape).
  rewrite Hcwd_norm in Hshape.
  assert (clean (cc ++ correct_comps)) as Hto
    by (apply Forall_app; split; [done|apply correct_comps_clean]).
  rewrite (calculate_relative_path_comps cwd _ _ n n
             (cc ++ dirs ++ [file]) (cc ++ correct_comps)); try done.
  - rewrite app_assoc, removelast_last, rel_text_common.
    rewrite str_replace_char_absent; [done|].
    intros Hb. pose proof (rel_text_tame dirs) as Ht.
    rewrite Forall_forall in Ht. by destruct (Ht _ Hb) as (_ & ? & _).
  - apply Forall_app. split; [done|]. apply Forall_app. split; [done|].
    constructor; [done|constructor].
  - by apply (abspath_under cwd n cc).
  - rewrite (full_json_path_shaped cwd n cc) by done.
    by apply abspath_of_shaped.
Qed.

Lemma script_rel_settled t p :
  clean_tree t = true → p ∈ candidates t project_root →
  settles cwd (full_json_path cwd) p.
Proof.
  intros Ht. unfold candidates.
  intros ([root file] & <- & Hin)%list_elem_of_In%in_map_iff.
  apply list_elem_of_In, list_elem_of_filter in Hin as [_ Hin]. cbn [fst snd].
  apply all_entries_paths in Hin as (dirs & Hdirs & Hfile & ->); [|done..].
  destruct (tame_settled _ (rel_text_tame dirs)) as [new Hnew].
  exists (rel_text dirs correct_comps), new. split_and!; [|done|].
  - by apply script_rel.
  - apply tame_no_cr, rel_text_tame.
Qed.
End script_rel.

(** ** Running the script twice *)

Section twice.
Variable cwd : str.
Variable correct_json_path : str.

Lemma stable_files w w' p :
  w_files w' = w_files w →
  stable cwd correct_json_path w p → stable cwd correct_json_path w' p.
Proof. intros E (f & rel & Hf & H). exists f, rel. by rewrite E. Qed.

(** After [update_file] has returned, there is nothing left to do on the
    file. *)
Lemma update_file_stable_after p w w' :
  settles cwd correct_json_path p →
  update_file cwd p correct_json_path w = (w', inr ()) →
  stable cwd correct_json_path w' p.
Proof.
  intros (rel & new & Hrel & Hnew & Hcr).
  destruct (w_files w !! p) as [f|] eqn:Hf.
  2:{ unfold update_file. by rewrite bind_unfold, read_file_missing. }
  destruct (f_readable f) eqn:Hr.
  2:{ unfold update_file. by rewrite bind_unfold, (read_file_unreadable _ _ f). }
  destruct (decide (finditer pattern (f_content f) = [])) as [Hm|Hm].
  { rewrite (update_file_no_match cwd _ _ w f) by done. intros [= <-].
    exists f, rel. split_and!; [done..|]. by left. }
  destruct (f_writable f) eqn:Hw.
  - rewrite (update_file_match cwd _ _ rel Hrel w f) by done. intros [= <-].
    eexists _, rel. split_and!.
    + unfold logged, written. cbn [w_files]. apply lookup_insert_eq.
    + unfold f_readable. cbn. by rewrite (f_readable_ok f Hr).
    + done.
    + right. split; [done|]. cbn [f_content].
      rewrite nl_id; [by apply (rewrite_text_idemp _ new)|].
      apply rewrite_text_no_cr; [by apply require_call_no_cr|apply nl_no_cr].
  - by rewrite (update_file_denied cwd _ _ rel Hrel w f).
Qed.

(** A failing [update_file] changes no file, and fails again on the same
    files. *)
Lemma update_file_fail_again p w w' e wz :
  settles cwd correct_json_path p →
  update_file cwd p correct_json_path w = (w', inl e) →
  w_files wz = w_files w →
  w_files w' = w_files w ∧
  ∃ wz', update_file cwd p correct_json_path wz = (wz', inl e) ∧
         w_files wz' = w_files wz.
Proof.
  intros (rel & new & Hrel & _) Hrun Hz.
  destruct (w_files w !! p) as [f|] eqn:Hf.
  2:{ unfold update_file in *.
      rewrite bind_unfold, read_file_missing in Hrun by done.
      injection Hrun as <- <-. split; [done|]. exists wz.
      rewrite bind_unfold, read_file_missing by (by rewrite Hz). done. }
  destruct (f_readable f) eqn:Hr.
  2:{ unfold update_file in *.
      rewrite bind_unfold, (read_file_unreadable _ _ f) in Hrun by done.
      injection Hrun as <- <-. split; [done|]. exists wz.
      rewrite bind_unfold, (read_file_unreadable _ _ f) by (by rewrite ?Hz). done. }
  destruct (decide (finditer pattern (f_content f) = [])) as [Hm|Hm].
  { by rewrite (update_file_no_match cwd _ _ w f) in Hrun. }
  destruct (f_writable f) eqn:Hw.
  { by rewrite (update_file_match cwd _ _ rel Hrel w f) in Hrun. }
  rewrite (update_file_denied cwd _ _ rel Hrel w f) in Hrun by done.
  injection Hrun as <- <-. split; [done|]. eexists. split.
  - apply (update_file_denied cwd _ _ rel Hrel wz f); by rewrite ?Hz.
  - done.
Qed.

Lemma update_file_stable_keep p q w w' r :
  settles cwd correct_json_path p →
  update_file cwd p correct_json_path w = (w', r) →
  stable cwd correct_json_path w q → stable cwd correct_json_path w' q.
Proof.
  intros Hp Hrun Hq. destruct r as [e|[]].
  { apply (stable_files w); [|done].
    by apply (update_file_fail_again p w w' e w Hp Hrun). }
  destruct (decide (q = p)) as [->|Hne].
  - by eapply update_file_stable_after.
  - apply update_file_events in Hrun as (_ & _ & _ & Hfiles).
    destruct Hq as (f & rel & Hf & H). exists f, rel. by rewrite Hfiles.
Qed.

(** On a stable file [update_file] returns and changes no file. *)
Lemma stable_run p w :
  stable cwd correct_json_path w p →
  ∃ w', update_file cwd p correct_json_path w = (w', inr ()) ∧
        w_files w' = w_files w.
Proof.
  intros (f & rel & Hf & Hr & Hrel & H).
  destruct (decide (finditer pattern (f_content f) = [])) as [Hm|Hm].
  { eexists. split; [by apply (update_file_no_match cwd _ _ w f)|done]. }
  destruct H as [?|[Hw Hfix]]; [done|].
  eexists. split; [by apply (update_file_match cwd _ _ rel Hrel w f)|].
  unfold logged, written. cbn [w_files]. rewrite Hfix, (after_write_ok f Hr).
  apply insert_id. rewrite Hf. f_equal. destruct f. cbn in *. by subst.
Qed.

Lemma for_each_stable_keep ps q w w' r :
  (∀ p, p ∈ ps → settles cwd correct_json_path p) →
  for_each ps (λ p, update_file cwd p correct_json_path) w = (w', r) →
  stable cwd correct_json_path w q → stable cwd correct_json_path w' q.
Proof.
  revert w. induction ps as [|p ps IH]; intros w Hps.
  - by intros [= <- <-].
  - cbn [for_each]. rewrite bind_unfold.
    destruct (update_file cwd p correct_json_path w) as [wa [e|[]]] eqn:Hp.
    + intros [= <- <-]. eapply update_file_stable_keep; [|exact Hp]. apply Hps. set_solver.
    + intros Hrest Hq. apply (IH wa); [intros; apply Hps; set_solver|done|].
      eapply update_file_stable_keep; [|exact Hp|done]. apply Hps. set_solver.
Qed.

Lemma for_each_stable_after ps w w' :
  (∀ p, p ∈ ps → settles cwd correct_json_path p) →
  for_each ps (λ p, update_file cwd p correct_json_path) w = (w', inr ()) →
  ∀ q, q ∈ ps → stable cwd correct_json_path w' q.
Proof.
  revert w. induction ps as [|p ps IH]; intros w Hps.
  - intros _ q Hq. by apply elem_of_nil in Hq.
  - cbn [for_each]. rewrite bind_unfold.
    destruct (update_file cwd p correct_json_path w) as [wa [e|[]]] eqn:Hp; [done|].
    intros Hrest q Hq.
    destruct (decide (q ∈ ps)) as [Hin|Hnin].
    + apply (IH wa); [intros; apply Hps; set_solver|done..].
    + assert (q = p) as -> by set_solver.
      apply (for_each_stable_keep ps p wa w' (inr ()));
        [intros; apply Hps; set_solver|done|].
      eapply update_file_stable_after; [|exact Hp]. apply Hps. set_solver.
Qed.

Lemma for_each_stable_run ps w :
  (∀ p, p ∈ ps → stable cwd correct_json_path w p) →
  ∃ w', for_each ps (λ p, update_file cwd p correct_json_path) w = (w', inr ()) ∧
        w_files w' = w_files w.
Proof.
  revert w. induction ps as [|p ps IH]; intros w Hps.
  - by exists w.
  - destruct (stable_run p w) as (wa & Hp & Hfa); [apply Hps; set_solver|].
    destruct (IH wa) as (w' & Hrest & Hf').
    { intros q Hq. apply (stable_files w); [done|]. apply Hps. set_solver. }
    exists w'. split; [|congruence].
    cbn [for_each]. by rewrite bind_unfold, Hp.
Qed.
(** A walk that stopped at a failing file stops there again, and changes
    no file on the way. *)
Lemma for_each_fail_again ps w wa e wz :
  (∀ p, p ∈ ps → settles cwd correct_json_path p) →
  for_each ps (λ p, update_file cwd p correct_json_path) w = (wa, inl e) →
  w_files wz = w_files wa →
  ∃ wb, for_each ps (λ p, update_file cwd p correct_json_path) wz = (wb, inl e) ∧
        w_files wb = w_files wa.
Proof.
  revert w wz. induction ps as [|p ps IH]; intros w wz Hps; [done|].
  assert (settles cwd correct_json_path p) as Hsp by (apply Hps; set_solver).
  assert (∀ q, q ∈ ps → settles cwd correct_json_path q) as Hps'
    by (intros; apply Hps; set_solver).
  cbn [for_each]. rewrite !bind_unfold.
  destruct (update_file cwd p correct_json_path w) as [wm [e'|[]]] eqn:Hp.
  - intros [= <- <-] Hz.
    destruct (update_file_fail_again p w wm e' w Hsp Hp eq_refl) as (Hm & _).
    destruct (update_file_fail_again p w wm e' wz Hsp Hp) as (_ & wz' & Hrun & Hz').
    { congruence. }
    exists wz'. rewrite Hrun. split; [done|congruence].
  - intros Hrest Hz.
    assert (stable cwd correct_json_path wz p) as Hst.
    { apply (stable_files wa); [done|].
      apply (for_each_stable_keep ps p wm wa (inl e) Hps' Hrest).
      by apply (update_file_stable_after p w wm). }
    destruct (stable_run p wz Hst) as (wz' & Hrun & Hz').
    rewrite Hrun. apply (IH wm wz' Hps' Hrest). congruence.
Qed.
(** [update_file] run a second time on a file ends as the first run did
    and changes no file. *)
Lemma update_file_again p w w1 r :
  settles cwd correct_json_path p →
  update_file cwd p correct_json_path w = (w1, r) →
  ∃ w2, update_file cwd p correct_json_path w1 = (w2, r) ∧
        w_files w2 = w_files w1.
Proof.
  intros Hp Hrun. destruct r as [e|[]].
  - destruct (update_file_fail_again p w w1 e w Hp Hrun eq_refl) as (Hm & _).
    by destruct (update_file_fail_again p w w1 e w1 Hp Hrun Hm) as (_ & H).
  - apply stable_run. by apply (update_file_stable_after p w).
Qed.
End twice.

(** The script run a second time.  The working directory is an absolute,
    normalised path and the names in the tree are those of a directory
    listing.  Whatever the first run did, the second run ends in the same
    way and changes no file. *)
Lemma main_twice (cwd : str) (t : tree) (w w1 : world) (r : exn + unit) :
  posixpath.isabs cwd = true → posixpath.normpath cwd = cwd →
  wf_tree t = true → clean_tree t = true →
  main cwd t w = (w1, r) →
  ∃ w2, main cwd t w1 = (w2, r) ∧ w_files w2 = w_files w1.
Proof.
  intros Habs Hnorm Hwf Hclean.
  assert (∀ w0, main cwd t w0
            = let (st', s) :=
                for_each (candidates t project_root)
                  (λ p, update_file cwd p (full_json_path cwd))
                  (logged w0 [EvPrint (scan_header cwd project_root)]) in
              match s with
              | inl e => (st', inl e)
              | inr _ => print completion_message st'
              end) as Hmain.
  { intros w0. unfold main. fold (full_json_path cwd).
    rewrite !bind_unfold, scan_candidates by done.
    rewrite !bind_unfold, !print_run.
    reflexivity. }
  assert (∀ q, q ∈ candidates t project_root →
            settles cwd (full_json_path cwd) q) as Hsettles.
  { intros q Hq. by eapply script_rel_settled. }
  rewrite !Hmain.
  destruct (for_each (candidates t project_root) _ (logged w _))
    as [wa [e|[]]] eqn:Hrun.
  - intros [= <- <-].
    destruct (for_each_fail_again cwd _ _ _ _ _
                (logged wa [EvPrint (scan_header cwd project_root)])
                Hsettles Hrun) as (wb & Hrun2 & Hfiles); [done|].
    rewrite Hrun2. by exists wb.
  - rewrite print_run. intros [= <- <-].
    assert (∀ p, p ∈ candidates t project_root →
              stable cwd (full_json_path cwd)
                (logged (logged wa [EvPrint completion_message])
                   [EvPrint (scan_header cwd project_root)]) p) as Hstable.
    { intros p Hp. apply (stable_files cwd _ wa); [done|].
      eapply for_each_stable_after; [exact Hsettles|exact Hrun|exact Hp]. }
    destruct (for_each_stable_run cwd _ _ _ Hstable) as (wb & Hrun2 & Hfiles).
    rewrite Hrun2, print_run. eexists. split; [done|].
    unfold logged in *. cbn [w_files] in *. done.
Qed.

(** C4.  In the script's run (working directory absolute and normalised,
    names of the tree those of a directory listing, target
    [src/data/medicaid_rules_2025.json]) the rewrite is idempotent: for every
    candidate file the relative path is computed, the text transformation
    applied twice to any content gives what it gives applied once, a second
    [update_file] ends as the first did and changes no file, and so does a
    second run of the whole script. *)
Theorem second_run_changes_nothing (cwd : str) (t : tree) :
  posixpath.isabs cwd = true → posixpath.normpath cwd = cwd →
  wf_tree t = true → clean_tree t = true →
  (∀ p, p ∈ candidates t project_root →
     ∃ rel,
       calculate_relative_path cwd p (full_json_path cwd) = Some rel ∧
       ∀ content,
         rewrite_text (require_call rel) (rewrite_text (require_call rel) content)
         = rewrite_text (require_call rel) content) ∧
  (∀ p w w1 r, p ∈ candidates t project_root →
     update_file cwd p (full_json_path cwd) w = (w1, r) →
     ∃ w2, update_file cwd p (full_json_path cwd) w1 = (w2, r) ∧
           w_files w2 = w_files w1) ∧
  (∀ w w1 r, main cwd t w = (w1, r) →
     ∃ w2, main cwd t w1 = (w2, r) ∧ w_files w2 = w_files w1).
Proof.
  intros Habs Hnorm Hwf Hclean. split_and!.
  - intros p Hp.
    destruct (script_rel_settled cwd Habs Hnorm t p Hclean Hp)
      as (rel & new & Hrel & Hnew & _).
    exists rel. split; [done|]. intros content.
    by apply (rewrite_text_idemp _ new).
  - intros p w w1 r Hp. apply update_file_again.
    by eapply script_rel_settled.
  - intros w w1 r. by apply main_twice.
Qed.

Lemma second_run_changes_nothing_witness :
  (∀ p, p ∈ candidates ex_project project_root →
     ∃ rel,
       calculate_relative_path (txt "/proj") p (full_json_path (txt "/proj"))
       = Some rel ∧
       ∀ content,
         rewrite_text (require_call rel) (rewrite_text (require_call rel) content)
         = rewrite_text (require_call rel) content) ∧
  (∀ p w w1 r, p ∈ candidates ex_project project_root →
     update_file (txt "/proj") p (full_json_path (txt "/proj")) w = (w1, r) →
     ∃ w2, update_file (txt "/proj") p (full_json_path (txt "/proj")) w1 = (w2, r) ∧
           w_files w2 = w_files w1) ∧
  (∀ w w1 r, main (txt "/proj") ex_project w = (w1, r) →
     ∃ w2, main (txt "/proj") ex_project w1 = (w2, r) ∧ w_files w2 = w_files w1).
Proof.
  apply (second_run_changes_nothing (txt "/proj") ex_project).
  - reflexivity.
  - vm_compute. reflexivity.
  - reflexivity.
  - reflexivity.
Defined.

Example main_rerun_example :
  let w1 := fst (main (txt "/proj") ex_rerun ex_rerun_world) in
  let w2 := fst (main (txt "/proj") ex_rerun w1) in
  f_content <$> w_files w1 !! txt "./b.js"
  = Some (txt "x = require('src/data/medicaid_rules_2025.json');") ∧
  f_content <$> w_files w1 !! txt "./lib/c.ts"
  = Some (txt "y = require('../src/data/medicaid_rules_2025.json')") ∧
  f_content <$> w_files w2 !! txt "./b.js" = f_content <$> w_files w1 !! txt "./b.js" ∧
  f_content <$> w_files w2 !! txt "./lib/c.ts"
  = f_content <$> w_files w1 !! txt "./lib/c.ts".
Proof. by vm_compute. Qed.

(** * Further properties *)

(** ** The pattern *)

(** X1.  The pattern matches at the head of a text exactly when the text
    begins with [require(], a quote, a run without quotes that ends in the
    target name, a quote and [)]; the match is that call, and the groups are
    the first quote, the run before the target name and the second quote.
    The two quotes need not be the same. *)
Theorem pattern_matches_exactly (s t : str) (g : list str) :
  match_here pattern s = Some (t, g) ↔
  ∃ q1 old_path q2 rest,
    q1 ∈ quotes ∧ q2 ∈ quotes ∧ quote_free old_path ∧
    s = txt "require(" ++ q1 :: old_path ++ target_filename ++ q2 :: ")"%char :: rest ∧
    t = txt "require(" ++ q1 :: old_path ++ target_filename ++ [q2; ")"%char] ∧
    g = [[q1]; old_path; [q2]].
Proof.
  rewrite match_here_Some. split.
  - intros [Hm [rest ->]]. destruct Hm as [q1 X q2 H1 H2 HX].
    exists q1, X, q2, rest. split_and!; try done. by rewrite match_text_app.
  - intros (q1 & X & q2 & rest & H1 & H2 & HX & -> & -> & ->).
    split; [by apply (IsMatch q1 X q2)|]. exists rest.
    fold (match_text q1 X q2). by rewrite match_text_app.
Qed.

(** ** Replacing the matches in place *)

Lemma matches_of_head_start ks pos m :
  head (matches_of pos ks) = Some m → pos ≤ m_start m.
Proof.
  revert pos. induction ks as [|[c|t g] ks IH]; intros pos; cbn; [done| |].
  - intros H%IH. lia.
  - by intros [= <-].
Qed.

Lemma splice_gap R pos ms c s :
  (∀ m, head ms = Some m → pos < m_start m) →
  splice R pos ms (c :: s) = c :: splice R (S pos) ms s.
Proof.
  destruct ms as [|m ms]; [done|]. intros H. specialize (H m eq_refl).
  cbn [splice]. replace (m_start m - pos) with (S (m_start m - S pos)) by lia.
  done.
Qed.

Lemma splice_tokens R new ks pos :
  flatten new = R →
  splice R pos (matches_of pos ks) (flatten ks) = flatten (flat_map (all_hits new) ks).
Proof.
  intros HR. revert pos. induction ks as [|[c|t g] ks IH]; intros pos; [done| |].
  - cbn [matches_of flat_map all_hits app]. rewrite !flatten_gap.
    rewrite splice_gap; [by rewrite IH|].
    intros m Hm%matches_of_head_start. lia.
  - cbn [matches_of flat_map all_hits splice m_start m_text]. rewrite flatten_hit.
    rewrite flatten_app, HR. replace (pos - pos) with 0 by lia.
    cbn [take Nat.add]. rewrite drop_app_length. by rewrite IH.
Qed.

(** The loop of [str.replace] calls gives what replacing each match where it
    stands gives. *)
Lemma rewrite_text_splice R new content :
  settled R new →
  rewrite_text R content = splice R 0 (finditer pattern content) content.
Proof.
  intros HR. destruct (tokenized_exists content) as (ks & Hks & <-).
  rewrite (rewrite_text_tokens R new) by done.
  unfold finditer. rewrite finditer_tokenized by done.
  symmetry. apply splice_tokens. by eapply settled_flatten.
Qed.

Lemma matches_of_gaps (u : str) ks pos :
  matches_of pos (map Gap u ++ ks) = matches_of (pos + length u) ks.
Proof.
  revert pos. induction u as [|c u IH]; intros pos.
  - cbn. by rewrite Nat.add_0_r.
  - cbn [map app matches_of length]. rewrite IH. f_equal. lia.
Qed.

Lemma matches_of_all_hits R new ks pos m :
  settled R new →
  m ∈ matches_of pos (flat_map (all_hits new) ks) → m_text m = R.
Proof.
  intros HR. revert pos. induction ks as [|[c|t g] ks IH]; intros pos.
  - by intros ?%elem_of_nil.
  - cbn [flat_map all_hits app matches_of]. apply IH.
  - cbn [flat_map all_hits]. destruct HR as [_ [(g' & _ & ->)|[-> _]]].
    + cbn [app matches_of]. intros [->|H]%elem_of_cons; [done|]. by eapply IH.
    + rewrite matches_of_gaps. apply IH.
Qed.

(** After the loop, every match left in the text is the call that was
    inserted. *)
Lemma rewrite_text_matches R new content m :
  settled R new →
  m ∈ finditer pattern (rewrite_text R content) → m_text m = R.
Proof.
  intros HR. destruct (tokenized_exists content) as (ks & Hks & <-).
  rewrite (rewrite_text_tokens R new) by done.
  unfold finditer. rewrite finditer_tokenized.
  - by apply matches_of_all_hits.
  - apply tokenized_flat_map; [done|]. by eapply hit_map_all.
Qed.

(** ** [update_file] on any number of matches *)

(** A run of [update_file] that returns: what the file holds afterwards,
    and that no other file changes. *)
Lemma update_file_content cwd file_path correct_json_path w f rel :
  w_files w !! file_path = Some f → f_readable f = true →
  finditer pattern (f_content f) = [] ∨ f_writable f = true →
  calculate_relative_path cwd file_path correct_json_path = Some rel →
  ∃ w' f',
    update_file cwd file_path correct_json_path w = (w', inr ()) ∧
    w_files w' !! file_path = Some f' ∧
    f_content f' = updated_text (require_call rel) (f_content f) ∧
    f_read f' = f_read f ∧
    f_writable f' = f_writable f ∧
    ∀ q, q ≠ file_path → w_files w' !! q = w_files w !! q.
Proof.
  intros Hf Hr Hok Hrel. unfold updated_text.
  destruct (decide (finditer pattern (f_content f) = [])) as [Hm|Hm].
  - eexists _, f. split; [by apply (update_file_no_match cwd _ _ w f)|].
    rewrite bool_decide_eq_true_2 by done. split_and!; done.
  - destruct Hok as [?|Hw]; [done|].
    rewrite bool_decide_eq_false_2 by done.
    eexists _, _. split; [by apply (update_file_match cwd _ _ rel Hrel w f)|].
    unfold logged, written. cbn [w_files]. split_and!.
    + apply lookup_insert_eq.
    + done.
    + cbn. by apply after_write_ok.
    + done.
    + intros q Hq. by rewrite lookup_insert_ne.
Qed.

Lemma updated_text_no_match R content :
  finditer pattern (universal_newlines content) = [] →
  updated_text R content = content.
Proof.
  rewrite finditer_nl_nil. intros H. unfold updated_text.
  by rewrite bool_decide_eq_true_2 by done.
Qed.

Lemma updated_text_match R content :
  finditer pattern (universal_newlines content) ≠ [] →
  updated_text R content = rewrite_text R (universal_newlines content).
Proof.
  intros H. unfold updated_text. rewrite bool_decide_eq_false_2; [done|].
  by rewrite <- finditer_nl_nil.
Qed.

(** X2.  A readable, writable file with any number of matches: when the
    relative path holds no quote and does not end in [require(],
    [update_file] returns.  A file without a match is left as it is.
    Otherwise the file then holds its text as read, which is its text with
    every line ending turned into a line feed, with every match replaced,
    where it stands, by [require('rel')]; what lies between the matches is
    that text.  For a file without a carriage return the text as read is the
    text of the file. *)
Theorem update_file_replaces_in_place (cwd : str) (w : world)
    (file_path correct_json_path : str) (f : file) (rel : str) :
  w_files w !! file_path = Some f → f_readable f = true → f_writable f = true →
  calculate_relative_path cwd file_path correct_json_path = Some rel →
  quote_free rel → endswith (txt "require(") rel = false →
  ∃ w',
    update_file cwd file_path correct_json_path w = (w', inr ()) ∧
    (finditer pattern (universal_newlines (f_content f)) = [] →
     w_files w' = w_files w) ∧
    (finditer pattern (universal_newlines (f_content f)) ≠ [] →
     f_content <$> w_files w' !! file_path
     = Some (splice (require_call rel) 0
               (finditer pattern (universal_newlines (f_content f)))
               (universal_newlines (f_content f)))) ∧
    (cr ∉ f_content f → universal_newlines (f_content f) = f_content f).
Proof.
  intros Hf Hr Hw Hrel Hq Hend.
  destruct (require_call_settled rel Hq Hend) as [new Hnew].
  destruct (decide (finditer pattern (f_content f) = [])) as [Hm|Hm].
  - eexists. split; [by apply (update_file_no_match cwd _ _ w f)|].
    split_and!; [done| |apply nl_id].
    intros Hm'. by rewrite finditer_nl_nil in Hm'.
  - eexists. split; [by apply (update_file_match cwd _ _ rel Hrel w f)|].
    split_and!; [|intros _|apply nl_id].
    + intros Hm'. by rewrite finditer_nl_nil in Hm'.
    + unfold logged, written. cbn [w_files]. rewrite lookup_insert_eq. cbn.
      by rewrite (rewrite_text_splice _ new).
Qed.

Lemma update_file_replaces_in_place_witness :
  ∃ w',
    update_file (txt "/proj") ex_crlf ex_target ex_crlf_world = (w', inr ()) ∧
    (finditer pattern (universal_newlines (f_content ex_crlf_file)) = [] →
     w_files w' = w_files ex_crlf_world) ∧
    (finditer pattern (universal_newlines (f_content ex_crlf_file)) ≠ [] →
     f_content <$> w_files w' !! ex_crlf
     = Some (splice (require_call (txt "src/data/medicaid_rules_2025.json")) 0
               (finditer pattern (universal_newlines (f_content ex_crlf_file)))
               (universal_newlines (f_content ex_crlf_file)))) ∧
    (cr ∉ f_content ex_crlf_file →
     universal_newlines (f_content ex_crlf_file) = f_content ex_crlf_file).
Proof.
  apply (update_file_replaces_in_place (txt "/proj") ex_crlf_world ex_crlf ex_target
           ex_crlf_file (txt "src/data/medicaid_rules_2025.json")).
  - vm_compute. reflexivity.
  - reflexivity.
  - reflexivity.
  - vm_compute. reflexivity.
  - apply (bool_decide_unpack _). vm_compute. exact I.
  - vm_compute. reflexivity.
Defined.

Example update_file_two_calls_example :
  splice (require_call (txt "../src/data/medicaid_rules_2025.json")) 0
    (finditer pattern (f_content ex_two_file)) (f_content ex_two_file)
  = txt "a = require('../src/data/medicaid_rules_2025.json'); b = require('../src/data/medicaid_rules_2025.json') + 1" ∧
  f_content <$>
    w_files (fst (update_file (txt "/proj") ex_two ex_target ex_two_world)) !! ex_two
  = Some (txt "a = require('../src/data/medicaid_rules_2025.json'); b = require('../src/data/medicaid_rules_2025.json') + 1") ∧
  f_content <$>
    w_files (fst (update_file (txt "/proj") ex_crlf ex_target ex_crlf_world)) !! ex_crlf
  = Some (txt "// data" ++ newline
          :: txt "x = require('src/data/medicaid_rules_2025.json');" ++ [newline]).
Proof. by vm_compute. Qed.

(** X3.  Under the same conditions, every match the pattern finds in the
    file after [update_file] is the inserted call [require('rel')]: no call
    with another path to the target name is left. *)
Theorem update_file_leaves_only_new_calls (cwd : str) (w : world)
    (file_path correct_json_path : str) (f : file) (rel : str) :
  w_files w !! file_path = Some f → f_readable f = true → f_writable f = true →
  calculate_relative_path cwd file_path correct_json_path = Some rel →
  quote_free rel → endswith (txt "require(") rel = false →
  ∃ w' f',
    update_file cwd file_path correct_json_path w = (w', inr ()) ∧
    w_files w' !! file_path = Some f' ∧
    ∀ m, m ∈ finditer pattern (f_content f') → m_text m = require_call rel.
Proof.
  intros Hf Hr Hw Hrel Hq Hend.
  destruct (require_call_settled rel Hq Hend) as [new Hnew].
  destruct (update_file_content cwd file_path correct_json_path w f rel)
    as (w' & f' & Hrun & Hf' & Hc & _); [done|done|by right|done|].
  exists w', f'. split_and!; [done..|]. rewrite Hc. unfold updated_text.
  destruct (decide (finditer pattern (f_content f) = [])) as [Hm|Hm].
  - rewrite bool_decide_eq_true_2 by done. rewrite Hm. by intros m ?%elem_of_nil.
  - rewrite bool_decide_eq_false_2 by done. intros m.
    by apply (rewrite_text_matches _ new).
Qed.

Lemma update_file_leaves_only_new_calls_witness :
  ∃ w' f',
    update_file (txt "/proj") ex_two ex_target ex_two_world = (w', inr ()) ∧
    w_files w' !! ex_two = Some f' ∧
    ∀ m, m ∈ finditer pattern (f_content f') →
         m_text m = require_call (txt "../src/data/medicaid_rules_2025.json").
Proof.
  apply (update_file_leaves_only_new_calls (txt "/proj") ex_two_world ex_two
           ex_target ex_two_file (txt "../src/data/medicaid_rules_2025.json")).
  - vm_compute. reflexivity.
  - reflexivity.
  - reflexivity.
  - vm_compute. reflexivity.
  - apply (bool_decide_unpack _). vm_compute. exact I.
  - vm_compute. reflexivity.
Defined.

(** ** The call that is inserted *)

Lemma require_call_quotes rel q1 X q2 :
  match_text q1 X q2 = require_call rel → q1 = squote ∧ q2 = squote.
Proof.
  unfold match_text, require_call. intros E.
  assert (q1 :: X ++ target_filename ++ [q2; ")"%char] = squote :: rel ++ txt "')")
    as E1 by (by apply (app_inv_head (txt "require("))).
  assert (q1 = squote) as -> by (by injection E1).
  assert (X ++ target_filename ++ [q2; ")"%char] = rel ++ txt "')") as E2
    by (by injection E1).
  split; [done|].
  replace (X ++ target_filename ++ [q2; ")"%char])
    with (((X ++ target_filename) ++ [q2]) ++ [")"%char]) in E2
    by (by rewrite <- !app_assoc).
  replace (rel ++ txt "')") with ((rel ++ [squote]) ++ [")"%char]) in E2
    by (by rewrite <- app_assoc).
  apply app_inj_tail in E2 as [E3 _]. by apply app_inj_tail in E3 as [_ ->].
Qed.

(** C9.  In a run of [update_file] on a readable, writable file, every
    match found in the text read is reported with the same replacement,
    [require('rel')] in single quotes, where [rel] is the relative path from
    the file to the target: neither the matched path nor the quotes of the
    match enter it.  The text written to the file is the text read after
    the text of each match, in turn, has been replaced by this call
    throughout.  When [rel] holds no quote and does not end in [require(], that
    text is the text read with every match replaced where it stands by this
    call, and every match in it is this call, with a single quote in the
    first and in the third group. *)
Theorem update_file_normalizes_calls (cwd : str) (w : world)
    (file_path correct_json_path : str) (f : file) :
  w_files w !! file_path = Some f → f_readable f = true → f_writable f = true →
  finditer pattern (universal_newlines (f_content f)) ≠ [] →
  ∃ rel w' new_content,
    calculate_relative_path cwd file_path correct_json_path = Some rel ∧
    update_file cwd file_path correct_json_path w = (w', inr ()) ∧
    w_trace w'
    = w_trace w ++ EvRead file_path
      :: map (λ m, EvPrint (report_updated file_path (m_text m)
                              (txt "require('" ++ rel ++ txt "')")))
           (finditer pattern (universal_newlines (f_content f)))
      ++ [EvWrite file_path new_content] ∧
    f_content <$> w_files w' !! file_path = Some new_content ∧
    new_content
    = fold_left (λ text m,
                   str_replace (m_text m) (txt "require('" ++ rel ++ txt "')") text)
        (finditer pattern (universal_newlines (f_content f)))
        (universal_newlines (f_content f)) ∧
    (quote_free rel → endswith (txt "require(") rel = false →
     new_content
     = splice (txt "require('" ++ rel ++ txt "')") 0
         (finditer pattern (universal_newlines (f_content f)))
         (universal_newlines (f_content f)) ∧
     ∀ m, m ∈ finditer pattern new_content →
          m_text m = txt "require('" ++ rel ++ txt "')" ∧
          group m 1 = [squote] ∧ group m 3 = [squote]).
Proof.
  intros Hf Hr Hw Hm.
  destruct (calculate_relative_path_total cwd file_path correct_json_path)
    as [rel Hrel].
  exists rel. eexists _, _. split; [done|]. split.
  { apply (update_file_match cwd _ _ rel Hrel w f); try done.
    by rewrite <- finditer_nl_nil. }
  unfold logged, written. cbn [w_trace w_files]. split_and!.
  - by rewrite <- app_assoc.
  - by rewrite lookup_insert_eq.
  - done.
  - intros Hq Hend. destruct (require_call_settled rel Hq Hend) as [new Hnew].
    fold (require_call rel). split; [by apply (rewrite_text_splice _ new)|].
    intros m Hin.
    pose proof (rewrite_text_matches _ new _ m Hnew Hin) as Htext.
    split; [done|].
    destruct (tokenized_exists
                (rewrite_text (require_call rel) (universal_newlines (f_content f))))
      as (ks & Hks & Eks).
    rewrite <- Eks in Hin. unfold finditer in Hin.
    rewrite finditer_tokenized in Hin by done.
    pose proof (matches_of_is_match ks 0 Hks) as Hall.
    rewrite Forall_forall in Hall. specialize (Hall m Hin). cbn beta in Hall.
    inversion Hall as [q1 X q2 H1 H2 HX Et Eg]. rewrite <- Et in Htext.
    apply require_call_quotes in Htext as [-> ->].
    unfold group. by rewrite <- Eg.
Qed.

Lemma update_file_normalizes_calls_witness :
  ∃ rel w' new_content,
    calculate_relative_path (txt "/proj") ex_two ex_target = Some rel ∧
    update_file (txt "/proj") ex_two ex_target ex_two_world = (w', inr ()) ∧
    w_trace w'
    = w_trace ex_two_world ++ EvRead ex_two
      :: map (λ m, EvPrint (report_updated ex_two (m_text m)
                              (txt "require('" ++ rel ++ txt "')")))
           (finditer pattern (universal_newlines (f_content ex_two_file)))
      ++ [EvWrite ex_two new_content] ∧
    f_content <$> w_files w' !! ex_two = Some new_content ∧
    new_content
    = fold_left (λ text m,
                   str_replace (m_text m) (txt "require('" ++ rel ++ txt "')") text)
        (finditer pattern (universal_newlines (f_content ex_two_file)))
        (universal_newlines (f_content ex_two_file)) ∧
    (quote_free rel → endswith (txt "require(") rel = false →
     new_content
     = splice (txt "require('" ++ rel ++ txt "')") 0
         (finditer pattern (universal_newlines (f_content ex_two_file)))
         (universal_newlines (f_content ex_two_file)) ∧
     ∀ m, m ∈ finditer pattern new_content →
          m_text m = txt "require('" ++ rel ++ txt "')" ∧
          group m 1 = [squote] ∧ group m 3 = [squote]).
Proof.
  apply (update_file_normalizes_calls (txt "/proj") ex_two_world ex_two ex_target
           ex_two_file).
  - vm_compute. reflexivity.
  - reflexivity.
  - reflexivity.
  - by vm_compute.
Defined.

(** The two calls of the example, one in single quotes and one opened with
    a double quote, are reported with the same replacement and written in
    single quotes. *)
Example update_file_normalizes_example :
  w_trace (fst (update_file (txt "/proj") ex_two ex_target ex_two_world))
  = [EvRead ex_two;
     EvPrint (report_updated ex_two (txt "require('x/medicaid_rules_2025.json')")
                (txt "require('../src/data/medicaid_rules_2025.json')"));
     EvPrint (report_updated ex_two
                (txt "require(" ++ dquote :: txt "medicaid_rules_2025.json')")
                (txt "require('../src/data/medicaid_rules_2025.json')"));
     EvWrite ex_two
       (txt "a = require('../src/data/medicaid_rules_2025.json'); b = require('../src/data/medicaid_rules_2025.json') + 1")].
Proof. by vm_compute. Qed.


(** ** When [update_file] raises *)

Lemma updatable_true w p :
  updatable w p = true ↔
  ∃ f, w_files w !! p = Some f ∧ f_readable f = true ∧
       (finditer pattern (f_content f) = [] ∨ f_writable f = true).
Proof.
  unfold updatable. split.
  - destruct (w_files w !! p) as [f|]; [|done].
    intros [Hr [Hm%bool_decide_eq_true|Hw]%orb_true_iff]%andb_true_iff; eauto.
  - intros (f & -> & -> & [Hm|Hw]); cbn.
    + by rewrite bool_decide_eq_true_2.
    + rewrite Hw. by rewrite orb_true_r.
Qed.

(** The two ways a run of [update_file] can end. *)
Lemma update_file_cases (cwd file_path correct_json_path : str) (w : world) :
  (updatable w file_path = true ∧
   ∃ w', update_file cwd file_path correct_json_path w = (w', inr ())) ∨
  (updatable w file_path = false ∧
   ∃ evs, update_file cwd file_path correct_json_path w
          = (logged w evs, inl (update_error w file_path)) ∧
          ∀ path content, EvWrite path content ∉ evs).
Proof.
  destruct (calculate_relative_path_total cwd file_path correct_json_path)
    as [rel Hrel].
  unfold updatable, update_error.
  destruct (w_files w !! file_path) as [f|] eqn:Hf.
  2:{ right. split; [done|]. exists []. rewrite logged_nil.
      unfold update_file. rewrite bind_unfold, read_file_missing by done.
      split; [done|]. by intros ???%elem_of_nil. }
  destruct (f_readable f) eqn:Hr.
  2:{ right. split; [done|]. exists []. rewrite logged_nil.
      unfold update_file.
      rewrite bind_unfold, (read_file_unreadable _ _ f) by done.
      split; [done|]. by intros ???%elem_of_nil. }
  destruct (decide (finditer pattern (f_content f) = [])) as [Hm|Hm].
  { left. rewrite bool_decide_eq_true_2 by done. split; [done|].
    eexists. by apply (update_file_no_match cwd _ _ w f). }
  rewrite bool_decide_eq_false_2 by done.
  destruct (f_writable f) eqn:Hw.
  { left. split; [done|].
    eexists. by apply (update_file_match cwd _ _ rel Hrel w f). }
  right. split; [done|]. eexists. split.
  - by apply (update_file_denied cwd _ _ rel Hrel w f).
  - intros path content Hin.
    apply elem_of_cons in Hin as [?|Hin]; [done|].
    unfold update_reports in Hin.
    apply list_elem_of_In, in_map_iff in Hin as (m & ? & _). done.
Qed.

Lemma update_file_returns_iff (cwd file_path correct_json_path : str) (w : world) :
  snd (update_file cwd file_path correct_json_path w) = inr () ↔
  updatable w file_path = true.
Proof.
  destruct (update_file_cases cwd file_path correct_json_path w)
    as [[Hu [w' ->]]|[Hu (evs & -> & _)]]; cbn [snd]; rewrite Hu; by split.
Qed.

Lemma update_error_cases w p :
  (update_error w p = OSError p ∨ update_error w p = UnicodeDecodeError p) ∧
  (update_error w p = UnicodeDecodeError p ↔
   ∃ f, w_files w !! p = Some f ∧ f_read f = ReadUndecodable).
Proof.
  unfold update_error, read_error, f_readable.
  destruct (w_files w !! p) as [f|]; [|split; [by left|]; split; [done|]].
  - destruct (f_read f) eqn:E; (split; [eauto|]); split; try done.
    + intros (f' & [= <-] & ?). congruence.
    + intros (f' & [= <-] & ?). congruence.
    + eauto.
  - by intros (? & ? & _).
Qed.

(** X4.  [update_file] returns exactly when the file is there, can be read
    and is writable or holds no match.  Otherwise it raises an error of
    that file, and no file has changed and nothing was written: the
    [UnicodeDecodeError] when the content of the file does not decode, the
    [OSError] when the file is absent or may not be opened for reading, or
    when it holds a match and may not be written, in which case the
    replacements were computed and reported all the same. *)
Theorem update_file_raises_iff (cwd file_path correct_json_path : str) (w : world) :
  let run := update_file cwd file_path correct_json_path w in
  (snd run = inr () ↔ updatable w file_path = true) ∧
  (snd run ≠ inr () →
     (snd run = inl (OSError file_path) ∨
      snd run = inl (UnicodeDecodeError file_path)) ∧
     (snd run = inl (UnicodeDecodeError file_path) ↔
      ∃ f, w_files w !! file_path = Some f ∧ f_read f = ReadUndecodable) ∧
     w_files (fst run) = w_files w ∧
     ∃ evs, w_trace (fst run) = w_trace w ++ evs ∧
            ∀ path content, EvWrite path content ∉ evs).
Proof.
  cbn zeta.
  destruct (update_error_cases w file_path) as [Hcls Hdec].
  destruct (update_file_cases cwd file_path correct_json_path w)
    as [[Hu [w' Hrun]]|[Hu (evs & Hrun & Hevs)]]; rewrite Hrun, Hu; cbn [fst snd].
  - split; [done|]. by intros [].
  - split; [done|]. intros _. split_and!.
    + destruct Hcls as [-> | ->]; eauto.
    + rewrite <- Hdec. split; [by intros [= ->]|by intros ->].
    + done.
    + by exists evs.
Qed.

Example update_file_raises_example :
  snd (update_file (txt "/proj") (txt "./a.js") ex_target ex_project_world)
  = inl (UnicodeDecodeError (txt "./a.js")) ∧
  snd (update_file (txt "/proj") (txt "./missing.js") ex_target ex_project_world)
  = inl (OSError (txt "./missing.js")).
Proof. by vm_compute. Qed.

(** X5.  [update_file] reads and writes no file but its own: every other
    path of the store is as before, and none of the events the run adds is a
    read or a write of another path. *)
Theorem update_file_touches_only_its_file (cwd file_path correct_json_path : str)
    (w : world) (q : str) :
  q ≠ file_path →
  let w' := fst (update_file cwd file_path correct_json_path w) in
  w_files w' !! q = w_files w !! q ∧
  ∃ evs, w_trace w' = w_trace w ++ evs ∧ Forall (λ e, ¬ touches q e) evs.
Proof.
  intros Hq. cbn zeta.
  destruct (update_file cwd file_path correct_json_path w) as [w' r] eqn:Hrun.
  apply update_file_events in Hrun as (evs & Htr & Hevs & Hfiles). cbn [fst].
  split; [by apply Hfiles|]. exists evs. split; [done|].
  eapply Forall_impl; [exact Hevs|]. intros e He. by eapply file_event_touches.
Qed.

Lemma update_file_touches_only_its_file_witness :
  w_files (fst (update_file (txt "/proj") (txt "./b.js") ex_target ex_rerun_world))
    !! txt "./lib/c.ts"
  = w_files ex_rerun_world !! txt "./lib/c.ts" ∧
  ∃ evs,
    w_trace (fst (update_file (txt "/proj") (txt "./b.js") ex_target ex_rerun_world))
    = w_trace ex_rerun_world ++ evs ∧
    Forall (λ e, ¬ touches (txt "./lib/c.ts") e) evs.
Proof.
  apply (update_file_touches_only_its_file (txt "/proj") (txt "./b.js") ex_target
           ex_rerun_world (txt "./lib/c.ts")).
  by vm_compute.
Defined.

(** ** The relative path in the script's own run *)

(** X6.  In the script's run the path inserted in a file depends only on
    the directories between the project root and the file, not on the
    working directory or the name of the file.  For a file that is not
    below [src] it is one [..] for each of those directories followed by
    [src/data/medicaid_rules_2025.json]; for a file in the project root this
    is the bare [src/data/medicaid_rules_2025.json], with no [./] in
    front. *)
Theorem script_relative_path (cwd : str) (dirs : list str) (file : str) :
  posixpath.isabs cwd = true → posixpath.normpath cwd = cwd →
  clean dirs → clean_comp file →
  let from_file := posixpath.join (dir_path project_root dirs) file in
  calculate_relative_path cwd from_file (full_json_path cwd)
  = Some (rel_text dirs correct_comps) ∧
  (head dirs ≠ Some (txt "src") →
   calculate_relative_path cwd from_file (full_json_path cwd)
   = Some (join_sep (replicate (length dirs) posixpath.pardir ++ correct_comps))).
Proof.
  intros Habs Hnorm Hdirs Hfile. cbn zeta.
  pose proof (script_rel cwd Habs Hnorm dirs file Hdirs Hfile) as Hrel.
  split; [done|]. intros Hhead.
  change (dir_path project_root dirs) with (dir_path (txt ".") dirs).
  rewrite Hrel. f_equal. unfold rel_text, rel_list.
  assert (posixpath.commonprefix_len dirs correct_comps = 0) as ->.
  { destruct dirs as [|d dirs']; [done|].
    change correct_comps with (txt "src" :: [txt "data"; target_filename]).
    cbn [posixpath.commonprefix_len].
    destruct (decide (d = txt "src")) as [->|]; [done|done]. }
  rewrite Nat.sub_0_r. change (drop 0 correct_comps) with correct_comps.
  destruct (replicate (length dirs) posixpath.pardir ++ correct_comps) eqn:E; [|done].
  by apply app_eq_nil in E as [_ ?].
Qed.

Lemma script_relative_path_witness :
  calculate_relative_path (txt "/home/u/proj")
    (posixpath.join (dir_path project_root [txt "lib"; txt "util"]) (txt "c.ts"))
    (full_json_path (txt "/home/u/proj"))
  = Some (rel_text [txt "lib"; txt "util"] correct_comps) ∧
  (head [txt "lib"; txt "util"] ≠ Some (txt "src") →
   calculate_relative_path (txt "/home/u/proj")
     (posixpath.join (dir_path project_root [txt "lib"; txt "util"]) (txt "c.ts"))
     (full_json_path (txt "/home/u/proj"))
   = Some (join_sep (replicate (length [txt "lib"; txt "util"]) posixpath.pardir
                     ++ correct_comps))).
Proof.
  apply (script_relative_path (txt "/home/u/proj") [txt "lib"; txt "util"] (txt "c.ts")).
  - reflexivity.
  - vm_compute. reflexivity.
  - repeat constructor; try done; apply (bool_decide_unpack _); by vm_compute.
  - repeat constructor; try done; apply (bool_decide_unpack _); by vm_compute.
Defined.

Example script_relative_path_examples :
  calculate_relative_path (txt "/home/u/proj") (txt "./index.js")
    (full_json_path (txt "/home/u/proj"))
  = Some (txt "src/data/medicaid_rules_2025.json") ∧
  calculate_relative_path (txt "/home/u/proj") (txt "./lib/util/c.ts")
    (full_json_path (txt "/home/u/proj"))
  = Some (txt "../../src/data/medicaid_rules_2025.json") ∧
  calculate_relative_path (txt "/home/u/proj") (txt "./src/app/main.ts")
    (full_json_path (txt "/home/u/proj"))
  = Some (txt "../data/medicaid_rules_2025.json").
Proof. by vm_compute. Qed.

(** ** When the whole run completes *)

Lemma updatable_files w w' p :
  w_files w' !! p = w_files w !! p → updatable w' p = updatable w p.
Proof. unfold updatable. by intros ->. Qed.

(** A run of [update_file] that returns leaves every file as fit for a
    later [update_file] as it was. *)
Lemma update_file_keeps_updatable cwd p correct_json_path w :
  updatable w p = true →
  ∃ w', update_file cwd p correct_json_path w = (w', inr ()) ∧
        ∀ q, updatable w' q = updatable w q.
Proof.
  intros Hp. pose proof Hp as (f & Hf & Hr & Hok)%updatable_true.
  destruct (calculate_relative_path_total cwd p correct_json_path) as [rel Hrel].
  destruct (update_file_content cwd p correct_json_path w f rel)
    as (w' & f' & Hrun & Hf' & Hc & Hr' & Hw' & Hframe); [done..|].
  exists w'. split; [done|]. intros q.
  destruct (decide (q = p)) as [->|Hq]; [|by apply updatable_files, Hframe].
  rewrite Hp. apply updatable_true. exists f'. split_and!; [done| |].
  { unfold f_readable in *. by rewrite Hr'. }
  destruct Hok as [Hm|Hw]; [left|right; congruence].
  rewrite Hc. unfold updated_text. by rewrite bool_decide_eq_true_2.
Qed.

Lemma for_each_update_returns_iff cwd correct_json_path ps w :
  snd (for_each ps (λ p, update_file cwd p correct_json_path) w) = inr () ↔
  Forall (λ p, updatable w p = true) ps.
Proof.
  revert w. induction ps as [|p ps IH]; intros w; [done|].
  cbn [for_each]. rewrite bind_unfold, Forall_cons.
  destruct (updatable w p) eqn:Hp.
  - destruct (update_file_keeps_updatable cwd p correct_json_path w Hp)
      as (w' & -> & Hkeep).
    rewrite IH. split.
    + intros H. split; [done|]. rewrite Forall_forall in *.
      intros q Hq. rewrite <- Hkeep. by apply H.
    + intros [_ H]. rewrite Forall_forall in *.
      intros q Hq. rewrite Hkeep. by apply H.
  - pose proof (update_file_returns_iff cwd p correct_json_path w) as Hiff.
    rewrite Hp in Hiff.
    destruct (update_file cwd p correct_json_path w) as [w' [e|[]]]; cbn in *.
    + split; [done|]. by intros [? _].
    + by destruct Hiff as [Hiff _]; specialize (Hiff eq_refl).
Qed.

(** X7.  The script runs to its end exactly when every [.js]/[.ts] file
    under the project root is readable and is writable or holds no match.
    The run then printed the scan header first and the completion message
    last. *)
Theorem main_completes_iff (cwd : str) (t : tree) (w : world) :
  wf_tree t = true →
  let run := main cwd t w in
  (snd run = inr () ↔
   ∀ p, p ∈ candidates t project_root → updatable w p = true) ∧
  (snd run = inr () →
   ∃ evs, w_trace (fst run)
          = w_trace w ++ EvPrint (scan_header cwd project_root) :: evs
            ++ [EvPrint completion_message]).
Proof.
  intros Hwf. cbn zeta.
  assert (main cwd t w
          = let (st', s) :=
              for_each (candidates t project_root)
                (λ p, update_file cwd p (full_json_path cwd))
                (logged w [EvPrint (scan_header cwd project_root)]) in
            match s with
            | inl e => (st', inl e)
            | inr _ => print completion_message st'
            end) as ->.
  { unfold main. fold (full_json_path cwd).
    rewrite !bind_unfold, scan_candidates by done.
    rewrite !bind_unfold, !print_run. reflexivity. }
  pose proof (for_each_update_returns_iff cwd (full_json_path cwd)
                (candidates t project_root)
                (logged w [EvPrint (scan_header cwd project_root)])) as Hiff.
  destruct (for_each (candidates t project_root) _ (logged w _))
    as [wa [e|[]]] eqn:Hrun; cbn [snd fst] in *.
  - split; [|done]. split; [done|]. intros H.
    apply Hiff, Forall_forall. intros p Hp.
    rewrite <- (H p Hp). by apply updatable_files.
  - rewrite print_run. cbn [snd fst]. split.
    + split; [|done]. intros _ p Hp.
      destruct Hiff as [Hiff _]. specialize (Hiff eq_refl).
      rewrite Forall_forall in Hiff. rewrite <- (Hiff p Hp).
      symmetry. by apply updatable_files.
    + intros _. apply for_each_update_events in Hrun as (evs & Htr & _).
      exists evs. unfold logged in *. cbn [w_trace] in *. rewrite Htr.
      by rewrite <- !app_assoc.
Qed.

Lemma main_completes_iff_witness :
  (snd (main (txt "/proj") ex_rerun ex_rerun_world) = inr () ↔
   ∀ p, p ∈ candidates ex_rerun project_root → updatable ex_rerun_world p = true) ∧
  (snd (main (txt "/proj") ex_rerun ex_rerun_world) = inr () →
   ∃ evs, w_trace (fst (main (txt "/proj") ex_rerun ex_rerun_world))
          = w_trace ex_rerun_world ++ EvPrint (scan_header (txt "/proj") project_root)
            :: evs ++ [EvPrint completion_message]).
Proof.
  apply (main_completes_iff (txt "/proj") ex_rerun ex_rerun_world).
  reflexivity.
Defined.

(** ** What the whole run leaves in the files *)

Section run_contents.
Variable cwd : str.
Variable correct_json_path : str.

Lemma update_file_returned p w w' :
  update_file cwd p correct_json_path w = (w', inr ()) →
  ∃ f rel f',
    w_files w !! p = Some f ∧
    calculate_relative_path cwd p correct_json_path = Some rel ∧
    w_files w' !! p = Some f' ∧
    f_content f' = updated_text (require_call rel) (f_content f) ∧
    ∀ q, q ≠ p → w_files w' !! q = w_files w !! q.
Proof.
  intros Hrun.
  pose proof (update_file_returns_iff cwd p correct_json_path w) as Hiff.
  rewrite Hrun in Hiff. cbn [snd] in Hiff.
  destruct Hiff as [Hiff _]. specialize (Hiff eq_refl).
  apply updatable_true in Hiff as (f & Hf & Hr & Hok).
  destruct (calculate_relative_path_total cwd p correct_json_path) as [rel Hrel].
  destruct (update_file_content cwd p correct_json_path w f rel)
    as (w'' & f' & Hrun' & Hf' & Hc & _ & _ & Hframe); [done..|].
  rewrite Hrun in Hrun'. injection Hrun' as <-.
  by exists f, rel, f'.
Qed.

(** What [update_file] leaves in a file, it leaves there when run again. *)
Lemma updated_text_idemp R new content :
  settled R new → cr ∉ R →
  updated_text R (updated_text R content) = updated_text R content.
Proof.
  intros Hnew HR.
  destruct (decide (finditer pattern content = [])) as [Hm|Hm].
  - assert (updated_text R content = content) as E
      by (unfold updated_text; by rewrite bool_decide_eq_true_2).
    by rewrite !E.
  - set (c1 := rewrite_text R (universal_newlines content)).
    assert (updated_text R content = c1) as ->.
    { unfold updated_text. by rewrite bool_decide_eq_false_2. }
    assert (cr ∉ c1) as Hfree by (apply rewrite_text_no_cr; [done|apply nl_no_cr]).
    unfold updated_text. rewrite (nl_id c1 Hfree).
    destruct (decide (finditer pattern c1 = [])) as [Hm1|Hm1].
    + by rewrite bool_decide_eq_true_2.
    + rewrite bool_decide_eq_false_2 by done. by apply (rewrite_text_idemp _ new).
Qed.

Lemma for_each_update_contents ps w w1 :
  (∀ p, p ∈ ps → settles cwd correct_json_path p) →
  for_each ps (λ p, update_file cwd p correct_json_path) w = (w1, inr ()) →
  ∀ p, p ∈ ps →
    ∃ f rel f1,
      w_files w !! p = Some f ∧
      calculate_relative_path cwd p correct_json_path = Some rel ∧
      w_files w1 !! p = Some f1 ∧
      f_content f1 = updated_text (require_call rel) (f_content f).
Proof.
  revert w. induction ps as [|p0 ps IH]; intros w Hps.
  - intros _ p Hp. by apply elem_of_nil in Hp.
  - cbn [for_each]. rewrite bind_unfold.
    destruct (update_file cwd p0 correct_json_path w) as [wa [e|[]]] eqn:Hp0; [done|].
    intros Hrest p Hp.
    pose proof (update_file_returned p0 w wa Hp0)
      as (f0 & rel0 & fa & Hf0 & Hrel0 & Hfa & Hca & Hframe).
    destruct (decide (p ∈ ps)) as [Hin|Hnin].
    + destruct (IH wa (λ q Hq, Hps q ltac:(set_solver)) Hrest p Hin)
        as (f & rel & f1 & Hf & Hrel & Hf1 & Hc1).
      destruct (decide (p = p0)) as [->|Hne].
      * exists f0, rel0, f1. split_and!; [done..|].
        rewrite Hc1. rewrite Hfa in Hf. injection Hf as <-.
        rewrite Hrel0 in Hrel. injection Hrel as <-. rewrite Hca.
        destruct (Hps p0 ltac:(set_solver)) as (rel' & new & Hrel' & Hnew & Hcr).
        rewrite Hrel0 in Hrel'. injection Hrel' as <-.
        apply (updated_text_idemp _ new); [done|by apply require_call_no_cr].
      * exists f, rel, f1. split_and!; [|done..]. by rewrite <- Hframe.
    + assert (p = p0) as -> by set_solver.
      exists f0, rel0, fa. split_and!; [done..| |done].
      apply for_each_update_events in Hrest as (_ & _ & _ & Hkeep).
      by rewrite Hkeep.
Qed.
End run_contents.

(** X8.  What a completed run of the script leaves behind.  The working
    directory is an absolute, normalised path and the names in the tree are
    those of a directory listing.  A [.js]/[.ts] file without a match is as
    it was.  Every other [.js]/[.ts] file holds its text as read, which is
    its text with every line ending turned into a line feed, with each match
    replaced in place by the call with the relative path of the file.  Every
    match left in a [.js]/[.ts] file is that call, and every other file of
    the store is as it was. *)
Theorem main_rewrites_every_source (cwd : str) (t : tree) (w w1 : world) :
  posixpath.isabs cwd = true → posixpath.normpath cwd = cwd →
  wf_tree t = true → clean_tree t = true →
  main cwd t w = (w1, inr ()) →
  (∀ p, p ∈ candidates t project_root →
     ∃ f rel f1,
       w_files w !! p = Some f ∧
       calculate_relative_path cwd p (full_json_path cwd) = Some rel ∧
       w_files w1 !! p = Some f1 ∧
       (finditer pattern (universal_newlines (f_content f)) = [] →
        f_content f1 = f_content f) ∧
       (finditer pattern (universal_newlines (f_content f)) ≠ [] →
        f_content f1
        = splice (require_call rel) 0
            (finditer pattern (universal_newlines (f_content f)))
            (universal_newlines (f_content f))) ∧
       (cr ∉ f_content f → universal_newlines (f_content f) = f_content f) ∧
       ∀ m, m ∈ finditer pattern (f_content f1) → m_text m = require_call rel) ∧
  (∀ q, q ∉ candidates t project_root → w_files w1 !! q = w_files w !! q).
Proof.
  intros Habs Hnorm Hwf Hclean.
  assert (main cwd t w
          = let (st', s) :=
              for_each (candidates t project_root)
                (λ p, update_file cwd p (full_json_path cwd))
                (logged w [EvPrint (scan_header cwd project_root)]) in
            match s with
            | inl e => (st', inl e)
            | inr _ => print completion_message st'
            end) as ->.
  { unfold main. fold (full_json_path cwd).
    rewrite !bind_unfold, scan_candidates by done.
    rewrite !bind_unfold, !print_run. reflexivity. }
  destruct (for_each (candidates t project_root) _ (logged w _))
    as [wa [e|[]]] eqn:Hrun; [done|].
  rewrite print_run. intros [= <-]. split.
  - intros p Hp.
    assert (∀ q, q ∈ candidates t project_root →
              settles cwd (full_json_path cwd) q) as Hsettles.
    { intros q Hq. by eapply script_rel_settled. }
    destruct (for_each_update_contents cwd _ _ _ _ Hsettles Hrun p Hp)
      as (f & rel & f1 & Hf & Hrel & Hf1 & Hc).
    destruct (Hsettles p Hp) as (rel' & new & Hrel' & Hnew & Hcr).
    rewrite Hrel in Hrel'. injection Hrel' as <-.
    exists f, rel, f1. split_and!; [done..| | |apply nl_id|].
    + intros Hm. by rewrite Hc, updated_text_no_match.
    + intros Hm. by rewrite Hc, updated_text_match, (rewrite_text_splice _ new).
    + rewrite Hc. intros m.
      destruct (decide (finditer pattern (universal_newlines (f_content f)) = []))
        as [Hm|Hm].
      * rewrite updated_text_no_match by done. rewrite finditer_nl_nil in Hm.
        rewrite Hm. by intros ?%elem_of_nil.
      * rewrite updated_text_match by done. by apply (rewrite_text_matches _ new).
  - intros q Hq. apply for_each_update_events in Hrun as (_ & _ & _ & Hkeep).
    unfold logged. cbn [w_files]. by rewrite Hkeep.
Qed.

Lemma main_rewrites_every_source_witness :
  (∀ p, p ∈ candidates ex_rerun project_root →
     ∃ f rel f1,
       w_files ex_rerun_world !! p = Some f ∧
       calculate_relative_path (txt "/proj") p (full_json_path (txt "/proj"))
       = Some rel ∧
       w_files (fst (main (txt "/proj") ex_rerun ex_rerun_world)) !! p = Some f1 ∧
       (finditer pattern (universal_newlines (f_content f)) = [] →
        f_content f1 = f_content f) ∧
       (finditer pattern (universal_newlines (f_content f)) ≠ [] →
        f_content f1
        = splice (require_call rel) 0
            (finditer pattern (universal_newlines (f_content f)))
            (universal_newlines (f_content f))) ∧
       (cr ∉ f_content f → universal_newlines (f_content f) = f_content f) ∧
       ∀ m, m ∈ finditer pattern (f_content f1) → m_text m = require_call rel) ∧
  (∀ q, q ∉ candidates ex_rerun project_root →
     w_files (fst (main (txt "/proj") ex_rerun ex_rerun_world)) !! q
     = w_files ex_rerun_world !! q).
Proof.
  apply (main_rewrites_every_source (txt "/proj") ex_rerun ex_rerun_world).
  - reflexivity.
  - vm_compute. reflexivity.
  - reflexivity.
  - reflexivity.
  - by vm_compute.
Defined.

(** ** [print_tree]: the script's call, and its edges *)

Lemma print_tree_by_level_witness :
  print_structure_main ex_tree
  = render default_max_depth 0 (posixpath.basename (txt ".")) ex_tree.
Proof.
  apply (print_tree_by_level ex_tree (txt ".") default_max_depth).
  - reflexivity.
  - done.
  - reflexivity.
Defined.

Example print_structure_main_example :
  print_structure_main ex_tree
  = txt "├── ./" ++ newline :: txt "│   ├── a/" ++ newline
    :: txt "│   │   f.txt" ++ [newline].
Proof. by vm_compute. Qed.

(** X10.  With [max_depth = 0] nothing is written, whatever the tree and the
    start path: the start directory itself is at depth 0, which is not
    below the limit, and the walk is cut there. *)
Theorem print_tree_max_depth_zero (t : tree) (startpath : str) :
  print_tree t startpath 0 = [].
Proof.
  unfold print_tree, os_walk. destruct (bool_decide (startpath = [])); [done|].
  destruct t as [files subdirs]. rewrite walk_dir_unfold, bind_unfold.
  rewrite print_tree_body_deep by lia. done.
Qed.

Lemma join_after_sep a b :
  b ≠ [] → sep ∉ b → posixpath.join (a ++ [sep]) b = a ++ sep :: b.
Proof.
  intros Hb Hs. unfold posixpath.join.
  destruct b as [|x b]; [done|]. assert (x ≠ sep) by set_solver.
  cbn [startswith]. rewrite decide_False by done.
  rewrite endswith_app, orb_true_r. by rewrite <- app_assoc.
Qed.

(** X11.  A start path that ends in a separator.  The first line names the
    start directory by the empty name, and every directory below it is
    written one level less deep than it lies: the subdirectories of the
    start directory stand at level 0 beside it, and the depth limit lets one
    more level through. *)
Theorem print_tree_slash_start (files : list str) (subdirs : list (str * tree))
    (s : str) (max_depth : nat) :
  wf_tree (Dir files subdirs) = true →
  print_tree (Dir files subdirs) (s ++ [sep]) max_depth
  = if bool_decide (0 < max_depth) then
      (txt "├── " ++ [sep; newline])
      ++ concat (map (λ file, txt "│   " ++ file ++ [newline]) files)
      ++ concat (map (λ d, render max_depth 0 (fst d) (snd d)) subdirs)
    else [].
Proof.
  intros [Hnd Hsub]%wf_tree_Dir. unfold print_tree, os_walk.
  rewrite bool_decide_eq_false_2 by by destruct s.
  rewrite walk_dir_unfold, bind_unfold.
  assert (tree_depth (s ++ [sep]) (s ++ [sep]) = 0) as Hdepth.
  { unfold tree_depth. by rewrite drop_all. }
  destruct (decide (0 < max_depth)) as [Hd|Hd].
  - rewrite print_tree_body_shallow by by rewrite Hdepth.
    rewrite bool_decide_eq_true_2 by done. rewrite Hdepth.
    rewrite descend_all by done.
    rewrite (for_each_append subdirs _
               (λ d, render max_depth 0 (fst d) (snd d))).
    + cbn [fst app]. rewrite (basename_join s []) by set_solver.
      cbn [repeat_str Nat.add app]. by rewrite !app_nil_r, <- !app_assoc.
    + intros [n sub] out' Hin. cbn [fst snd].
      rewrite Forall_forall in Hsub.
      destruct (Hsub _ Hin) as [[Hn1 Hn2]%plain_name_true Hwf]. cbn [fst snd] in *.
      rewrite join_after_sep by done.
      rewrite (walk_print (s ++ [sep]) max_depth sub (s ++ sep :: n) n).
      * by rewrite basename_join, count_char_absent.
      * done.
      * by rewrite <- app_assoc.
      * by destruct s.
      * destruct n as [|x n _] using rev_ind; [done|].
        change (sep :: n ++ [x]) with ((sep :: n) ++ [x]).
        rewrite !app_assoc, last_snoc. intros [= ->]. set_solver.
  - rewrite print_tree_body_deep by by rewrite Hdepth.
    rewrite bool_decide_eq_false_2 by done. done.
Qed.

Lemma print_tree_slash_start_witness :
  print_tree (Dir [] [(txt "a", Dir [txt "f.txt"] [])]) (txt "d" ++ [sep]) 1
  = if bool_decide (0 < 1) then
      (txt "├── " ++ [sep; newline])
      ++ concat (map (λ file, txt "│   " ++ file ++ [newline]) [])
      ++ concat (map (λ d, render 1 0 (fst d) (snd d))
                   [(txt "a", Dir [txt "f.txt"] [])])
    else [].
Proof.
  apply (print_tree_slash_start [] [(txt "a", Dir [txt "f.txt"] [])] (txt "d") 1).
  reflexivity.
Defined.

(** ** [save_structure] *)

(** Deleting the occurrences of a text without separators deletes no
    separator. *)
Lemma count_sep_replace (old s : str) :
  old ≠ [] → sep ∉ old →
  count_char sep (str_replace old [] s) = count_char sep s.
Proof.
  intros Hne Hsep.
  induction s as [s IH] using (induction_ltof1 _ length). unfold ltof in IH.
  destruct s as [|c s]; [by rewrite str_replace_nil|].
  destruct (startswith old (c :: s)) eqn:E.
  - apply startswith_true in E as [t E]. rewrite E.
    rewrite str_replace_hit by done. cbn [app].
    rewrite count_char_app, (count_char_absent sep old) by done.
    apply IH. rewrite E, length_app. destruct old; [done|]. cbn. lia.
  - rewrite str_replace_miss by done.
    change (c :: str_replace old [] s) with ([c] ++ str_replace old [] s).
    change (c :: s) with ([c] ++ s).
    rewrite !count_char_app. f_equal. apply IH. cbn. lia.
Qed.

Section save_structure_facts.
Variable startpath : str.
Hypothesis Hne : startpath ≠ [].
Hypothesis Hsep : sep ∉ startpath.

Lemma save_structure_body_run root dirs files out :
  save_structure_body startpath root dirs files out
  = (out ++ (repeat_str (txt "    ") (save_level startpath root)
             ++ posixpath.basename root ++ [sep; newline])
         ++ concat (map (λ file, repeat_str (txt "    ") (save_level startpath root + 1)
                                   ++ file ++ [newline]) files),
     inr dirs).
Proof.
  unfold save_structure_body.
  rewrite bind_unfold. cbn [fwrite modify]. rewrite bind_unfold.
  rewrite (for_each_append files _
             (λ file, repeat_str (txt "    ") (save_level startpath root + 1)
                      ++ file ++ [newline])) by done.
  rewrite ret_unfold. by rewrite <- !app_assoc.
Qed.

Lemma walk_save t root suffix out :
  wf_tree t = true →
  root = startpath ++ suffix → last root ≠ Some sep →
  walk_dir (save_structure_body startpath) t root out
  = (out ++ listing (count_char sep suffix) (posixpath.basename root) t, inr ()).
Proof.
  revert root suffix out. induction t as [files subdirs IH] using tree_ind'.
  intros root suffix out [Hnd Hsub]%wf_tree_Dir -> Hlast.
  assert (save_level startpath (startpath ++ suffix) = count_char sep suffix) as Hlevel.
  { unfold save_level. rewrite count_sep_replace by done.
    by rewrite count_char_app, (count_char_absent sep startpath). }
  rewrite walk_dir_unfold, bind_unfold. cbn [listing].
  rewrite save_structure_body_run, Hlevel.
  rewrite descend_all by done.
  rewrite (for_each_append subdirs _
             (λ d, listing (S (count_char sep suffix)) (fst d) (snd d))).
  { by rewrite <- !app_assoc. }
  intros [n sub] out' Hin. cbn [fst snd].
  rewrite Forall_forall in IH. rewrite Forall_forall in Hsub.
  destruct (Hsub _ Hin) as [[Hn1 Hn2]%plain_name_true Hwf]. cbn [fst snd] in *.
  rewrite join_plain; [|by destruct startpath|done..].
  rewrite (IH _ Hin _ (suffix ++ sep :: n)); [| done | by rewrite <- app_assoc | ].
  - rewrite basename_join by done. rewrite count_char_app.
    assert (count_char sep (sep :: n) = 1) as ->.
    { change (sep :: n) with ([sep] ++ n).
      by rewrite count_char_app, (count_char_absent sep n). }
    cbn [snd]. do 3 f_equal. lia.
  - destruct n as [|x n _] using rev_ind; [done|].
    change (sep :: n ++ [x]) with ((sep :: n) ++ [x]).
    rewrite !app_assoc, last_snoc. intros [= ->]. set_solver.
Qed.
End save_structure_facts.

(** X12.  For a start path that is one name, as the script's [.],
    [save_structure] writes every directory of the tree, in the order of the
    walk: its name and a slash, indented by four spaces for each level it
    lies below the start, and then its files, indented one level more.  No
    directory is left out, at any depth. *)
Theorem save_structure_by_level (t : tree) (startpath : str) :
  wf_tree t = true → startpath ≠ [] → sep ∉ startpath →
  save_structure t startpath = listing 0 startpath t.
Proof.
  intros Hwf Hne Hsep. unfold save_structure, os_walk.
  rewrite bool_decide_eq_false_2 by done.
  rewrite (walk_save startpath Hne Hsep t startpath []); try done.
  - unfold posixpath.basename. by rewrite head_of_plain.
  - by rewrite app_nil_r.
  - destruct startpath as [|x u _] using rev_ind; [done|].
    rewrite last_snoc. intros [= ->]. set_solver.
Qed.

Lemma save_structure_by_level_witness :
  generate_structure_main ex_rerun = listing 0 (txt ".") ex_rerun.
Proof.
  apply (save_structure_by_level ex_rerun (txt ".")).
  - reflexivity.
  - done.
  - apply (bool_decide_unpack _). by vm_compute.
Defined.

Example generate_structure_main_example :
  generate_structure_main ex_rerun
  = txt "./" ++ newline :: txt "    b.js" ++ newline
    :: txt "    lib/" ++ newline :: txt "        c.ts" ++ [newline].
Proof. by vm_compute. Qed.

(** ** [finditer] misses no match *)

(** X13.  [finditer] returns a match at a position exactly when the pattern
    matches the text from that position on, with that text and those
    groups.  Two matches never overlap, so the scan, which resumes after
    each match, passes over none. *)
Theorem finditer_finds_every_match (content : str) (i : nat) (t : str)
    (g : list str) :
  mkMatch i t g ∈ finditer pattern content ↔
  match_here pattern (drop i content) = Some (t, g).
Proof.
  destruct (tokenized_exists content) as (ks & Hks & <-).
  unfold finditer. rewrite finditer_tokenized by done. split.
  - intros [_ H]%matches_of_sound; [|done].
    cbn [m_start m_text m_groups] in H. by rewrite Nat.sub_0_r in H.
  - intros H. by apply (matches_of_found ks 0 i t g).
Qed.

(** ** [calculate_relative_path] gives a relative path *)

Lemma rel_text_not_nil start target : clean target → rel_text start target ≠ [].
Proof.
  intros Ht. unfold rel_text.
  destruct (rel_list start target) as [|c cs] eqn:E; [done|].
  assert (c ≠ []) as Hc.
  { unfold rel_list in E.
    destruct (length start - posixpath.commonprefix_len start target) as [|k].
    - cbn in E. assert (c ∈ target) as Hin.
      { eapply subseteq_drop. rewrite E. apply list_elem_of_here. }
      unfold clean in Ht. rewrite Forall_forall in Ht. by destruct (Ht c Hin).
    - cbn in E. by injection E as <- _. }
  destruct c as [|x c]; [done|]. by destruct cs.
Qed.

(** X14.  When the working directory is absolute and the absolute form of
    [to_file] holds no backslash, the path [calculate_relative_path] returns
    is not empty and does not begin with a slash: it is a relative path. *)
Theorem calculate_relative_path_is_relative (cwd from_file to_file : str) :
  posixpath.isabs cwd = true →
  backslash ∉ posixpath.abspath cwd to_file →
  ∃ rel, calculate_relative_path cwd from_file to_file = Some rel ∧
         rel ≠ [] ∧ posixpath.isabs rel = false.
Proof.
  intros Habs Hbs.
  destruct (calculate_relative_path_shaped cwd from_file to_file Habs)
    as (n & m & fc & tc & Hn & Hm & Hfc & Htc & Hfrom & Hto & Hrel).
  rewrite Hrel. eexists. split; [done|].
  rewrite str_replace_char_absent.
  - split; [by apply rel_text_not_nil|]. by apply rel_text_head.
  - intros [E|[E|(c & Hc & Hx)]]%elem_of_rel_text; [done..|].
    apply Hbs. rewrite Hto. unfold shaped. apply elem_of_app. right.
    by eapply join_sep_elem_of.
Qed.

Lemma calculate_relative_path_is_relative_witness :
  ∃ rel, calculate_relative_path (txt "/proj") (txt "src/app/main.ts")
           (txt "/proj/src/data/medicaid_rules_2025.json") = Some rel ∧
         rel ≠ [] ∧ posixpath.isabs rel = false.
Proof.
  apply (calculate_relative_path_is_relative (txt "/proj") (txt "src/app/main.ts")
           (txt "/proj/src/data/medicaid_rules_2025.json")).
  - reflexivity.
  - apply (bool_decide_unpack _). by vm_compute.
Defined.

(** ** A file that is up to date *)

Lemma str_replace_same (old s : str) : old ≠ [] → str_replace old old s = s.
Proof.
  intros Hne.
  induction s as [s IH] using (induction_ltof1 _ length). unfold ltof in IH.
  destruct s as [|c s]; [by rewrite str_replace_nil|].
  destruct (startswith old (c :: s)) eqn:E.
  - apply startswith_true in E as [t E]. rewrite E.
    rewrite str_replace_hit by done. f_equal.
    apply IH. rewrite E, length_app. destruct old; [done|]. cbn. lia.
  - rewrite str_replace_miss by done. f_equal. apply IH. cbn. lia.
Qed.

Lemma rewrite_text_same R content :
  R ≠ [] →
  (∀ m, m ∈ finditer pattern content → m_text m = R) →
  rewrite_text R content = content.
Proof.
  intros HR. unfold rewrite_text.
  generalize (finditer pattern content). intros ms.
  induction ms as [|m ms IH]; intros H; [done|].
  cbn [fold_left group]. cbn [group]. rewrite (H m) by set_solver.
  rewrite str_replace_same by done. apply IH. intros; apply H; set_solver.
Qed.

(** X15.  A writable file whose matches, in its text as read, all are the
    call [update_file] would insert is written all the same: the run
    reports every match and, as its last step, writes the file with its
    text as read.  So the file then holds its text with every line ending
    turned into a line feed; a file without a carriage return is as it was,
    and so is the store. *)
Theorem update_file_rewrites_same_text (cwd : str) (w : world)
    (file_path correct_json_path : str) (f : file) (rel : str) :
  w_files w !! file_path = Some f → f_readable f = true → f_writable f = true →
  calculate_relative_path cwd file_path correct_json_path = Some rel →
  finditer pattern (universal_newlines (f_content f)) ≠ [] →
  (∀ m, m ∈ finditer pattern (universal_newlines (f_content f)) →
        m_text m = require_call rel) →
  ∃ w',
    update_file cwd file_path correct_json_path w = (w', inr ()) ∧
    last (w_trace w') = Some (EvWrite file_path (universal_newlines (f_content f))) ∧
    f_content <$> w_files w' !! file_path = Some (universal_newlines (f_content f)) ∧
    (cr ∉ f_content f → w_files w' = w_files w).
Proof.
  intros Hf Hr Hw Hrel Hm Hall.
  eexists. split.
  { apply (update_file_match cwd _ _ rel Hrel w f); try done.
    by rewrite <- finditer_nl_nil. }
  rewrite rewrite_text_same by done.
  unfold logged, written. cbn [w_trace w_files]. split_and!.
  - by rewrite last_snoc.
  - by rewrite lookup_insert_eq.
  - intros Hcr. rewrite (nl_id _ Hcr), (after_write_ok f Hr).
    apply insert_id. rewrite Hf. f_equal. destruct f. cbn in *. by subst.
Qed.

Lemma update_file_rewrites_same_text_witness :
  ∃ w',
    update_file (txt "/proj") ex_crlf ex_target ex_done_world = (w', inr ()) ∧
    last (w_trace w')
    = Some (EvWrite ex_crlf (universal_newlines (f_content ex_done_file))) ∧
    f_content <$> w_files w' !! ex_crlf
    = Some (universal_newlines (f_content ex_done_file)) ∧
    (cr ∉ f_content ex_done_file → w_files w' = w_files ex_done_world).
Proof.
  apply (update_file_rewrites_same_text (txt "/proj") ex_done_world ex_crlf ex_target
           ex_done_file (txt "src/data/medicaid_rules_2025.json")).
  - by vm_compute.
  - reflexivity.
  - reflexivity.
  - by vm_compute.
  - by vm_compute.
  - intros m Hm. vm_compute in Hm.
    apply list_elem_of_singleton in Hm as ->. by vm_compute.
Defined.

(** The file of the example loses its carriage return, and nothing else. *)
Example update_file_rewrites_same_text_example :
  f_content <$>
    w_files (fst (update_file (txt "/proj") ex_crlf ex_target ex_done_world)) !! ex_crlf
  = Some (txt "x = require('src/data/medicaid_rules_2025.json');" ++ [newline]).
Proof. by vm_compute. Qed.

(** ** The inserted path leads to the target *)

(** X16.  In the script's run the path inserted in a file, resolved against
    the directory of that file, is the target
    [<cwd>/src/data/medicaid_rules_2025.json], whatever the names of the
    directories on the way. *)
Theorem script_path_resolves (cwd : str) (dirs : list str) (file : str) :
  posixpath.isabs cwd = true → posixpath.normpath cwd = cwd →
  clean dirs → clean_comp file →
  let from_file := posixpath.join (dir_path project_root dirs) file in
  ∃ rel,
    calculate_relative_path cwd from_file (full_json_path cwd) = Some rel ∧
    posixpath.abspath cwd (resolve cwd from_file rel) = full_json_path cwd.
Proof.
  intros Habs Hnorm Hdirs Hfile. cbn zeta.
  change (dir_path project_root dirs) with (dir_path (txt ".") dirs).
  exists (rel_text dirs correct_comps). split; [by apply script_rel|].
  destruct (normpath_abs cwd Habs) as (n & cc & Hn & Hcc & Hshape).
  rewrite Hnorm in Hshape.
  assert (clean (cc ++ dirs)) as Hstart by by apply Forall_app.
  assert (clean (cc ++ correct_comps)) as Hto
    by (apply Forall_app; split; [done|apply correct_comps_clean]).
  rewrite (full_json_path_shaped cwd n cc) by done.
  unfold resolve. rewrite (abspath_under cwd n cc) by done.
  rewrite dirname_shaped.
  2:{ destruct Hn; lia. }
  2:{ apply Forall_app. split; [done|]. apply Forall_app. split; [done|].
      constructor; [done|constructor]. }
  rewrite app_assoc, removelast_last.
  rewrite <- (rel_text_common cc dirs correct_comps).
  pose proof (rel_text_head (cc ++ dirs) (cc ++ correct_comps) Hto) as Hr.
  unfold posixpath.abspath.
  assert (posixpath.isabs
            (posixpath.join (shaped n (cc ++ dirs))
               (rel_text (cc ++ dirs) (cc ++ correct_comps)))
          = true) as ->.
  { rewrite join_shaped; [|destruct Hn; lia|done..].
    destruct (cc ++ dirs); destruct Hn as [-> | ->]; done. }
  by apply resolve_shaped.
Qed.

Lemma script_path_resolves_witness :
  ∃ rel,
    calculate_relative_path (txt "/home/u/proj")
      (posixpath.join (dir_path project_root [txt "lib"; txt "util"]) (txt "c.ts"))
      (full_json_path (txt "/home/u/proj")) = Some rel ∧
    posixpath.abspath (txt "/home/u/proj")
      (resolve (txt "/home/u/proj")
         (posixpath.join (dir_path project_root [txt "lib"; txt "util"]) (txt "c.ts"))
         rel)
    = full_json_path (txt "/home/u/proj").
Proof.
  apply (script_path_resolves (txt "/home/u/proj") [txt "lib"; txt "util"] (txt "c.ts")).
  - reflexivity.
  - vm_compute. reflexivity.
  - repeat constructor; try done; apply (bool_decide_unpack _); by vm_compute.
  - repeat constructor; try done; apply (bool_decide_unpack _); by vm_compute.
Defined.

(** ** The script changes nothing but the text of files *)

Section invariants.
Context {St : Type}.
Variable I : St → Prop.

Lemma for_each_invariant {A} (xs : list A) (body : A → M St unit) st st' r :
  (∀ x s s' r', x ∈ xs → body x s = (s', r') → I s → I s') →
  for_each xs body st = (st', r) → I st → I st'.
Proof.
  revert st. induction xs as [|x xs IH]; intros st Hbody.
  - by intros [= <- <-].
  - cbn [for_each]. rewrite bind_unfold.
    destruct (body x st) as [sa [e|[]]] eqn:Hx.
    + intros [= <- <-]. eapply Hbody; [|exact Hx]. set_solver.
    + intros Hrest Hst. eapply (IH sa); [|exact Hrest|].
      * intros y s s' r' Hy. apply Hbody. set_solver.
      * eapply Hbody; [|exact Hx|done]. set_solver.
Qed.

Lemma assoc_map_Some {A B} (g : A → B) (l : list (str * A)) name b :
  assoc name (map (λ d, (fst d, g (snd d))) l) = Some b →
  ∃ d, d ∈ l ∧ b = g (snd d).
Proof.
  induction l as [|[n a] l IH]; [done|]. cbn.
  destruct (decide (n = name)).
  - intros [= <-]. exists (n, a). split; [set_solver|done].
  - intros (d & Hd & ->)%IH. exists d. split; [set_solver|done].
Qed.

(** What every round of the loop over [os.walk] keeps, the walk keeps. *)
Lemma walk_dir_invariant (body : str → list str → list str → M St (list str))
    t top st st' r :
  (∀ root dirs files s s' r', body root dirs files s = (s', r') → I s → I s') →
  walk_dir body t top st = (st', r) → I st → I st'.
Proof.
  intros Hbody. revert top st st' r.
  induction t as [files subdirs IH] using tree_ind'. intros top st st' r.
  rewrite walk_dir_unfold, bind_unfold.
  destruct (body top (map fst subdirs) files st) as [sa [e|dirs]] eqn:Hb.
  - intros [= <- <-]. by eapply Hbody.
  - intros Hrest Hst. eapply for_each_invariant; [|exact Hrest|by eapply Hbody].
    intros dirname s s' r' _. cbn beta.
    destruct (assoc dirname (map _ subdirs)) as [descend|] eqn:Ha.
    + apply assoc_map_Some in Ha as (d & Hd & ->).
      rewrite Forall_forall in IH. by apply IH.
    + by intros [= <- <-].
Qed.
End invariants.

(** The flags of a file of the store, if it is there. *)
Lemma update_file_keeps_flags cwd p correct_json_path w w' r q :
  update_file cwd p correct_json_path w = (w', r) →
  f_readable <$> w_files w' !! q = f_readable <$> w_files w !! q ∧
  f_writable <$> w_files w' !! q = f_writable <$> w_files w !! q.
Proof.
  intros Hrun.
  destruct (update_file_cases cwd p correct_json_path w)
    as [[Hu [w'' Hrun']]|[Hu (evs & Hrun' & _)]].
  - apply updatable_true in Hu as (f & Hf & Hr & Hok).
    destruct (calculate_relative_path_total cwd p correct_json_path) as [rel Hrel].
    destruct (update_file_content cwd p correct_json_path w f rel)
      as (w3 & f' & Hrun3 & Hf' & _ & Hr' & Hw' & Hframe); [done..|].
    rewrite Hrun in Hrun3. injection Hrun3 as <- _.
    destruct (decide (q = p)) as [->|Hq].
    + rewrite Hf, Hf'. cbn. unfold f_readable. by rewrite Hr', Hw'.
    + by rewrite Hframe.
  - rewrite Hrun in Hrun'. by injection Hrun' as -> _.
Qed.

(** X17.  Whatever the tree and the store, and however the run ends, the
    script creates no file and deletes none, and leaves every file as
    readable and as writable as it was: it changes nothing but the text of
    files. *)
Theorem main_changes_contents_only (cwd : str) (t : tree) (w : world) (q : str) :
  let w1 := fst (main cwd t w) in
  (is_Some (w_files w1 !! q) ↔ is_Some (w_files w !! q)) ∧
  f_readable <$> w_files w1 !! q = f_readable <$> w_files w !! q ∧
  f_writable <$> w_files w1 !! q = f_writable <$> w_files w !! q.
Proof.
  cbn zeta.
  set (I := λ w' : world, ∀ q,
         f_readable <$> w_files w' !! q = f_readable <$> w_files w !! q ∧
         f_writable <$> w_files w' !! q = f_writable <$> w_files w !! q).
  assert (I (fst (main cwd t w))) as Hmain.
  { unfold main, scan_and_update_files, os_walk.
    rewrite bool_decide_eq_false_2 by done.
    rewrite !bind_unfold, print_run.
    destruct (walk_dir _ t project_root _) as [wa [e|[]]] eqn:Hwalk.
    all: assert (I wa) as Hwa; [|by rewrite ?print_run].
    all: eapply (walk_dir_invariant I); [|exact Hwalk|done].
    all: intros root dirs files s s' r'; unfold scan_body;
      rewrite bind_unfold;
      destruct (for_each files _ s) as [sa [e'|[]]] eqn:Hfiles;
      intros [= <- <-]; intros Hs;
      (eapply (for_each_invariant I); [|exact Hfiles|done]);
      intros file s1 s2 r2 _; cbn beta;
      (destruct (endswith (txt ".js") file || endswith (txt ".ts") file);
         [|by intros [= <- <-]]);
      intros Hrun H1 q1;
      destruct (update_file_keeps_flags _ _ _ _ _ _ q1 Hrun) as [-> ->];
      apply H1. }
  destruct (Hmain q) as [Hr Hw]. split_and!; [|done..].
  destruct (w_files (fst (main cwd t w)) !! q), (w_files w !! q);
    cbn in Hr; try done; split; by eauto.
Qed.
